(** * Spotify playlist dumper: the translator and the token client

    A shallow embedding of [internal/spotify/spotify.go] and of the entry
    point [cmd/spdump/spdump.go].

    The repository holds two revisions of the [spotify] package.  They
    agree on the provider-shaped structs, on the token client and on
    [ConvertToMusicPlaylist]; they differ in [MusicTrack.Artists]:

    - the revision with [ConvertToMusicAlbum] and
      [NewMusicSearchResultFromSpotify] keeps a slice of [MusicArtist]
      records (module [ListVariant]);
    - the later revision joins the artist names into one string
      (module [StringVariant]); it is the one [spdump.go] builds against.

    The development has three layers:

    - values: structs as records, a Go slice as a possibly-nil list, a
      [for ... range] loop as a left fold whose body is the loop body;
    - effects: the token client and [main] in a small state-and-panic
      monad over a trace of log lines, HTTP requests and output;
    - memory: the translators of both revisions once more over slice
      headers and backing arrays, to state what a call may write and
      that the value layer is what they compute. *)

From Stdlib Require Import List String ZArith Lia Bool.
From stdpp Require Import base list strings.
Import ListNotations.
Local Open Scope string_scope.
Local Open Scope list_scope.

(** ** Go slices, by value *)

(** A slice value is either the nil slice or a non-nil slice with its
    elements; [len] is 0 for both the nil and the empty slice, and
    [encoding/json] with [omitempty] drops both. *)
Inductive slice (A : Type) : Type :=
| nil_slice : slice A
| make_slice (l : list A) : slice A.
Arguments nil_slice {A}.
Arguments make_slice {A} l.

Definition elems {A} (s : slice A) : list A :=
  match s with
  | nil_slice => []
  | make_slice l => l
  end.

Definition len {A} (s : slice A) : nat := length (elems s).

Definition is_nil {A} (s : slice A) : bool :=
  match s with
  | nil_slice => true
  | make_slice _ => false
  end.

(** [append(s, x)]: the result is never nil. *)
Definition append {A} (s : slice A) (x : A) : slice A :=
  make_slice (elems s ++ [x]).

(** [for _, x := range s { acc = body acc x }] *)
Definition for_range {A S} (s : slice A) (init : S) (body : S -> A -> S) : S :=
  fold_left body (elems s) init.

(** [strings.Join] of the Go standard library: the empty string for no
    element, the element itself for one, otherwise the first element
    followed by separator and element for each further one. *)
Definition strings_Join (elems : slice string) (sep : string) : string :=
  match elems with
  | nil_slice => ""
  | make_slice [] => ""
  | make_slice [x] => x
  | make_slice (x :: rest) => fold_left (fun b s => b +:+ sep +:+ s) rest x
  end.

(** ** Provider-shaped structs *)

Record SpotifyExternalURL := {
  eu_Spotify : string
}.

Record SpotifyArtist := {
  artist_Name : string;
  artist_IntegrationID : string
}.

Record SpotifyAlbumImage := {
  ai_Height : Z;
  ai_Width : Z;
  ai_URL : string
}.

Record SpotifyPlaylistImage := {
  pi_Height : Z;
  pi_Width : Z;
  pi_URL : string
}.

(** A track embeds its album by value and an album holds a slice of
    tracks, so the three structs are declared together. *)
Inductive SpotifyTrack : Type := Build_SpotifyTrack {
  st_Album : SpotifyAlbum;
  st_Name : string;
  st_PreviewURL : string;
  st_TrackURI : string;
  st_IntegrationID : string;
  st_DurationMS : Z;
  st_ExternalURL : SpotifyExternalURL;
  st_Artists : slice SpotifyArtist
}
with SpotifyAlbum : Type := Build_SpotifyAlbum {
  sa_Name : string;
  sa_Images : slice SpotifyAlbumImage;
  sa_URI : string;
  sa_ExternalURL : SpotifyExternalURL;
  sa_IntegrationID : string;
  sa_ReleaseDate : string;
  sa_Artists : slice SpotifyArtist;
  sa_TracksCollection : SpotifyTracksResult
}
with SpotifyTracksResult : Type := Build_SpotifyTracksResult {
  tr_Items : slice SpotifyTrack
}.

Record SpotifyPlaylistTrack := {
  pt_Track : SpotifyTrack
}.

Record SpotifyPlaylistTracks := {
  pts_Items : slice SpotifyPlaylistTrack
}.

Record SpotifyPlaylist := {
  sp_Name : string;
  sp_Images : slice SpotifyPlaylistImage;
  sp_URI : string;
  sp_ExternalURL : SpotifyExternalURL;
  sp_IntegrationID : string;
  sp_TracksCollection : SpotifyPlaylistTracks
}.

Record SpotifyAlbumsResult := {
  ar_Items : slice SpotifyAlbum
}.

Record SpotifyPlaylistsResult := {
  pr_Items : slice SpotifyPlaylist
}.

Record SpotifyTrackSearchResult := {
  sr_ResultCollection : SpotifyTracksResult;
  sr_AlbumCollection : SpotifyAlbumsResult;
  sr_PlaylistCollection : SpotifyPlaylistsResult
}.

(** [track.Album = sa] on the loop's copy of a track. *)
Definition with_Album (track : SpotifyTrack) (sa : SpotifyAlbum) : SpotifyTrack :=
  {| st_Album := sa;
     st_Name := st_Name track;
     st_PreviewURL := st_PreviewURL track;
     st_TrackURI := st_TrackURI track;
     st_IntegrationID := st_IntegrationID track;
     st_DurationMS := st_DurationMS track;
     st_ExternalURL := st_ExternalURL track;
     st_Artists := st_Artists track |}.

(** ** Output structs shared by the two revisions *)

Record MusicArtist := {
  martist_Name : string;
  martist_IntegrationID : string
}.

(** [MusicArtist{Name: artist.Name, IntegrationID: artist.IntegrationID}] *)
Definition toMusicArtist (artist : SpotifyArtist) : MusicArtist :=
  {| martist_Name := artist_Name artist;
     martist_IntegrationID := artist_IntegrationID artist |}.

(** [CombineArtists]: same in both revisions. *)
Definition CombineArtists (o : SpotifyTrack) : string :=
  let artistNames :=
    for_range (st_Artists o) nil_slice
      (fun artistNames artist => append artistNames (artist_Name artist)) in
  strings_Join artistNames ", ".

(** ** The revision that joins artist names into a string *)

Module StringVariant.

Record MusicTrack := {
  mt_Name : string;
  mt_PreviewURL : string;
  mt_AlbumName : string;
  mt_AlbumArt : slice SpotifyAlbumImage;
  mt_AlbumReleaseDate : string;
  mt_IntegrationID : string;
  mt_Source : string;
  mt_ExternalURL : string;
  mt_Artists : string
}.

Record MusicPlaylist := {
  mp_Name : string;
  mp_PlaylistArt : slice SpotifyPlaylistImage;
  mp_Tracks : slice MusicTrack;
  mp_IntegrationID : string
}.

Definition set_mt_Artists (mt : MusicTrack) (v : string) : MusicTrack :=
  {| mt_Name := mt_Name mt;
     mt_PreviewURL := mt_PreviewURL mt;
     mt_AlbumName := mt_AlbumName mt;
     mt_AlbumArt := mt_AlbumArt mt;
     mt_AlbumReleaseDate := mt_AlbumReleaseDate mt;
     mt_IntegrationID := mt_IntegrationID mt;
     mt_Source := mt_Source mt;
     mt_ExternalURL := mt_ExternalURL mt;
     mt_Artists := v |}.

Definition set_mp_Tracks (mp : MusicPlaylist) (v : slice MusicTrack) : MusicPlaylist :=
  {| mp_Name := mp_Name mp;
     mp_PlaylistArt := mp_PlaylistArt mp;
     mp_Tracks := v;
     mp_IntegrationID := mp_IntegrationID mp |}.

Definition ConvertToMusicTrack (st : SpotifyTrack) : MusicTrack :=
  let musicTrack :=
    {| mt_Name := st_Name st;
       mt_PreviewURL := st_PreviewURL st;
       mt_AlbumName := sa_Name (st_Album st);
       mt_AlbumArt := sa_Images (st_Album st);
       mt_AlbumReleaseDate := sa_ReleaseDate (st_Album st);
       mt_IntegrationID := st_IntegrationID st;
       mt_Source := "spotify";
       mt_ExternalURL := eu_Spotify (st_ExternalURL st);
       mt_Artists := "" |} in
  let artistNames : slice string := nil_slice in
  let artistNames :=
    for_range (st_Artists st) artistNames
      (fun artistNames artist => append artistNames (artist_Name artist)) in
  set_mt_Artists musicTrack (strings_Join artistNames ", ").

Definition ConvertToMusicPlaylist (sp : SpotifyPlaylist) : MusicPlaylist :=
  let playlist :=
    {| mp_Name := sp_Name sp;
       mp_PlaylistArt := sp_Images sp;
       mp_Tracks := nil_slice;
       mp_IntegrationID := sp_IntegrationID sp |} in
  if (0 <? len (pts_Items (sp_TracksCollection sp)))%nat then
    for_range (pts_Items (sp_TracksCollection sp)) playlist
      (fun playlist track =>
         set_mp_Tracks playlist
           (append (mp_Tracks playlist) (ConvertToMusicTrack (pt_Track track))))
  else playlist.

(** The member names [encoding/json] writes for a [MusicPlaylist]:
    fields without a name tag go under their Go names, in declaration
    order, and [Tracks], tagged [omitempty], only when its length is
    not 0. *)
Definition json_members (mp : MusicPlaylist) : list string :=
  ["Name"; "PlaylistArt"]
    ++ (if (len (mp_Tracks mp) =? 0)%nat then [] else ["Tracks"])
    ++ ["IntegrationID"].

End StringVariant.

(** ** The revision that keeps a list of artist records *)

Module ListVariant.

Record MusicTrack := {
  mt_Name : string;
  mt_PreviewURL : string;
  mt_AlbumName : string;
  mt_AlbumArt : slice SpotifyAlbumImage;
  mt_AlbumReleaseDate : string;
  mt_IntegrationID : string;
  mt_Source : string;
  mt_ExternalURL : string;
  mt_Artists : slice MusicArtist
}.

Record MusicAlbum := {
  ma_Name : string;
  ma_AlbumArt : slice SpotifyAlbumImage;
  ma_ReleaseDate : string;
  ma_Artists : slice MusicArtist;
  ma_Tracks : slice MusicTrack;
  ma_IntegrationID : string
}.

Record MusicPlaylist := {
  mp_Name : string;
  mp_PlaylistArt : slice SpotifyPlaylistImage;
  mp_Tracks : slice MusicTrack;
  mp_IntegrationID : string
}.

Record MusicSearchResult := {
  msr_Tracks : slice MusicTrack;
  msr_Albums : slice MusicAlbum;
  msr_Playlists : slice MusicPlaylist
}.

Definition set_mt_Artists (mt : MusicTrack) (v : slice MusicArtist) : MusicTrack :=
  {| mt_Name := mt_Name mt;
     mt_PreviewURL := mt_PreviewURL mt;
     mt_AlbumName := mt_AlbumName mt;
     mt_AlbumArt := mt_AlbumArt mt;
     mt_AlbumReleaseDate := mt_AlbumReleaseDate mt;
     mt_IntegrationID := mt_IntegrationID mt;
     mt_Source := mt_Source mt;
     mt_ExternalURL := mt_ExternalURL mt;
     mt_Artists := v |}.

Definition set_ma_Artists (ma : MusicAlbum) (v : slice MusicArtist) : MusicAlbum :=
  {| ma_Name := ma_Name ma;
     ma_AlbumArt := ma_AlbumArt ma;
     ma_ReleaseDate := ma_ReleaseDate ma;
     ma_Artists := v;
     ma_Tracks := ma_Tracks ma;
     ma_IntegrationID := ma_IntegrationID ma |}.

Definition set_ma_Tracks (ma : MusicAlbum) (v : slice MusicTrack) : MusicAlbum :=
  {| ma_Name := ma_Name ma;
     ma_AlbumArt := ma_AlbumArt ma;
     ma_ReleaseDate := ma_ReleaseDate ma;
     ma_Artists := ma_Artists ma;
     ma_Tracks := v;
     ma_IntegrationID := ma_IntegrationID ma |}.

Definition set_mp_Tracks (mp : MusicPlaylist) (v : slice MusicTrack) : MusicPlaylist :=
  {| mp_Name := mp_Name mp;
     mp_PlaylistArt := mp_PlaylistArt mp;
     mp_Tracks := v;
     mp_IntegrationID := mp_IntegrationID mp |}.

Definition set_msr_Tracks (msr : MusicSearchResult) (v : slice MusicTrack) :=
  {| msr_Tracks := v;
     msr_Albums := msr_Albums msr;
     msr_Playlists := msr_Playlists msr |}.

Definition set_msr_Albums (msr : MusicSearchResult) (v : slice MusicAlbum) :=
  {| msr_Tracks := msr_Tracks msr;
     msr_Albums := v;
     msr_Playlists := msr_Playlists msr |}.

Definition set_msr_Playlists (msr : MusicSearchResult) (v : slice MusicPlaylist) :=
  {| msr_Tracks := msr_Tracks msr;
     msr_Albums := msr_Albums msr;
     msr_Playlists := v |}.

Definition ConvertToMusicTrack (st : SpotifyTrack) : MusicTrack :=
  let musicTrack :=
    {| mt_Name := st_Name st;
       mt_PreviewURL := st_PreviewURL st;
       mt_AlbumName := sa_Name (st_Album st);
       mt_AlbumArt := sa_Images (st_Album st);
       mt_AlbumReleaseDate := sa_ReleaseDate (st_Album st);
       mt_IntegrationID := st_IntegrationID st;
       mt_Source := "spotify";
       mt_ExternalURL := eu_Spotify (st_ExternalURL st);
       mt_Artists := nil_slice |} in
  let musicTrack := set_mt_Artists musicTrack (make_slice []) in
  for_range (st_Artists st) musicTrack
    (fun musicTrack artist =>
       let musicArtist :=
         {| martist_Name := artist_Name artist;
            martist_IntegrationID := artist_IntegrationID artist |} in
       set_mt_Artists musicTrack (append (mt_Artists musicTrack) musicArtist)).

Definition ConvertToMusicAlbum (sa : SpotifyAlbum) : MusicAlbum :=
  let ma :=
    {| ma_Name := sa_Name sa;
       ma_AlbumArt := sa_Images sa;
       ma_ReleaseDate := sa_ReleaseDate sa;
       ma_Artists := nil_slice;
       ma_Tracks := nil_slice;
       ma_IntegrationID := sa_IntegrationID sa |} in
  let ma := set_ma_Artists ma (make_slice []) in
  let ma :=
    for_range (sa_Artists sa) ma
      (fun ma artist =>
         let musicArtist :=
           {| martist_Name := artist_Name artist;
              martist_IntegrationID := artist_IntegrationID artist |} in
         set_ma_Artists ma (append (ma_Artists ma) musicArtist)) in
  if (0 <? len (tr_Items (sa_TracksCollection sa)))%nat then
    for_range (tr_Items (sa_TracksCollection sa)) ma
      (fun ma track =>
         let track := with_Album track sa in
         set_ma_Tracks ma (append (ma_Tracks ma) (ConvertToMusicTrack track)))
  else ma.

Definition ConvertToMusicPlaylist (sp : SpotifyPlaylist) : MusicPlaylist :=
  let playlist :=
    {| mp_Name := sp_Name sp;
       mp_PlaylistArt := sp_Images sp;
       mp_Tracks := nil_slice;
       mp_IntegrationID := sp_IntegrationID sp |} in
  if (0 <? len (pts_Items (sp_TracksCollection sp)))%nat then
    for_range (pts_Items (sp_TracksCollection sp)) playlist
      (fun playlist track =>
         set_mp_Tracks playlist
           (append (mp_Tracks playlist) (ConvertToMusicTrack (pt_Track track))))
  else playlist.

Definition NewMusicSearchResultFromSpotify
    (spotifyResult : SpotifyTrackSearchResult) : MusicSearchResult :=
  let msr :=
    {| msr_Tracks := nil_slice; msr_Albums := nil_slice; msr_Playlists := nil_slice |} in
  let msr :=
    for_range (tr_Items (sr_ResultCollection spotifyResult)) msr
      (fun msr track =>
         let mt :=
           {| mt_Name := st_Name track;
              mt_PreviewURL := st_PreviewURL track;
              mt_AlbumName := sa_Name (st_Album track);
              mt_AlbumArt := sa_Images (st_Album track);
              mt_AlbumReleaseDate := sa_ReleaseDate (st_Album track);
              mt_IntegrationID := st_IntegrationID track;
              mt_Source := "spotify";
              mt_ExternalURL := eu_Spotify (st_ExternalURL track);
              mt_Artists := nil_slice |} in
         let mt :=
           for_range (sa_Artists (st_Album track)) mt
             (fun mt artist =>
                let a :=
                  {| martist_Name := artist_Name artist;
                     martist_IntegrationID := artist_IntegrationID artist |} in
                set_mt_Artists mt (append (mt_Artists mt) a)) in
         set_msr_Tracks msr (append (msr_Tracks msr) mt)) in
  let msr :=
    for_range (ar_Items (sr_AlbumCollection spotifyResult)) msr
      (fun msr album =>
         let ma :=
           {| ma_Name := sa_Name album;
              ma_AlbumArt := sa_Images album;
              ma_ReleaseDate := sa_ReleaseDate album;
              ma_Artists := nil_slice;
              ma_Tracks := nil_slice;
              ma_IntegrationID := sa_IntegrationID album |} in
         let ma :=
           for_range (sa_Artists album) ma
             (fun ma artist =>
                let a :=
                  {| martist_Name := artist_Name artist;
                     martist_IntegrationID := artist_IntegrationID artist |} in
                set_ma_Artists ma (append (ma_Artists ma) a)) in
         set_msr_Albums msr (append (msr_Albums msr) ma)) in
  let msr :=
    for_range (pr_Items (sr_PlaylistCollection spotifyResult)) msr
      (fun msr playlist =>
         let mp :=
           {| mp_Name := sp_Name playlist;
              mp_PlaylistArt := sp_Images playlist;
              mp_Tracks := nil_slice;
              mp_IntegrationID := sp_IntegrationID playlist |} in
         set_msr_Playlists msr (append (msr_Playlists msr) mp)) in
  msr.

(** The member names [encoding/json] writes for a [MusicPlaylist]:
    fields without a name tag go under their Go names, in declaration
    order, and [Tracks], tagged [omitempty], only when its length is
    not 0. *)
Definition json_members (mp : MusicPlaylist) : list string :=
  ["Name"; "PlaylistArt"]
    ++ (if (len (mp_Tracks mp) =? 0)%nat then [] else ["Tracks"])
    ++ ["IntegrationID"].

End ListVariant.


(** ** [ImageURLs] *)

(** The table [asciiSpace] of package [strings]: tab, line feed,
    vertical tab, form feed, carriage return and space. *)
Definition asciiSpace (c : Ascii.ascii) : bool :=
  match Ascii.nat_of_ascii c with
  | 9 | 10 | 11 | 12 | 13 | 32 => true
  | _ => false
  end.

(** [utf8.RuneSelf]: bytes below it are the ASCII characters. *)
Definition RuneSelf : nat := 128.

Section TrimSpace.
(** What [strings.TrimSpace] hands over to when it meets a byte that is
    not ASCII: [TrimFunc(s, unicode.IsSpace)] from the front and
    [TrimRightFunc(s, unicode.IsSpace)] from the back. *)
Variables TrimFunc_IsSpace TrimRightFunc_IsSpace : string -> string.

(** The second loop of [strings.TrimSpace], over the bytes of
    [s[start:]] from the last one: it drops ASCII white space and stops
    at the first other byte. *)
Fixpoint TrimSpace_stop (reversed : list Ascii.ascii) : string :=
  match reversed with
  | [] => ""
  | c :: before =>
      if (RuneSelf <=? Ascii.nat_of_ascii c)%nat then
        TrimRightFunc_IsSpace (string_of_list_ascii (rev reversed))
      else if asciiSpace c then TrimSpace_stop before
      else string_of_list_ascii (rev reversed)
  end.

(** [strings.TrimSpace]: the first loop walks over leading ASCII white
    space, the second over trailing. *)
Fixpoint strings_TrimSpace (s : string) : string :=
  match s with
  | EmptyString => ""
  | String c rest =>
      if (RuneSelf <=? Ascii.nat_of_ascii c)%nat then TrimFunc_IsSpace s
      else if asciiSpace c then strings_TrimSpace rest
      else TrimSpace_stop (rev (list_ascii_of_string s))
  end.

(** [(o *SpotifyTrack) ImageURLs] *)
Definition SpotifyTrack_ImageURLs (o : SpotifyTrack) : string :=
  let urls :=
    for_range (sa_Images (st_Album o)) ""
      (fun urls image => urls +:+ (ai_URL image +:+ " ")) in
  strings_TrimSpace urls.

(** [(o *SpotifyAlbum) ImageURLs] *)
Definition SpotifyAlbum_ImageURLs (o : SpotifyAlbum) : string :=
  let urls :=
    for_range (sa_Images o) ""
      (fun urls image => urls +:+ (ai_URL image +:+ " ")) in
  strings_TrimSpace urls.

End TrimSpace.

(** ** Zero values *)

Definition zero_SpotifyExternalURL : SpotifyExternalURL := {| eu_Spotify := "" |}.

Definition zero_SpotifyAlbum : SpotifyAlbum :=
  {| sa_Name := ""; sa_Images := nil_slice; sa_URI := "";
     sa_ExternalURL := zero_SpotifyExternalURL; sa_IntegrationID := "";
     sa_ReleaseDate := ""; sa_Artists := nil_slice;
     sa_TracksCollection := {| tr_Items := nil_slice |} |}.

Definition zero_SpotifyTrack : SpotifyTrack :=
  {| st_Album := zero_SpotifyAlbum; st_Name := ""; st_PreviewURL := "";
     st_TrackURI := ""; st_IntegrationID := ""; st_DurationMS := 0;
     st_ExternalURL := zero_SpotifyExternalURL; st_Artists := nil_slice |}.

Definition zero_SpotifyPlaylist : SpotifyPlaylist :=
  {| sp_Name := ""; sp_Images := nil_slice; sp_URI := "";
     sp_ExternalURL := zero_SpotifyExternalURL; sp_IntegrationID := "";
     sp_TracksCollection := {| pts_Items := nil_slice |} |}.


(** ** The token client and the entry point, with their effects *)

(** A Go [error] value, by its message; the nil error is [None]. *)
Inductive error : Type :=
| errors_New (msg : string).

Definition Error (e : error) : string :=
  match e with errors_New msg => msg end.

Record Spotify := {
  Token : string;
  ClientID : string;
  ClientSecret : string
}.

Definition set_Token (o : Spotify) (v : string) : Spotify :=
  {| Token := v; ClientID := ClientID o; ClientSecret := ClientSecret o |}.

Record spotifyTokenResponse := {
  AccessToken : string
}.

(** What [net/http] is given: the request and the response. *)
Record Request := {
  req_Method : string;
  req_URL : string;
  req_Body : string;
  req_BasicAuth : option (string * string);
  req_Header : list (string * string)
}.

Record Response := {
  StatusCode : Z;
  Body : string
}.

Definition SetBasicAuth (req : Request) (username password : string) : Request :=
  {| req_Method := req_Method req; req_URL := req_URL req; req_Body := req_Body req;
     req_BasicAuth := Some (username, password); req_Header := req_Header req |}.

Definition Header_Add (req : Request) (key value : string) : Request :=
  {| req_Method := req_Method req; req_URL := req_URL req; req_Body := req_Body req;
     req_BasicAuth := req_BasicAuth req;
     req_Header := req_Header req ++ [(key, value)] |}.

(** What a run leaves behind, in order: log lines (the leading message
    of the call, for [log.Println] and [log.Error] alike), requests handed
    to [client.Do] with the client's timeout in seconds, and the playlist
    whose JSON encoding [main] prints. *)
Inductive event : Type :=
| Logged (msg : string)
| Sent (timeout : option Z) (req : Request)
| Printed (mp : StringVariant.MusicPlaylist).

(** Everything outside the program that it consults.  Each field is the
    answer of a library or of the network; the program text fixes when
    and with what they are asked.

    - [http_NewRequest_err method url]: the error of [http.NewRequest],
      if it rejects the method or the URL;
    - [http_Do req]: the response to a request, or the transport error
      of [client.Do];
    - [json_Unmarshal_token body]: the [spotifyTokenResponse] that
      [json.Unmarshal] leaves when decoding [body] into a zero value (the
      program drops the error), so [AccessToken] is empty when the body
      has no [access_token] member or an empty one;
    - [json_Unmarshal_playlist body]: likewise for a playlist, with the
      error;
    - [ioutil_ReadFile], [toml_Load]: file contents and parsed
      configuration, the latter as the string values under its keys
      ([None] where the key is missing or holds no string);
    - [flag_playlist]: the value of [--playlist] after [flag.Parse]. *)
Record World := {
  http_NewRequest_err : string -> string -> option error;
  http_Do : Request -> Response + error;
  json_Unmarshal_token : string -> spotifyTokenResponse;
  json_Unmarshal_playlist : string -> SpotifyPlaylist * option error;
  ioutil_ReadFile : string -> string * option error;
  toml_Load : string -> (string -> option string) * option error;
  flag_playlist : string
}.

(** A computation extends the trace and either returns or panics. *)
Inductive outcome (A : Type) : Type :=
| Returned (a : A)
| Panicked (v : string).
Arguments Returned {A} a.
Arguments Panicked {A} v.

Definition Prog (A : Type) : Type := list event -> outcome A * list event.

#[global] Instance Prog_ret : MRet Prog :=
  fun A a tr => (Returned a, tr).

#[global] Instance Prog_bind : MBind Prog :=
  fun A B k m tr =>
    match m tr with
    | (Returned a, tr') => k a tr'
    | (Panicked v, tr') => (Panicked v, tr')
    end.

Definition emit (e : event) : Prog unit :=
  fun tr => (Returned tt, tr ++ [e]).

Definition panic {A} (v : string) : Prog A :=
  fun tr => (Panicked v, tr).

Definition log_Println (msg : string) : Prog unit := emit (Logged msg).

(** [http.NewRequest(method, url, body)] *)
Definition http_NewRequest (W : World) (method url body : string)
  : Request + error :=
  match http_NewRequest_err W method url with
  | Some err => inr err
  | None =>
      inl {| req_Method := method; req_URL := url; req_Body := body;
             req_BasicAuth := None; req_Header := [] |}
  end.

(** [client.Do(req)] for a client with the given timeout. *)
Definition client_Do (W : World) (timeout : option Z) (req : Request)
  : Prog (Response + error) :=
  _ ← emit (Sent timeout req); mret (http_Do W req).

Section Client.
Variable W : World.

(** [refreshSpotifyToken]; the receiver is passed in and handed back
    with the result, since the method may store the token in it. *)
Definition refreshSpotifyToken (o : Spotify)
  : Prog ((string * option error) * Spotify) :=
  (* url.Values{"grant_type": {"client_credentials"}}.Encode() *)
  let body := "grant_type=client_credentials" in
  match http_NewRequest W "POST" "https://accounts.spotify.com/api/token" body with
  | inr err =>
      _ ← log_Println "net/http error";
      mret (("", Some err), o)
  | inl req =>
      let req := SetBasicAuth req (ClientID o) (ClientSecret o) in
      let req := Header_Add req "Content-Type" "application/x-www-form-urlencoded" in
      r ← client_Do W None req;
      let failed : Prog ((string * option error) * Spotify) :=
        _ ← log_Println "Error hitting spotify to refresh token";
        mret (("", Some (errors_New "spotify token error")), o) in
      match r with
      | inr _ => failed
      | inl resp =>
          if negb (StatusCode resp =? 200)%Z then failed
          else
            let respbody := Body resp in
            let spotTokenResp := json_Unmarshal_token W respbody in
            if String.eqb (AccessToken spotTokenResp) "" then
              let errmsg := "Problems getting spotify access token from JSON" in
              _ ← log_Println errmsg;
              mret (("", Some (errors_New errmsg)), o)
            else
              let o := set_Token o (AccessToken spotTokenResp) in
              mret ((AccessToken spotTokenResp, None), o)
      end
  end.

Definition getToken (o : Spotify) : Prog ((string * option error) * Spotify) :=
  if (0 <? String.length (Token o))%nat then mret ((Token o, None), o)
  else refreshSpotifyToken o.

(** [NewSpotify]: the returned pointer is [None] for nil. *)
Definition NewSpotify (clientID clientSecret : string)
  : Prog (option Spotify * option error) :=
  let sp := {| Token := ""; ClientID := clientID; ClientSecret := clientSecret |} in
  '((token, err), sp) ← getToken sp;
  match err with
  | Some err =>
      _ ← log_Println "Unable to get token for API access.";
      mret (None, Some err)
  | None =>
      let sp := set_Token sp token in
      mret (Some sp, None)
  end.

(** [PlaylistFromID], in the revision [main] is built against. *)
Definition PlaylistFromID (o : Spotify) (ID : string)
  : Prog ((SpotifyPlaylist * option error) * Spotify) :=
  let playlist := zero_SpotifyPlaylist in
  let trackURL := "https://api.spotify.com/v1/playlists/" +:+ ID in
  let timeout := Some 15%Z in
  match http_NewRequest W "GET" trackURL "" with
  | inr err =>
      _ ← log_Println "net/http error";
      mret ((playlist, Some err), o)
  | inl req =>
      '((token, err), o) ← getToken o;
      match err with
      | Some err =>
          _ ← log_Println "error getting token";
          mret ((playlist, Some err), o)
      | None =>
          let req := Header_Add req "Authorization" ("Bearer " +:+ token) in
          r ← client_Do W timeout req;
          match r with
          | inr _ =>
              _ ← log_Println "Error making call to spotify error:";
              mret ((playlist,
                     Some (errors_New
                             "error making call to spotify to get playlist information")),
                    o)
          | inl resp =>
              let body := Body resp in
              if negb (StatusCode resp =? 200)%Z then
                _ ← log_Println "Error making call to spotify";
                mret ((playlist,
                       Some (errors_New
                               "error making call to spotify to get playlist information")),
                      o)
              else
                let '(playlist, err) := json_Unmarshal_playlist W body in
                match err with
                | Some err =>
                    _ ← log_Println "Invalid JSON response from Spotify";
                    mret ((playlist, Some err), o)
                | None => mret ((playlist, None), o)
                end
          end
      end
  end.

(** [config.Get(key).(string)]: the assertion panics unless the key
    holds a string. *)
Definition Get_string (config : string -> option string) (key : string)
  : Prog string :=
  match config key with
  | Some s => mret s
  | None => panic "interface conversion: interface {} is not string"
  end.

(** [main] of [cmd/spdump/spdump.go]. *)
Definition main : Prog unit :=
  let playlistPtr := flag_playlist W in
  let '(tomlData, err) := ioutil_ReadFile W "config.toml" in
  match err with
  | Some err => panic (Error err)
  | None =>
      let '(config, err) := toml_Load W tomlData in
      match err with
      | Some err => panic (Error err)
      | None =>
          clientID ← Get_string config "spotify.client_id";
          clientSecret ← Get_string config "spotify.client_secret";
          _ ← log_Println "clientID: ";
          '(sp, err) ← NewSpotify clientID clientSecret;
          match err, sp with
          | Some err, _ => panic (Error err)
          | None, None => panic "invalid memory address or nil pointer dereference"
          | None, Some sp =>
              '((playlist, err), sp) ← PlaylistFromID sp playlistPtr;
              match err with
              | Some err => panic (Error err)
              | None =>
                  let mp := StringVariant.ConvertToMusicPlaylist playlist in
                  emit (Printed mp)
              end
          end
      end
  end.

End Client.

(** ** The other fetchers *)

Section Fetchers.
Variable W : World.
(** [json.Unmarshal] of a body into a zero [SpotifyTrack] and into a zero
    [SpotifyAlbum]: what it leaves in the struct, and its error. *)
Variable json_Unmarshal_track : string -> SpotifyTrack * option error.
Variable json_Unmarshal_album : string -> SpotifyAlbum * option error.

(** [TrackFromID]; the same in both revisions. *)
Definition TrackFromID (o : Spotify) (ID : string)
  : Prog ((SpotifyTrack * option error) * Spotify) :=
  let st := zero_SpotifyTrack in
  let trackURL := "https://api.spotify.com/v1/tracks/" +:+ ID in
  let timeout := Some 15%Z in
  match http_NewRequest W "GET" trackURL "" with
  | inr err =>
      _ ← log_Println "net/http error";
      mret ((st, Some err), o)
  | inl req =>
      '((token, err), o) ← getToken W o;
      match err with
      | Some err =>
          _ ← log_Println "error getting token";
          mret ((st, Some err), o)
      | None =>
          let req := Header_Add req "Authorization" ("Bearer " +:+ token) in
          r ← client_Do W timeout req;
          (* fmt.Errorf("... : %s", ID) *)
          let failed :=
            errors_New
              ("error making call to spotify to get track information : " +:+ ID) in
          match r with
          | inr _ =>
              _ ← log_Println "Error making call to spotify error:";
              mret ((st, Some failed), o)
          | inl resp =>
              let body := Body resp in
              if negb (StatusCode resp =? 200)%Z then
                _ ← log_Println "Error making call to spotify";
                mret ((st, Some failed), o)
              else
                let '(st, err) := json_Unmarshal_track body in
                match err with
                | Some err =>
                    _ ← log_Println "Invalid JSON response from Spotify";
                    mret ((st, Some err), o)
                | None => mret ((st, None), o)
                end
          end
      end
  end.

(** [AlbumFromID]; the same in both revisions. *)
Definition AlbumFromID (o : Spotify) (ID : string)
  : Prog ((SpotifyAlbum * option error) * Spotify) :=
  let album := zero_SpotifyAlbum in
  let trackURL := "https://api.spotify.com/v1/albums/" +:+ ID in
  let timeout := Some 15%Z in
  match http_NewRequest W "GET" trackURL "" with
  | inr err =>
      _ ← log_Println "net/http error";
      mret ((album, Some err), o)
  | inl req =>
      '((token, err), o) ← getToken W o;
      match err with
      | Some err =>
          _ ← log_Println "error getting token";
          mret ((album, Some err), o)
      | None =>
          let req := Header_Add req "Authorization" ("Bearer " +:+ token) in
          r ← client_Do W timeout req;
          match r with
          | inr _ =>
              _ ← log_Println "Error making call to spotify error:";
              mret ((album,
                     Some (errors_New
                             "error making call to spotify to get album information")),
                    o)
          | inl resp =>
              let body := Body resp in
              if negb (StatusCode resp =? 200)%Z then
                _ ← log_Println "Error making call to spotify";
                mret ((album,
                       Some (errors_New
                               "error making call to spotify to get album information")),
                      o)
              else
                let '(album, err) := json_Unmarshal_album body in
                match err with
                | Some err =>
                    _ ← log_Println "Invalid JSON response from Spotify";
                    mret ((album, Some err), o)
                | None => mret ((album, None), o)
                end
          end
      end
  end.

End Fetchers.

(** [PlaylistFromID] as the list revision has it: its two HTTP failures
    carry the message of [AlbumFromID]. *)
Module ListRevisionClient.

Section Fetchers.
Variable W : World.

Definition PlaylistFromID (o : Spotify) (ID : string)
  : Prog ((SpotifyPlaylist * option error) * Spotify) :=
  let playlist := zero_SpotifyPlaylist in
  let trackURL := "https://api.spotify.com/v1/playlists/" +:+ ID in
  let timeout := Some 15%Z in
  match http_NewRequest W "GET" trackURL "" with
  | inr err =>
      _ ← log_Println "net/http error";
      mret ((playlist, Some err), o)
  | inl req =>
      '((token, err), o) ← getToken W o;
      match err with
      | Some err =>
          _ ← log_Println "error getting token";
          mret ((playlist, Some err), o)
      | None =>
          let req := Header_Add req "Authorization" ("Bearer " +:+ token) in
          r ← client_Do W timeout req;
          match r with
          | inr _ =>
              _ ← log_Println "Error making call to spotify error:";
              mret ((playlist,
                     Some (errors_New
                             "error making call to spotify to get album information")),
                    o)
          | inl resp =>
              let body := Body resp in
              if negb (StatusCode resp =? 200)%Z then
                _ ← log_Println "Error making call to spotify";
                mret ((playlist,
                       Some (errors_New
                               "error making call to spotify to get album information")),
                      o)
              else
                let '(playlist, err) := json_Unmarshal_playlist W body in
                match err with
                | Some err =>
                    _ ← log_Println "Invalid JSON response from Spotify";
                    mret ((playlist, Some err), o)
                | None => mret ((playlist, None), o)
                end
          end
      end
  end.

End Fetchers.

End ListRevisionClient.

(** ** Slices as headers over backing arrays *)

(** The value layer gives every slice its own list.  In Go a slice is a
    header (pointer, length, capacity) into a backing array that other
    headers may share; [append] writes into that array when capacity is
    left and moves to a new, larger one otherwise.  This layer keeps the
    headers and the arrays, so that what a translator writes, and where,
    can be stated. *)
Module Mem.

(** [s_base] is the backing array ([None] for a nil pointer) and
    [s_off] the position in it of the slice's first element. *)
Record hslice := {
  s_base : option nat;
  s_off : nat;
  s_len : nat;
  s_cap : nat
}.

Definition hnil : hslice :=
  {| s_base := None; s_off := 0; s_len := 0; s_cap := 0 |}.

Record hSpotifyTracksResult := {
  htr_Items : hslice
}.

Record hSpotifyAlbum := {
  hsa_Name : string;
  hsa_Images : hslice;
  hsa_URI : string;
  hsa_ExternalURL : SpotifyExternalURL;
  hsa_IntegrationID : string;
  hsa_ReleaseDate : string;
  hsa_Artists : hslice;
  hsa_TracksCollection : hSpotifyTracksResult
}.

Record hSpotifyTrack := {
  hst_Album : hSpotifyAlbum;
  hst_Name : string;
  hst_PreviewURL : string;
  hst_TrackURI : string;
  hst_IntegrationID : string;
  hst_DurationMS : Z;
  hst_ExternalURL : SpotifyExternalURL;
  hst_Artists : hslice
}.

Record hSpotifyPlaylistTrack := {
  hpt_Track : hSpotifyTrack
}.

Record hSpotifyPlaylistTracks := {
  hpts_Items : hslice
}.

Record hSpotifyPlaylist := {
  hsp_Name : string;
  hsp_Images : hslice;
  hsp_URI : string;
  hsp_ExternalURL : SpotifyExternalURL;
  hsp_IntegrationID : string;
  hsp_TracksCollection : hSpotifyPlaylistTracks
}.

(** [MusicTrack], with the type of its Artists field left open: a
    slice header in one revision, a string in the other. *)
Record hMusicTrack (Ar : Type) := {
  hmt_Name : string;
  hmt_PreviewURL : string;
  hmt_AlbumName : string;
  hmt_AlbumArt : hslice;
  hmt_AlbumReleaseDate : string;
  hmt_IntegrationID : string;
  hmt_Source : string;
  hmt_ExternalURL : string;
  hmt_Artists : Ar
}.
Arguments hmt_Name {Ar} _.
Arguments hmt_PreviewURL {Ar} _.
Arguments hmt_AlbumName {Ar} _.
Arguments hmt_AlbumArt {Ar} _.
Arguments hmt_AlbumReleaseDate {Ar} _.
Arguments hmt_IntegrationID {Ar} _.
Arguments hmt_Source {Ar} _.
Arguments hmt_ExternalURL {Ar} _.
Arguments hmt_Artists {Ar} _.

Definition set_hmt_Artists {Ar Ar'} (mt : hMusicTrack Ar) (v : Ar') : hMusicTrack Ar' :=
  {| hmt_Name := hmt_Name mt;
     hmt_PreviewURL := hmt_PreviewURL mt;
     hmt_AlbumName := hmt_AlbumName mt;
     hmt_AlbumArt := hmt_AlbumArt mt;
     hmt_AlbumReleaseDate := hmt_AlbumReleaseDate mt;
     hmt_IntegrationID := hmt_IntegrationID mt;
     hmt_Source := hmt_Source mt;
     hmt_ExternalURL := hmt_ExternalURL mt;
     hmt_Artists := v |}.

Record hMusicAlbum := {
  hma_Name : string;
  hma_AlbumArt : hslice;
  hma_ReleaseDate : string;
  hma_Artists : hslice;
  hma_Tracks : hslice;
  hma_IntegrationID : string
}.

Definition set_hma_Artists (ma : hMusicAlbum) (v : hslice) : hMusicAlbum :=
  {| hma_Name := hma_Name ma;
     hma_AlbumArt := hma_AlbumArt ma;
     hma_ReleaseDate := hma_ReleaseDate ma;
     hma_Artists := v;
     hma_Tracks := hma_Tracks ma;
     hma_IntegrationID := hma_IntegrationID ma |}.

Definition set_hma_Tracks (ma : hMusicAlbum) (v : hslice) : hMusicAlbum :=
  {| hma_Name := hma_Name ma;
     hma_AlbumArt := hma_AlbumArt ma;
     hma_ReleaseDate := hma_ReleaseDate ma;
     hma_Artists := hma_Artists ma;
     hma_Tracks := v;
     hma_IntegrationID := hma_IntegrationID ma |}.

Record hMusicPlaylist := {
  hmp_Name : string;
  hmp_PlaylistArt : hslice;
  hmp_Tracks : hslice;
  hmp_IntegrationID : string
}.

Definition set_hmp_Tracks (mp : hMusicPlaylist) (v : hslice) : hMusicPlaylist :=
  {| hmp_Name := hmp_Name mp;
     hmp_PlaylistArt := hmp_PlaylistArt mp;
     hmp_Tracks := v;
     hmp_IntegrationID := hmp_IntegrationID mp |}.

Definition hwith_Album (track : hSpotifyTrack) (sa : hSpotifyAlbum) : hSpotifyTrack :=
  {| hst_Album := sa;
     hst_Name := hst_Name track;
     hst_PreviewURL := hst_PreviewURL track;
     hst_TrackURI := hst_TrackURI track;
     hst_IntegrationID := hst_IntegrationID track;
     hst_DurationMS := hst_DurationMS track;
     hst_ExternalURL := hst_ExternalURL track;
     hst_Artists := hst_Artists track |}.

(** *** The heap *)

(** Go arrays are typed, and a slice of one element type never points
    into an array of another; the heap keeps one store of arrays per
    element type.  An array is addressed by its position in its store. *)
Inductive ty : Type :=
| TArtist | TAlbumImage | TPlaylistImage | TTrack | TPlaylistTrack
| TMusicArtist | TMusicTrack | TMusicTrackS | TString.

Definition El (t : ty) : Type :=
  match t with
  | TArtist => SpotifyArtist
  | TAlbumImage => SpotifyAlbumImage
  | TPlaylistImage => SpotifyPlaylistImage
  | TTrack => hSpotifyTrack
  | TPlaylistTrack => hSpotifyPlaylistTrack
  | TMusicArtist => MusicArtist
  | TMusicTrack => hMusicTrack hslice
  | TMusicTrackS => hMusicTrack string
  | TString => string
  end.

Definition hzero_SpotifyAlbum : hSpotifyAlbum :=
  {| hsa_Name := ""; hsa_Images := hnil; hsa_URI := "";
     hsa_ExternalURL := zero_SpotifyExternalURL; hsa_IntegrationID := "";
     hsa_ReleaseDate := ""; hsa_Artists := hnil;
     hsa_TracksCollection := {| htr_Items := hnil |} |}.

Definition hzero_SpotifyTrack : hSpotifyTrack :=
  {| hst_Album := hzero_SpotifyAlbum; hst_Name := ""; hst_PreviewURL := "";
     hst_TrackURI := ""; hst_IntegrationID := ""; hst_DurationMS := 0;
     hst_ExternalURL := zero_SpotifyExternalURL; hst_Artists := hnil |}.

Definition hzero_MusicTrack {Ar} (a : Ar) : hMusicTrack Ar :=
  {| hmt_Name := ""; hmt_PreviewURL := ""; hmt_AlbumName := "";
     hmt_AlbumArt := hnil; hmt_AlbumReleaseDate := ""; hmt_IntegrationID := "";
     hmt_Source := ""; hmt_ExternalURL := ""; hmt_Artists := a |}.

(** The zero value of each element type: what the spare capacity of a
    new array holds. *)
Definition zero (t : ty) : El t :=
  match t with
  | TArtist => {| artist_Name := ""; artist_IntegrationID := "" |}
  | TAlbumImage => {| ai_Height := 0; ai_Width := 0; ai_URL := "" |}
  | TPlaylistImage => {| pi_Height := 0; pi_Width := 0; pi_URL := "" |}
  | TTrack => hzero_SpotifyTrack
  | TPlaylistTrack => {| hpt_Track := hzero_SpotifyTrack |}
  | TMusicArtist => {| martist_Name := ""; martist_IntegrationID := "" |}
  | TMusicTrack => hzero_MusicTrack hnil
  | TMusicTrackS => hzero_MusicTrack ""
  | TString => ""
  end.

Definition heap : Type := forall t : ty, list (list (El t)).

Definition ty_eq_dec (t t' : ty) : {t = t'} + {t <> t'}.
Proof. decide equality. Defined.

(** Replace the store of one element type. *)
Definition with_store (t : ty) (v : list (list (El t))) (h : heap) : heap :=
  fun t' =>
    match ty_eq_dec t t' with
    | left e => eq_rect t (fun t => list (list (El t))) v t' e
    | right _ => h t'
    end.

(** A computation reads and writes the heap. *)
Definition M (A : Type) : Type := heap -> A * heap.

Definition ret {A} (a : A) : M A := fun h => (a, h).

Definition bind {A B} (m : M A) (k : A -> M B) : M B :=
  fun h => let (a, h') := m h in k a h'.

Notation "x <- m ;; k" := (bind m (fun x => k))
  (at level 100, m at next level, right associativity).

(** [s[i]], where it exists. *)
Definition index (t : ty) (h : heap) (s : hslice) (i : nat) : option (El t) :=
  match s_base s with
  | None => None
  | Some l =>
      match h t !! l with
      | None => None
      | Some arr => arr !! (s_off s + i)
      end
  end.

(** The elements of a slice: [s[0]], ..., [s[len(s)-1]]. *)
Definition read (t : ty) (h : heap) (s : hslice) : list (El t) :=
  omap (index t h s) (seq 0 (s_len s)).

(** [for _, x := range s { acc = body(acc, x) }]: the header is
    evaluated once; each element is read from the heap when its turn
    comes, so the loop sees what its own body has written. *)
Fixpoint iterate {S} (t : ty) (s : hslice) (body : S -> El t -> M S)
    (idx : list nat) (acc : S) : M S :=
  match idx with
  | [] => ret acc
  | i :: idx =>
      fun h =>
        match index t h s i with
        | Some x => let (acc', h') := body acc x h in iterate t s body idx acc' h'
        | None => iterate t s body idx acc h
        end
  end.

Definition for_range {S} (t : ty) (s : hslice) (init : S) (body : S -> El t -> M S)
  : M S :=
  iterate t s body (seq 0 (s_len s)) init.

(** The composite literal [[]T{}]: a non-nil slice of length and
    capacity 0, over an array of its own with no element. *)
Definition empty_literal (t : ty) : M hslice :=
  fun h =>
    ({| s_base := Some (length (h t)); s_off := 0; s_len := 0; s_cap := 0 |},
     with_store t (h t ++ [[]]) h).

Section Append.
(** The capacity the runtime picks for the array [append] moves to,
    from the old capacity and the length needed; no property of it
    is used. *)
Variable growcap : nat -> nat -> nat.

(** [append(s, x)].  With capacity left, [x] is written behind the
    last element in the array of [s]; otherwise the elements and
    [x] go to a new array, zero-filled up to its capacity. *)
Definition append (t : ty) (s : hslice) (x : El t) : M hslice :=
  fun h =>
    let grown :=
      let c := growcap (s_cap s) (S (s_len s)) in
      ({| s_base := Some (length (h t)); s_off := 0;
          s_len := S (s_len s); s_cap := c |},
       with_store t
         (h t ++ [read t h s ++ x :: replicate (c - S (s_len s)) (zero t)]) h) in
    if (s_len s <? s_cap s)%nat then
      match s_base s with
      | Some l =>
          match h t !! l with
          | Some arr =>
              ({| s_base := Some l; s_off := s_off s;
                  s_len := S (s_len s); s_cap := s_cap s |},
               with_store t (<[l := <[s_off s + s_len s := x]> arr]> (h t)) h)
          | None => grown
          end
      | None => grown
      end
    else grown.

End Append.


(** *** Reading a header-level value back as a value *)

(** The slice value a header stands for: nil for a nil pointer,
    otherwise its elements, each read back by [f]. *)
Definition view_slice {B} (t : ty) (f : El t -> B) (h : heap) (s : hslice) : slice B :=
  match s_base s with
  | None => nil_slice
  | Some _ => make_slice (map f (read t h s))
  end.

(** Tracks and albums nest without bound through the heap; [depth]
    bounds how far nested track collections are followed (deeper ones
    read as nil). *)
Fixpoint view_album (depth : nat) (h : heap) (sa : hSpotifyAlbum) : SpotifyAlbum :=
  {| sa_Name := hsa_Name sa;
     sa_Images := view_slice TAlbumImage id h (hsa_Images sa);
     sa_URI := hsa_URI sa;
     sa_ExternalURL := hsa_ExternalURL sa;
     sa_IntegrationID := hsa_IntegrationID sa;
     sa_ReleaseDate := hsa_ReleaseDate sa;
     sa_Artists := view_slice TArtist id h (hsa_Artists sa);
     sa_TracksCollection :=
       {| tr_Items :=
            match depth with
            | 0 => nil_slice
            | S depth =>
                view_slice TTrack
                  (fun st : hSpotifyTrack =>
                     {| st_Album := view_album depth h (hst_Album st);
                        st_Name := hst_Name st;
                        st_PreviewURL := hst_PreviewURL st;
                        st_TrackURI := hst_TrackURI st;
                        st_IntegrationID := hst_IntegrationID st;
                        st_DurationMS := hst_DurationMS st;
                        st_ExternalURL := hst_ExternalURL st;
                        st_Artists := view_slice TArtist id h (hst_Artists st) |})
                  h (htr_Items (hsa_TracksCollection sa))
            end |} |}.

Definition view_track (depth : nat) (h : heap) (st : hSpotifyTrack) : SpotifyTrack :=
  {| st_Album := view_album depth h (hst_Album st);
     st_Name := hst_Name st;
     st_PreviewURL := hst_PreviewURL st;
     st_TrackURI := hst_TrackURI st;
     st_IntegrationID := hst_IntegrationID st;
     st_DurationMS := hst_DurationMS st;
     st_ExternalURL := hst_ExternalURL st;
     st_Artists := view_slice TArtist id h (hst_Artists st) |}.

Definition view_playlist (depth : nat) (h : heap) (sp : hSpotifyPlaylist)
  : SpotifyPlaylist :=
  {| sp_Name := hsp_Name sp;
     sp_Images := view_slice TPlaylistImage id h (hsp_Images sp);
     sp_URI := hsp_URI sp;
     sp_ExternalURL := hsp_ExternalURL sp;
     sp_IntegrationID := hsp_IntegrationID sp;
     sp_TracksCollection :=
       {| pts_Items :=
            view_slice TPlaylistTrack
              (fun w : hSpotifyPlaylistTrack =>
                 {| pt_Track := view_track depth h (hpt_Track w) |})
              h (hpts_Items (hsp_TracksCollection sp)) |} |}.

(** *** The translators of the list revision *)

Module ListRevision.

Section Translators.
Variable growcap : nat -> nat -> nat.

Definition ConvertToMusicTrack (st : hSpotifyTrack) : M (hMusicTrack hslice) :=
  let musicTrack :=
    {| hmt_Name := hst_Name st;
       hmt_PreviewURL := hst_PreviewURL st;
       hmt_AlbumName := hsa_Name (hst_Album st);
       hmt_AlbumArt := hsa_Images (hst_Album st);
       hmt_AlbumReleaseDate := hsa_ReleaseDate (hst_Album st);
       hmt_IntegrationID := hst_IntegrationID st;
       hmt_Source := "spotify";
       hmt_ExternalURL := eu_Spotify (hst_ExternalURL st);
       hmt_Artists := hnil |} in
  artists <- empty_literal TMusicArtist ;;
  let musicTrack := set_hmt_Artists musicTrack artists in
  for_range TArtist (hst_Artists st) musicTrack
    (fun musicTrack artist =>
       let musicArtist :=
         {| martist_Name := artist_Name artist;
            martist_IntegrationID := artist_IntegrationID artist |} in
       artists <- append growcap TMusicArtist (hmt_Artists musicTrack) musicArtist ;;
       ret (set_hmt_Artists musicTrack artists)).

Definition ConvertToMusicAlbum (sa : hSpotifyAlbum) : M hMusicAlbum :=
  let ma :=
    {| hma_Name := hsa_Name sa;
       hma_AlbumArt := hsa_Images sa;
       hma_ReleaseDate := hsa_ReleaseDate sa;
       hma_Artists := hnil;
       hma_Tracks := hnil;
       hma_IntegrationID := hsa_IntegrationID sa |} in
  artists <- empty_literal TMusicArtist ;;
  let ma := set_hma_Artists ma artists in
  ma <- for_range TArtist (hsa_Artists sa) ma
          (fun ma artist =>
             let musicArtist :=
               {| martist_Name := artist_Name artist;
                  martist_IntegrationID := artist_IntegrationID artist |} in
             artists <- append growcap TMusicArtist (hma_Artists ma) musicArtist ;;
             ret (set_hma_Artists ma artists)) ;;
  if (0 <? s_len (htr_Items (hsa_TracksCollection sa)))%nat then
    for_range TTrack (htr_Items (hsa_TracksCollection sa)) ma
      (fun ma track =>
         let track := hwith_Album track sa in
         mt <- ConvertToMusicTrack track ;;
         tracks <- append growcap TMusicTrack (hma_Tracks ma) mt ;;
         ret (set_hma_Tracks ma tracks))
  else ret ma.

Definition ConvertToMusicPlaylist (sp : hSpotifyPlaylist) : M hMusicPlaylist :=
  let playlist :=
    {| hmp_Name := hsp_Name sp;
       hmp_PlaylistArt := hsp_Images sp;
       hmp_Tracks := hnil;
       hmp_IntegrationID := hsp_IntegrationID sp |} in
  if (0 <? s_len (hpts_Items (hsp_TracksCollection sp)))%nat then
    for_range TPlaylistTrack (hpts_Items (hsp_TracksCollection sp)) playlist
      (fun playlist track =>
         mt <- ConvertToMusicTrack (hpt_Track track) ;;
         tracks <- append growcap TMusicTrack (hmp_Tracks playlist) mt ;;
         ret (set_hmp_Tracks playlist tracks))
  else ret playlist.

End Translators.

Definition view_MusicTrack (h : heap) (mt : hMusicTrack hslice) : ListVariant.MusicTrack :=
  {| ListVariant.mt_Name := hmt_Name mt;
     ListVariant.mt_PreviewURL := hmt_PreviewURL mt;
     ListVariant.mt_AlbumName := hmt_AlbumName mt;
     ListVariant.mt_AlbumArt := view_slice TAlbumImage id h (hmt_AlbumArt mt);
     ListVariant.mt_AlbumReleaseDate := hmt_AlbumReleaseDate mt;
     ListVariant.mt_IntegrationID := hmt_IntegrationID mt;
     ListVariant.mt_Source := hmt_Source mt;
     ListVariant.mt_ExternalURL := hmt_ExternalURL mt;
     ListVariant.mt_Artists := view_slice TMusicArtist id h (hmt_Artists mt) |}.

Definition view_MusicAlbum (h : heap) (ma : hMusicAlbum) : ListVariant.MusicAlbum :=
  {| ListVariant.ma_Name := hma_Name ma;
     ListVariant.ma_AlbumArt := view_slice TAlbumImage id h (hma_AlbumArt ma);
     ListVariant.ma_ReleaseDate := hma_ReleaseDate ma;
     ListVariant.ma_Artists := view_slice TMusicArtist id h (hma_Artists ma);
     ListVariant.ma_Tracks := view_slice TMusicTrack (view_MusicTrack h) h (hma_Tracks ma);
     ListVariant.ma_IntegrationID := hma_IntegrationID ma |}.

Definition view_MusicPlaylist (h : heap) (mp : hMusicPlaylist) : ListVariant.MusicPlaylist :=
  {| ListVariant.mp_Name := hmp_Name mp;
     ListVariant.mp_PlaylistArt := view_slice TPlaylistImage id h (hmp_PlaylistArt mp);
     ListVariant.mp_Tracks := view_slice TMusicTrack (view_MusicTrack h) h (hmp_Tracks mp);
     ListVariant.mp_IntegrationID := hmp_IntegrationID mp |}.

End ListRevision.

(** *** The translators of the string revision *)

Module StringRevision.

(** [strings.Join(elems, sep)] on the elements the header has in
    the heap. *)
Definition Join (elems : hslice) (sep : string) : M string :=
  fun h => (strings_Join (view_slice TString id h elems) sep, h).

Section Translators.
Variable growcap : nat -> nat -> nat.

Definition ConvertToMusicTrack (st : hSpotifyTrack) : M (hMusicTrack string) :=
  let musicTrack :=
    {| hmt_Name := hst_Name st;
       hmt_PreviewURL := hst_PreviewURL st;
       hmt_AlbumName := hsa_Name (hst_Album st);
       hmt_AlbumArt := hsa_Images (hst_Album st);
       hmt_AlbumReleaseDate := hsa_ReleaseDate (hst_Album st);
       hmt_IntegrationID := hst_IntegrationID st;
       hmt_Source := "spotify";
       hmt_ExternalURL := eu_Spotify (hst_ExternalURL st);
       hmt_Artists := "" |} in
  let artistNames := hnil in
  artistNames <- for_range TArtist (hst_Artists st) artistNames
                   (fun artistNames artist =>
                      append growcap TString artistNames (artist_Name artist)) ;;
  joined <- Join artistNames ", " ;;
  ret (set_hmt_Artists musicTrack joined).

Definition ConvertToMusicPlaylist (sp : hSpotifyPlaylist) : M hMusicPlaylist :=
  let playlist :=
    {| hmp_Name := hsp_Name sp;
       hmp_PlaylistArt := hsp_Images sp;
       hmp_Tracks := hnil;
       hmp_IntegrationID := hsp_IntegrationID sp |} in
  if (0 <? s_len (hpts_Items (hsp_TracksCollection sp)))%nat then
    for_range TPlaylistTrack (hpts_Items (hsp_TracksCollection sp)) playlist
      (fun playlist track =>
         mt <- ConvertToMusicTrack (hpt_Track track) ;;
         tracks <- append growcap TMusicTrackS (hmp_Tracks playlist) mt ;;
         ret (set_hmp_Tracks playlist tracks))
  else ret playlist.

End Translators.

Definition view_MusicTrack (h : heap) (mt : hMusicTrack string)
  : StringVariant.MusicTrack :=
  {| StringVariant.mt_Name := hmt_Name mt;
     StringVariant.mt_PreviewURL := hmt_PreviewURL mt;
     StringVariant.mt_AlbumName := hmt_AlbumName mt;
     StringVariant.mt_AlbumArt := view_slice TAlbumImage id h (hmt_AlbumArt mt);
     StringVariant.mt_AlbumReleaseDate := hmt_AlbumReleaseDate mt;
     StringVariant.mt_IntegrationID := hmt_IntegrationID mt;
     StringVariant.mt_Source := hmt_Source mt;
     StringVariant.mt_ExternalURL := hmt_ExternalURL mt;
     StringVariant.mt_Artists := hmt_Artists mt |}.

Definition view_MusicPlaylist (h : heap) (mp : hMusicPlaylist)
  : StringVariant.MusicPlaylist :=
  {| StringVariant.mp_Name := hmp_Name mp;
     StringVariant.mp_PlaylistArt :=
       view_slice TPlaylistImage id h (hmp_PlaylistArt mp);
     StringVariant.mp_Tracks :=
       view_slice TMusicTrackS (view_MusicTrack h) h (hmp_Tracks mp);
     StringVariant.mp_IntegrationID := hmp_IntegrationID mp |}.

End StringRevision.

(** Every array that [h] holds is in [h'] at the same place with the
    same contents: going from [h] to [h'] only added arrays. *)
Definition extends (h h' : heap) : Prop :=
  forall t, h t `prefix_of` h' t.

(** The element types of the provider's payload; the others are those
    of the output and of the translators' locals. *)
Definition provider_ty (t : ty) : bool :=
  match t with
  | TArtist | TAlbumImage | TPlaylistImage | TTrack | TPlaylistTrack => true
  | TMusicArtist | TMusicTrack | TMusicTrackS | TString => false
  end.

(** The arrays of the provider's payload are the same in [h'] as in
    [h]: none added, none changed. *)
Definition same_provider_data (h h' : heap) : Prop :=
  forall t, provider_ty t = true -> h' t = h t.

(** The pointer of [s] is nil or into an array of [h]. *)
Definition valid (t : ty) (h : heap) (s : hslice) : Prop :=
  forall l, s_base s = Some l -> l < length (h t).

(** [s] holds [xs] in [h] and has been built since [h0]: it is nil
    with no capacity, or lies at the start of an array that [h0] did
    not have and that reaches up to its capacity. *)
Definition owned (t : ty) (h0 h : heap) (s : hslice) (xs : list (El t)) : Prop :=
  read t h s = xs
  /\ s_len s = length xs
  /\ h0 t `prefix_of` h t
  /\ match s_base s with
     | None => s_cap s = 0
     | Some l =>
         length (h0 t) <= l
         /\ exists arr, h t !! l = Some arr /\ s_off s + s_cap s <= length arr
     end.

(** *** What purity means for a translator *)

(** [run] computes [f]: read back, its result is [f] of its argument
    read back, whatever the heap around the argument. *)
Definition translates {X Y VX VY : Type} (run : X -> M Y)
    (viewX : heap -> X -> VX) (viewY : heap -> Y -> VY) (f : VX -> VY) : Prop :=
  forall x h, viewY (snd (run x h)) (fst (run x h)) = f (viewX h x).

(** [run] writes to no array that exists when it is called, and
    neither adds to nor changes the provider's payload. *)
Definition leaves_memory_intact {X Y : Type} (run : X -> M Y) : Prop :=
  forall x h, extends h (snd (run x h)) /\ same_provider_data h (snd (run x h)).

(** Two calls, possibly in different heaps and under different growth
    policies, on arguments that read back equal give results that read
    back equal. *)
Definition agree_on_equal_inputs {X Y VX VY : Type} (run run' : X -> M Y)
    (viewX : heap -> X -> VX) (viewY : heap -> Y -> VY) : Prop :=
  forall x x' h h',
    viewX h x = viewX h' x' ->
    viewY (snd (run x h)) (fst (run x h))
    = viewY (snd (run' x' h')) (fst (run' x' h')).

End Mem.

(** ** Sample payloads *)

(** The playlist of the end-to-end scenario, as [json.Unmarshal] leaves
    it: members that are present are filled ([[]] gives an empty,
    non-nil slice), all others keep their zero value. *)
Definition songA : SpotifyTrack :=
  {| st_Album :=
       {| sa_Name := "Al1"; sa_Images := make_slice []; sa_URI := "";
          sa_ExternalURL := zero_SpotifyExternalURL; sa_IntegrationID := "";
          sa_ReleaseDate := "2020-01-01"; sa_Artists := nil_slice;
          sa_TracksCollection := {| tr_Items := nil_slice |} |};
     st_Name := "Song A"; st_PreviewURL := ""; st_TrackURI := "";
     st_IntegrationID := "t1"; st_DurationMS := 0;
     st_ExternalURL := {| eu_Spotify := "url1" |};
     st_Artists :=
       make_slice [ {| artist_Name := "Artist X"; artist_IntegrationID := "" |} ] |}.

Definition roadTrip : SpotifyPlaylist :=
  {| sp_Name := "Road Trip"; sp_Images := make_slice []; sp_URI := "";
     sp_ExternalURL := zero_SpotifyExternalURL; sp_IntegrationID := "abc123";
     sp_TracksCollection := {| pts_Items := make_slice [ {| pt_Track := songA |} ] |} |}.

(** The output the scenario writes down, read as a Go composite literal:
    a field it does not name has its zero value. *)
Definition roadTrip_as_written : StringVariant.MusicPlaylist :=
  {| StringVariant.mp_Name := "Road Trip";
     StringVariant.mp_PlaylistArt := nil_slice;
     StringVariant.mp_Tracks :=
       make_slice
         [ {| StringVariant.mt_Name := "Song A";
              StringVariant.mt_PreviewURL := "";
              StringVariant.mt_AlbumName := "Al1";
              StringVariant.mt_AlbumArt := nil_slice;
              StringVariant.mt_AlbumReleaseDate := "2020-01-01";
              StringVariant.mt_IntegrationID := "";
              StringVariant.mt_Source := "spotify";
              StringVariant.mt_ExternalURL := "url1";
              StringVariant.mt_Artists := "Artist X" |} ];
     StringVariant.mp_IntegrationID := "abc123" |}.

(** The same output with the track's provider id and the two empty
    image lists of the input. *)
Definition roadTrip_output : StringVariant.MusicPlaylist :=
  {| StringVariant.mp_Name := "Road Trip";
     StringVariant.mp_PlaylistArt := make_slice [];
     StringVariant.mp_Tracks :=
       make_slice
         [ {| StringVariant.mt_Name := "Song A";
              StringVariant.mt_PreviewURL := "";
              StringVariant.mt_AlbumName := "Al1";
              StringVariant.mt_AlbumArt := make_slice [];
              StringVariant.mt_AlbumReleaseDate := "2020-01-01";
              StringVariant.mt_IntegrationID := "t1";
              StringVariant.mt_Source := "spotify";
              StringVariant.mt_ExternalURL := "url1";
              StringVariant.mt_Artists := "Artist X" |} ];
     StringVariant.mp_IntegrationID := "abc123" |}.

(** A playlist whose payload had ["items": []]. *)
Definition emptyPlaylist : SpotifyPlaylist :=
  {| sp_Name := "Empty"; sp_Images := nil_slice; sp_URI := "";
     sp_ExternalURL := zero_SpotifyExternalURL; sp_IntegrationID := "e0";
     sp_TracksCollection := {| pts_Items := make_slice [] |} |}.

(** A track on a compilation: its own artist is not the album's. *)
Definition compilationTrack : SpotifyTrack :=
  {| st_Album :=
       {| sa_Name := "Hits"; sa_Images := nil_slice; sa_URI := "";
          sa_ExternalURL := zero_SpotifyExternalURL; sa_IntegrationID := "al9";
          sa_ReleaseDate := "1999"; 
          sa_Artists :=
            make_slice
              [ {| artist_Name := "Various Artists"; artist_IntegrationID := "va" |} ];
          sa_TracksCollection := {| tr_Items := nil_slice |} |};
     st_Name := "Song B"; st_PreviewURL := ""; st_TrackURI := "";
     st_IntegrationID := "t2"; st_DurationMS := 0;
     st_ExternalURL := zero_SpotifyExternalURL;
     st_Artists :=
       make_slice [ {| artist_Name := "Artist Y"; artist_IntegrationID := "ay" |} ] |}.

Definition compilationSearch : SpotifyTrackSearchResult :=
  {| sr_ResultCollection := {| tr_Items := make_slice [compilationTrack] |};
     sr_AlbumCollection := {| ar_Items := nil_slice |};
     sr_PlaylistCollection := {| pr_Items := nil_slice |} |}.

(** A world for examples: every request gets the same reply, the token
    decoder knows two bodies, the configuration holds both keys. *)
Definition dquote : string := String (Ascii.ascii_of_nat 34) EmptyString.

(** The body [{"access_token":""}]. *)
Definition body_empty_token : string :=
  "{" +:+ dquote +:+ "access_token" +:+ dquote +:+ ":" +:+ dquote +:+ dquote +:+ "}".

(** The body [{"access_token":"BQD1"}]. *)
Definition body_token : string :=
  "{" +:+ dquote +:+ "access_token" +:+ dquote +:+ ":"
      +:+ dquote +:+ "BQD1" +:+ dquote +:+ "}".

Definition sampleWorld (reply : Response + error) : World :=
  {| http_NewRequest_err := fun _ _ => None;
     http_Do := fun _ => reply;
     json_Unmarshal_token := fun body =>
       if String.eqb body body_token then {| AccessToken := "BQD1" |}
       else {| AccessToken := "" |};
     json_Unmarshal_playlist := fun _ => (roadTrip, None);
     ioutil_ReadFile := fun _ => ("[spotify]", None);
     toml_Load := fun _ =>
       (fun key =>
          if String.eqb key "spotify.client_id" then Some "id0"
          else if String.eqb key "spotify.client_secret" then Some "secret0"
          else None,
        None);
     flag_playlist := "3rpdjX0UZGjjmk3A86FrU3" |}.

Definition world_empty_token : World :=
  sampleWorld (inl {| StatusCode := 200; Body := body_empty_token |}).

Definition world_no_member : World :=
  sampleWorld (inl {| StatusCode := 200; Body := "{}" |}).

Definition world_unauthorized : World :=
  sampleWorld (inl {| StatusCode := 401; Body := "" |}).

Definition world_unreachable : World :=
  sampleWorld (inr (errors_New "dial tcp: connection refused")).

Definition world_ok : World :=
  sampleWorld (inl {| StatusCode := 200; Body := body_token |}).

(** Two heaps holding the same playlist at different places: in
    [heapA] the artist arrays are exactly as long as their slices, in
    [heapB] they sit at other positions, inside longer arrays. *)
Definition artistX : SpotifyArtist :=
  {| artist_Name := "Artist X"; artist_IntegrationID := "ax" |}.
Definition artistY : SpotifyArtist :=
  {| artist_Name := "Artist Y"; artist_IntegrationID := "ay" |}.
Definition artistZ : SpotifyArtist :=
  {| artist_Name := "Artist Z"; artist_IntegrationID := "az" |}.

Definition hslice_at (base off n cap : nat) : Mem.hslice :=
  {| Mem.s_base := Some base; Mem.s_off := off; Mem.s_len := n; Mem.s_cap := cap |}.

Definition htrack (name : string) (artists : Mem.hslice) : Mem.hSpotifyTrack :=
  {| Mem.hst_Album := Mem.hzero_SpotifyAlbum; Mem.hst_Name := name;
     Mem.hst_PreviewURL := ""; Mem.hst_TrackURI := ""; Mem.hst_IntegrationID := name;
     Mem.hst_DurationMS := 0; Mem.hst_ExternalURL := zero_SpotifyExternalURL;
     Mem.hst_Artists := artists |}.

Definition emptyHeap : Mem.heap := fun _ => [].

Definition heapA : Mem.heap :=
  Mem.with_store Mem.TArtist [[artistX; artistY; artistZ]; [artistY]]
    (Mem.with_store Mem.TPlaylistTrack
       [[ {| Mem.hpt_Track := htrack "s1" (hslice_at 0 0 3 3) |};
          {| Mem.hpt_Track := htrack "s2" (hslice_at 1 0 1 1) |};
          {| Mem.hpt_Track := htrack "s3" Mem.hnil |} ]]
       emptyHeap).

Definition heapB : Mem.heap :=
  Mem.with_store Mem.TArtist [[artistZ; artistY; artistZ]; [artistZ; artistX; artistY; artistZ; artistX]]
    (Mem.with_store Mem.TPlaylistTrack
       [[]; [ {| Mem.hpt_Track := Mem.hzero_SpotifyTrack |};
              {| Mem.hpt_Track := htrack "s1" (hslice_at 1 1 3 4) |};
              {| Mem.hpt_Track := htrack "s2" (hslice_at 0 1 1 2) |};
              {| Mem.hpt_Track := htrack "s3" Mem.hnil |} ]]
       emptyHeap).

Definition hplaylist (items : Mem.hslice) : Mem.hSpotifyPlaylist :=
  {| Mem.hsp_Name := "P"; Mem.hsp_Images := Mem.hnil; Mem.hsp_URI := "";
     Mem.hsp_ExternalURL := zero_SpotifyExternalURL; Mem.hsp_IntegrationID := "p";
     Mem.hsp_TracksCollection := {| Mem.hpts_Items := items |} |}.

Definition playlistA : Mem.hSpotifyPlaylist := hplaylist (hslice_at 0 0 3 3).
Definition playlistB : Mem.hSpotifyPlaylist := hplaylist (hslice_at 1 1 3 3).

(** Two growth policies: doubling, and exactly what is needed. *)
Definition grow_double (cap needed : nat) : nat := Nat.max needed (2 * cap).
Definition grow_exact (cap needed : nat) : nat := needed.

(** ** Further samples *)

(** A track whose album carries two cover images. *)
Definition coverLarge : SpotifyAlbumImage :=
  {| ai_Height := 640; ai_Width := 640; ai_URL := "https://i.scdn.co/image/large" |}.
Definition coverSmall : SpotifyAlbumImage :=
  {| ai_Height := 64; ai_Width := 64; ai_URL := "https://i.scdn.co/image/small" |}.

Definition albumWithCovers : SpotifyAlbum :=
  {| sa_Name := "Al1"; sa_Images := make_slice [coverLarge; coverSmall];
     sa_URI := ""; sa_ExternalURL := zero_SpotifyExternalURL;
     sa_IntegrationID := "al1"; sa_ReleaseDate := "2020-01-01";
     sa_Artists := make_slice [ {| artist_Name := "Artist X"; artist_IntegrationID := "ax" |} ];
     sa_TracksCollection := {| tr_Items := nil_slice |} |}.

Definition songWithCovers : SpotifyTrack :=
  {| st_Album := albumWithCovers;
     st_Name := "Song A"; st_PreviewURL := ""; st_TrackURI := "";
     st_IntegrationID := "t1"; st_DurationMS := 0;
     st_ExternalURL := {| eu_Spotify := "url1" |};
     st_Artists :=
       make_slice [ {| artist_Name := "Artist X"; artist_IntegrationID := "ax" |};
                    {| artist_Name := "Artist Y"; artist_IntegrationID := "ay" |} ] |}.

(** The same track as another request may deliver it: the fields that
    the translators do not read differ. *)
Definition songWithCovers_again : SpotifyTrack :=
  {| st_Album :=
       {| sa_Name := "Al1"; sa_Images := make_slice [coverLarge; coverSmall];
          sa_URI := "spotify:album:al1";
          sa_ExternalURL := {| eu_Spotify := "https://open.spotify.com/album/al1" |};
          sa_IntegrationID := "al1"; sa_ReleaseDate := "2020-01-01";
          sa_Artists := nil_slice;
          sa_TracksCollection := {| tr_Items := make_slice [] |} |};
     st_Name := "Song A"; st_PreviewURL := ""; st_TrackURI := "spotify:track:t1";
     st_IntegrationID := "t1"; st_DurationMS := 215000;
     st_ExternalURL := {| eu_Spotify := "url1" |};
     st_Artists :=
       make_slice [ {| artist_Name := "Artist X"; artist_IntegrationID := "ax" |};
                    {| artist_Name := "Artist Y"; artist_IntegrationID := "ay" |} ] |}.

(** A world whose token endpoint answers and whose resource endpoint
    does not know the resource. *)
Definition world_not_found : World :=
  {| http_NewRequest_err := fun _ _ => None;
     http_Do := fun req =>
       if String.eqb (req_Method req) "POST"
       then inl {| StatusCode := 200; Body := body_token |}
       else inl {| StatusCode := 404; Body := "" |};
     json_Unmarshal_token := json_Unmarshal_token world_ok;
     json_Unmarshal_playlist := json_Unmarshal_playlist world_ok;
     ioutil_ReadFile := ioutil_ReadFile world_ok;
     toml_Load := toml_Load world_ok;
     flag_playlist := flag_playlist world_ok |}.

(** A world whose playlist reply does not decode beyond the name. *)
Definition world_bad_json : World :=
  {| http_NewRequest_err := fun _ _ => None;
     http_Do := http_Do world_ok;
     json_Unmarshal_token := json_Unmarshal_token world_ok;
     json_Unmarshal_playlist := fun _ =>
       ({| sp_Name := "Road Trip"; sp_Images := nil_slice; sp_URI := "";
           sp_ExternalURL := zero_SpotifyExternalURL; sp_IntegrationID := "";
           sp_TracksCollection := {| pts_Items := nil_slice |} |},
        Some (errors_New "json: cannot unmarshal string into Go struct field"));
     ioutil_ReadFile := ioutil_ReadFile world_ok;
     toml_Load := toml_Load world_ok;
     flag_playlist := flag_playlist world_ok |}.


(** A client that holds a token, and one that does not. *)
Definition clientWithToken : Spotify :=
  {| Token := "BQD1"; ClientID := "id0"; ClientSecret := "secret0" |}.
Definition clientWithoutToken : Spotify :=
  {| Token := ""; ClientID := "id0"; ClientSecret := "secret0" |}.

(** ** Closed forms used in the statements *)

(** What a loop [for _, x := range l { s = append(s, f x) }] leaves in a
    slice [s] that was nil before it: still nil when [l] has no element,
    otherwise the images of the elements in order. *)
Definition collected {A B} (f : A -> B) (l : list A) : slice B :=
  match l with
  | [] => nil_slice
  | _ :: _ => make_slice (map f l)
  end.

(** The [MusicTrack] that the first loop of
    [NewMusicSearchResultFromSpotify] builds for one search hit: the
    scalar fields as in [ConvertToMusicTrack], the artists taken from the
    embedded album and left nil when the album lists none. *)
Definition searchTrack (track : SpotifyTrack) : ListVariant.MusicTrack :=
  {| ListVariant.mt_Name := st_Name track;
     ListVariant.mt_PreviewURL := st_PreviewURL track;
     ListVariant.mt_AlbumName := sa_Name (st_Album track);
     ListVariant.mt_AlbumArt := sa_Images (st_Album track);
     ListVariant.mt_AlbumReleaseDate := sa_ReleaseDate (st_Album track);
     ListVariant.mt_IntegrationID := st_IntegrationID track;
     ListVariant.mt_Source := "spotify";
     ListVariant.mt_ExternalURL := eu_Spotify (st_ExternalURL track);
     ListVariant.mt_Artists :=
       collected toMusicArtist (elems (sa_Artists (st_Album track))) |}.

(** The request [refreshSpotifyToken] hands to [client.Do] for a client
    with the given credentials. *)
Definition tokenRequest (clientID clientSecret : string) : Request :=
  {| req_Method := "POST";
     req_URL := "https://accounts.spotify.com/api/token";
     req_Body := "grant_type=client_credentials";
     req_BasicAuth := Some (clientID, clientSecret);
     req_Header := [("Content-Type", "application/x-www-form-urlencoded")] |}.

(** The token endpoint answers the client's request with a transport
    error or with a status other than 200. *)
Definition token_endpoint_fails (W : World) (clientID clientSecret : string) : Prop :=
  match http_Do W (tokenRequest clientID clientSecret) with
  | inr _ => True
  | inl resp => StatusCode resp <> 200%Z
  end.

(** The requests of a trace that are not the token request: the
    resource fetches. *)
Definition is_fetch (e : event) : bool :=
  match e with
  | Sent _ req => negb (String.eqb (req_Method req) "POST")
  | _ => false
  end.

Definition fetches (tr : list event) : list event := filter is_fetch tr.

(** ** Closed forms and predicates for the further properties *)

(** The provider artist a [MusicArtist] stands for. *)
Definition fromMusicArtist (a : MusicArtist) : SpotifyArtist :=
  {| artist_Name := martist_Name a;
     artist_IntegrationID := martist_IntegrationID a |}.

(** A slice with [f] applied to each element; nil stays nil. *)
Definition map_slice {A B} (f : A -> B) (s : slice A) : slice B :=
  match s with
  | nil_slice => nil_slice
  | make_slice l => make_slice (map f l)
  end.

(** A list-revision track with its artist records replaced by their
    names joined with [", "]: a string-revision track. *)
Definition joinArtists (mt : ListVariant.MusicTrack) : StringVariant.MusicTrack :=
  {| StringVariant.mt_Name := ListVariant.mt_Name mt;
     StringVariant.mt_PreviewURL := ListVariant.mt_PreviewURL mt;
     StringVariant.mt_AlbumName := ListVariant.mt_AlbumName mt;
     StringVariant.mt_AlbumArt := ListVariant.mt_AlbumArt mt;
     StringVariant.mt_AlbumReleaseDate := ListVariant.mt_AlbumReleaseDate mt;
     StringVariant.mt_IntegrationID := ListVariant.mt_IntegrationID mt;
     StringVariant.mt_Source := ListVariant.mt_Source mt;
     StringVariant.mt_ExternalURL := ListVariant.mt_ExternalURL mt;
     StringVariant.mt_Artists :=
       strings_Join (map_slice martist_Name (ListVariant.mt_Artists mt)) ", " |}.

Definition joinArtists_playlist (mp : ListVariant.MusicPlaylist)
  : StringVariant.MusicPlaylist :=
  {| StringVariant.mp_Name := ListVariant.mp_Name mp;
     StringVariant.mp_PlaylistArt := ListVariant.mp_PlaylistArt mp;
     StringVariant.mp_Tracks := map_slice joinArtists (ListVariant.mp_Tracks mp);
     StringVariant.mp_IntegrationID := ListVariant.mp_IntegrationID mp |}.

(** A track with another artist slice. *)
Definition with_Artists (st : SpotifyTrack) (artists : slice SpotifyArtist)
  : SpotifyTrack :=
  {| st_Album := st_Album st;
     st_Name := st_Name st;
     st_PreviewURL := st_PreviewURL st;
     st_TrackURI := st_TrackURI st;
     st_IntegrationID := st_IntegrationID st;
     st_DurationMS := st_DurationMS st;
     st_ExternalURL := st_ExternalURL st;
     st_Artists := artists |}.

(** An ASCII byte that is not white space. *)
Definition graphic (c : Ascii.ascii) : bool :=
  (Ascii.nat_of_ascii c <? RuneSelf)%nat && negb (asciiSpace c).

(** The string is not empty and both its first and its last byte are
    ASCII and not white space. *)
Definition edge_graphic (s : string) : bool :=
  match head (list_ascii_of_string s), last (list_ascii_of_string s) with
  | Some a, Some b => graphic a && graphic b
  | _, _ => false
  end.

(** The entries that the second and third loop of
    [NewMusicSearchResultFromSpotify] build. *)
Definition searchAlbum (album : SpotifyAlbum) : ListVariant.MusicAlbum :=
  {| ListVariant.ma_Name := sa_Name album;
     ListVariant.ma_AlbumArt := sa_Images album;
     ListVariant.ma_ReleaseDate := sa_ReleaseDate album;
     ListVariant.ma_Artists := collected toMusicArtist (elems (sa_Artists album));
     ListVariant.ma_Tracks := nil_slice;
     ListVariant.ma_IntegrationID := sa_IntegrationID album |}.

Definition searchPlaylist (playlist : SpotifyPlaylist) : ListVariant.MusicPlaylist :=
  {| ListVariant.mp_Name := sp_Name playlist;
     ListVariant.mp_PlaylistArt := sp_Images playlist;
     ListVariant.mp_Tracks := nil_slice;
     ListVariant.mp_IntegrationID := sp_IntegrationID playlist |}.

(** The request a fetcher hands to [client.Do]. *)
Definition getRequest (url token : string) : Request :=
  {| req_Method := "GET";
     req_URL := url;
     req_Body := "";
     req_BasicAuth := None;
     req_Header := [("Authorization", "Bearer " +:+ token)] |}.

(** The requests of a trace, with their timeouts, and its printed
    documents. *)
Definition sent (tr : list event) : list (option Z * Request) :=
  omap (fun e => match e with Sent timeout req => Some (timeout, req) | _ => None end) tr.

Definition printed (tr : list event) : list StringVariant.MusicPlaylist :=
  omap (fun e => match e with Printed mp => Some mp | _ => None end) tr.

(** What a call may do to the client it is given: nothing, or store a
    token where there was none. *)
Definition client_step (o o' : Spotify) : Prop :=
  o' = o
  \/ (Token o = "" /\ Token o' <> ""
      /\ ClientID o' = ClientID o /\ ClientSecret o' = ClientSecret o).

(** The three fetchers, case by case: they differ in the URL, in the
    message of their HTTP failures, in the zero value and in the
    decoder. *)
Definition fetch_result {A} (W : World) (url failmsg : string) (zero : A)
    (decode : string -> A * option error) (o : Spotify) (tr : list event)
  : outcome ((A * option error) * Spotify) * list event :=
  match http_NewRequest_err W "GET" url with
  | Some err => (Returned ((zero, Some err), o), tr ++ [Logged "net/http error"])
  | None =>
      match getToken W o tr with
      | (Panicked v, tr1) => (Panicked v, tr1)
      | (Returned ((_, Some err), o1), tr1) =>
          (Returned ((zero, Some err), o1), tr1 ++ [Logged "error getting token"])
      | (Returned ((token, None), o1), tr1) =>
          let tr2 := tr1 ++ [Sent (Some 15%Z) (getRequest url token)] in
          match http_Do W (getRequest url token) with
          | inr _ =>
              (Returned ((zero, Some (errors_New failmsg)), o1),
               tr2 ++ [Logged "Error making call to spotify error:"])
          | inl resp =>
              if (StatusCode resp =? 200)%Z then
                match decode (Body resp) with
                | (a, Some err) =>
                    (Returned ((a, Some err), o1),
                     tr2 ++ [Logged "Invalid JSON response from Spotify"])
                | (a, None) => (Returned ((a, None), o1), tr2)
                end
              else
                (Returned ((zero, Some (errors_New failmsg)), o1),
                 tr2 ++ [Logged "Error making call to spotify"])
          end
      end
  end.

(** The resource endpoint answers the request with a transport error or
    with a status other than 200. *)
Definition resource_endpoint_fails (W : World) (url token : string) : Prop :=
  match http_Do W (getRequest url token) with
  | inr _ => True
  | inl resp => StatusCode resp <> 200%Z
  end.

(** The fetchers of the client, each with its URL, the message of its
    HTTP failures, its zero value and its decoder: [TrackFromID] and
    [AlbumFromID], [PlaylistFromID] of the revision [main] is built
    against and [PlaylistFromID] of the other revision. *)
Inductive fetcher (W : World) (o : Spotify) (ID : string) :
  forall A : Type,
    string -> string -> A -> (string -> A * option error) ->
    Prog ((A * option error) * Spotify) -> Prop :=
| fetcher_TrackFromID (decode : string -> SpotifyTrack * option error) :
    fetcher W o ID SpotifyTrack
      ("https://api.spotify.com/v1/tracks/" +:+ ID)
      ("error making call to spotify to get track information : " +:+ ID)
      zero_SpotifyTrack decode (TrackFromID W decode o ID)
| fetcher_AlbumFromID (decode : string -> SpotifyAlbum * option error) :
    fetcher W o ID SpotifyAlbum
      ("https://api.spotify.com/v1/albums/" +:+ ID)
      "error making call to spotify to get album information"
      zero_SpotifyAlbum decode (AlbumFromID W decode o ID)
| fetcher_PlaylistFromID :
    fetcher W o ID SpotifyPlaylist
      ("https://api.spotify.com/v1/playlists/" +:+ ID)
      "error making call to spotify to get playlist information"
      zero_SpotifyPlaylist (json_Unmarshal_playlist W) (PlaylistFromID W o ID)
| fetcher_ListRevision_PlaylistFromID :
    fetcher W o ID SpotifyPlaylist
      ("https://api.spotify.com/v1/playlists/" +:+ ID)
      "error making call to spotify to get album information"
      zero_SpotifyPlaylist (json_Unmarshal_playlist W)
      (ListRevisionClient.PlaylistFromID W o ID).

(** The credentials [main] reads from [config.toml], if the file is
    there, parses, and holds both keys as strings. *)
Definition credentials (W : World) : option (string * string) :=
  match ioutil_ReadFile W "config.toml" with
  | (_, Some _) => None
  | (tomlData, None) =>
      match toml_Load W tomlData with
      | (_, Some _) => None
      | (config, None) =>
          match config "spotify.client_id", config "spotify.client_secret" with
          | Some clientID, Some clientSecret => Some (clientID, clientSecret)
          | _, _ => None
          end
      end
  end.

(** The two requests of a run of [main]. *)
Definition playlistRequest (W : World) (token : string) : Request :=
  getRequest ("https://api.spotify.com/v1/playlists/" +:+ flag_playlist W) token.
(** * Properties of the translators, by value *)

(** ** Loops that append to a slice *)

Lemma fold_append {A B} (f : A -> B) (l : list A) (acc : slice B) :
  fold_left (fun acc x => append acc (f x)) l acc =
  match l with
  | [] => acc
  | _ :: _ => make_slice (elems acc ++ map f l)
  end.
Proof.
  revert acc; induction l as [|x l IH]; intros acc; [reflexivity|].
  cbn [fold_left]. rewrite IH. destruct l as [|y l].
  - reflexivity.
  - cbn [append elems]. now rewrite <- app_assoc.
Qed.

Lemma fold_left_ext {A S} (f g : S -> A -> S) (l : list A) (a : S) :
  (forall a x, f a x = g a x) -> fold_left f l a = fold_left g l a.
Proof.
  intros Hfg. revert a; induction l as [|x l IH]; intros a; [reflexivity|].
  cbn [fold_left]. now rewrite Hfg, IH.
Qed.

(** The same loop when the slice is a field of the struct the loop
    updates: [r.F = append(r.F, f x)]. *)
Section FieldLoop.
Context {R A B : Type} (get : R -> slice B) (set : R -> slice B -> R).
Hypothesis get_set : forall r v, get (set r v) = v.
Hypothesis set_set : forall r v w, set (set r v) w = set r w.

Lemma fold_field_append (f : A -> B) (l : list A) (r : R) :
  fold_left (fun r x => set r (append (get r) (f x))) l r =
  match l with
  | [] => r
  | _ :: _ => set r (make_slice (elems (get r) ++ map f l))
  end.
Proof.
  revert r; induction l as [|x l IH]; intros r; [reflexivity|].
  cbn [fold_left]. rewrite IH. destruct l as [|y l].
  - reflexivity.
  - rewrite get_set, set_set. cbn [append elems map].
    now rewrite <- app_assoc.
Qed.
End FieldLoop.

Lemma string_app_assoc (a b c : string) : (a +:+ b) +:+ c = a +:+ (b +:+ c).
Proof.
  induction a as [|ch a IH]; [reflexivity|].
  change (String ch ((a +:+ b) +:+ c) = String ch (a +:+ (b +:+ c))).
  now f_equal.
Qed.

Lemma concat_head_app (sep a b : string) (r : list string) :
  String.concat sep ((a +:+ b) :: r) = a +:+ String.concat sep (b :: r).
Proof.
  destruct r as [|z r]; [reflexivity|].
  cbn [String.concat]. apply string_app_assoc.
Qed.

(** The builder loop of [strings.Join] computes the separated
    concatenation. *)
Lemma Join_loop (sep x : string) (rest : list string) :
  fold_left (fun b s => b +:+ sep +:+ s) rest x = String.concat sep (x :: rest).
Proof.
  revert x; induction rest as [|y rest IH]; intros x; [reflexivity|].
  cbn [fold_left]. rewrite IH.
  rewrite concat_head_app, concat_head_app. reflexivity.
Qed.

Lemma strings_Join_concat (s : slice string) (sep : string) :
  strings_Join s sep = String.concat sep (elems s).
Proof.
  destruct s as [|[|x [|y rest]]]; try reflexivity.
  unfold strings_Join. now rewrite Join_loop.
Qed.

(** ** What each translator returns *)

Lemma SV_ConvertToMusicTrack_eq (st : SpotifyTrack) :
  StringVariant.ConvertToMusicTrack st =
  {| StringVariant.mt_Name := st_Name st;
     StringVariant.mt_PreviewURL := st_PreviewURL st;
     StringVariant.mt_AlbumName := sa_Name (st_Album st);
     StringVariant.mt_AlbumArt := sa_Images (st_Album st);
     StringVariant.mt_AlbumReleaseDate := sa_ReleaseDate (st_Album st);
     StringVariant.mt_IntegrationID := st_IntegrationID st;
     StringVariant.mt_Source := "spotify";
     StringVariant.mt_ExternalURL := eu_Spotify (st_ExternalURL st);
     StringVariant.mt_Artists :=
       String.concat ", " (map artist_Name (elems (st_Artists st))) |}.
Proof.
  unfold StringVariant.ConvertToMusicTrack, StringVariant.set_mt_Artists, for_range.
  cbn [StringVariant.mt_Name StringVariant.mt_PreviewURL StringVariant.mt_AlbumName
       StringVariant.mt_AlbumArt StringVariant.mt_AlbumReleaseDate
       StringVariant.mt_IntegrationID StringVariant.mt_Source
       StringVariant.mt_ExternalURL].
  f_equal. rewrite strings_Join_concat, fold_append.
  destruct (elems (st_Artists st)); reflexivity.
Qed.

Lemma SV_ConvertToMusicPlaylist_eq (sp : SpotifyPlaylist) :
  StringVariant.ConvertToMusicPlaylist sp =
  {| StringVariant.mp_Name := sp_Name sp;
     StringVariant.mp_PlaylistArt := sp_Images sp;
     StringVariant.mp_Tracks :=
       collected (fun w => StringVariant.ConvertToMusicTrack (pt_Track w))
         (elems (pts_Items (sp_TracksCollection sp)));
     StringVariant.mp_IntegrationID := sp_IntegrationID sp |}.
Proof.
  unfold StringVariant.ConvertToMusicPlaylist, for_range, len.
  rewrite (fold_field_append StringVariant.mp_Tracks StringVariant.set_mp_Tracks)
    by reflexivity.
  destruct (elems (pts_Items (sp_TracksCollection sp))); reflexivity.
Qed.

Lemma SV_ConvertToMusicPlaylist_tracks (sp : SpotifyPlaylist) :
  StringVariant.mp_Tracks (StringVariant.ConvertToMusicPlaylist sp) =
  collected (fun w => StringVariant.ConvertToMusicTrack (pt_Track w))
    (elems (pts_Items (sp_TracksCollection sp))).
Proof. now rewrite SV_ConvertToMusicPlaylist_eq. Qed.

Lemma LV_ConvertToMusicTrack_eq (st : SpotifyTrack) :
  ListVariant.ConvertToMusicTrack st =
  {| ListVariant.mt_Name := st_Name st;
     ListVariant.mt_PreviewURL := st_PreviewURL st;
     ListVariant.mt_AlbumName := sa_Name (st_Album st);
     ListVariant.mt_AlbumArt := sa_Images (st_Album st);
     ListVariant.mt_AlbumReleaseDate := sa_ReleaseDate (st_Album st);
     ListVariant.mt_IntegrationID := st_IntegrationID st;
     ListVariant.mt_Source := "spotify";
     ListVariant.mt_ExternalURL := eu_Spotify (st_ExternalURL st);
     ListVariant.mt_Artists :=
       make_slice (map toMusicArtist (elems (st_Artists st))) |}.
Proof.
  unfold ListVariant.ConvertToMusicTrack, for_range.
  change (fun (musicTrack : ListVariant.MusicTrack) (artist : SpotifyArtist) => _)
    with (fun musicTrack artist =>
            ListVariant.set_mt_Artists musicTrack
              (append (ListVariant.mt_Artists musicTrack) (toMusicArtist artist))).
  rewrite (fold_field_append ListVariant.mt_Artists ListVariant.set_mt_Artists)
    by reflexivity.
  destruct (elems (st_Artists st)); reflexivity.
Qed.

Lemma LV_ConvertToMusicPlaylist_eq (sp : SpotifyPlaylist) :
  ListVariant.ConvertToMusicPlaylist sp =
  {| ListVariant.mp_Name := sp_Name sp;
     ListVariant.mp_PlaylistArt := sp_Images sp;
     ListVariant.mp_Tracks :=
       collected (fun w => ListVariant.ConvertToMusicTrack (pt_Track w))
         (elems (pts_Items (sp_TracksCollection sp)));
     ListVariant.mp_IntegrationID := sp_IntegrationID sp |}.
Proof.
  unfold ListVariant.ConvertToMusicPlaylist, for_range, len.
  rewrite (fold_field_append ListVariant.mp_Tracks ListVariant.set_mp_Tracks)
    by reflexivity.
  destruct (elems (pts_Items (sp_TracksCollection sp))); reflexivity.
Qed.

Lemma LV_ConvertToMusicPlaylist_tracks (sp : SpotifyPlaylist) :
  ListVariant.mp_Tracks (ListVariant.ConvertToMusicPlaylist sp) =
  collected (fun w => ListVariant.ConvertToMusicTrack (pt_Track w))
    (elems (pts_Items (sp_TracksCollection sp))).
Proof. now rewrite LV_ConvertToMusicPlaylist_eq. Qed.

Lemma LV_ConvertToMusicAlbum_eq (sa : SpotifyAlbum) :
  ListVariant.ConvertToMusicAlbum sa =
  {| ListVariant.ma_Name := sa_Name sa;
     ListVariant.ma_AlbumArt := sa_Images sa;
     ListVariant.ma_ReleaseDate := sa_ReleaseDate sa;
     ListVariant.ma_Artists := make_slice (map toMusicArtist (elems (sa_Artists sa)));
     ListVariant.ma_Tracks :=
       collected (fun track => ListVariant.ConvertToMusicTrack (with_Album track sa))
         (elems (tr_Items (sa_TracksCollection sa)));
     ListVariant.ma_IntegrationID := sa_IntegrationID sa |}.
Proof.
  unfold ListVariant.ConvertToMusicAlbum, for_range, len.
  change (fun (ma : ListVariant.MusicAlbum) (artist : SpotifyArtist) => _)
    with (fun ma artist =>
            ListVariant.set_ma_Artists ma
              (append (ListVariant.ma_Artists ma) (toMusicArtist artist))).
  rewrite (fold_field_append ListVariant.ma_Artists ListVariant.set_ma_Artists)
    by reflexivity.
  rewrite (fold_field_append ListVariant.ma_Tracks ListVariant.set_ma_Tracks
             ltac:(reflexivity) ltac:(reflexivity)
             (fun track => ListVariant.ConvertToMusicTrack (with_Album track sa))).
  destruct (elems (sa_Artists sa)), (elems (tr_Items (sa_TracksCollection sa)));
    reflexivity.
Qed.

(** ** The definitions on small inputs *)

Example strings_Join_three :
  strings_Join (make_slice ["a"; "b"; "c"]) ", " = "a, b, c".
Proof. reflexivity. Qed.

Example strings_Join_none :
  strings_Join nil_slice ", " = "" /\ strings_Join (make_slice ["a"]) ", " = "a".
Proof. split; reflexivity. Qed.

Example compilation_track_both_ways :
  StringVariant.mt_Artists (StringVariant.ConvertToMusicTrack compilationTrack)
  = "Artist Y"
  /\ ListVariant.mt_Artists (ListVariant.ConvertToMusicTrack compilationTrack)
     = make_slice [ {| martist_Name := "Artist Y"; martist_IntegrationID := "ay" |} ]
  /\ ListVariant.mt_Artists (searchTrack compilationTrack)
     = make_slice [ {| martist_Name := "Various Artists"; martist_IntegrationID := "va" |} ].
Proof. repeat split. Qed.

Example zero_track_both_ways :
  StringVariant.mt_Artists (StringVariant.ConvertToMusicTrack zero_SpotifyTrack) = ""
  /\ ListVariant.mt_Artists (ListVariant.ConvertToMusicTrack zero_SpotifyTrack)
     = make_slice []
  /\ ListVariant.mt_Artists (searchTrack zero_SpotifyTrack) = nil_slice.
Proof. repeat split. Qed.

Example roadTrip_members :
  StringVariant.json_members (StringVariant.ConvertToMusicPlaylist roadTrip)
  = ["Name"; "PlaylistArt"; "Tracks"; "IntegrationID"]
  /\ StringVariant.json_members (StringVariant.ConvertToMusicPlaylist emptyPlaylist)
     = ["Name"; "PlaylistArt"; "IntegrationID"].
Proof. split; reflexivity. Qed.

(** [CombineArtists] is the string that the string revision stores. *)
Lemma CombineArtists_eq (st : SpotifyTrack) :
  CombineArtists st = StringVariant.mt_Artists (StringVariant.ConvertToMusicTrack st).
Proof. reflexivity. Qed.

Example compilation_search :
  ListVariant.NewMusicSearchResultFromSpotify compilationSearch
  = {| ListVariant.msr_Tracks := make_slice [searchTrack compilationTrack];
       ListVariant.msr_Albums := nil_slice;
       ListVariant.msr_Playlists := nil_slice |}.
Proof. reflexivity. Qed.

Lemma LV_search_tracks (spotifyResult : SpotifyTrackSearchResult) :
  ListVariant.msr_Tracks (ListVariant.NewMusicSearchResultFromSpotify spotifyResult) =
  collected searchTrack (elems (tr_Items (sr_ResultCollection spotifyResult))).
Proof.
  unfold ListVariant.NewMusicSearchResultFromSpotify, for_range.
  rewrite (fold_field_append ListVariant.msr_Playlists ListVariant.set_msr_Playlists
             ltac:(reflexivity) ltac:(reflexivity)
             (fun playlist =>
                {| ListVariant.mp_Name := sp_Name playlist;
                   ListVariant.mp_PlaylistArt := sp_Images playlist;
                   ListVariant.mp_Tracks := nil_slice;
                   ListVariant.mp_IntegrationID := sp_IntegrationID playlist |})).
  assert (Hplay : forall msr v,
             ListVariant.msr_Tracks (ListVariant.set_msr_Playlists msr v)
             = ListVariant.msr_Tracks msr) by reflexivity.
  assert (Halb : forall l msr,
             ListVariant.msr_Tracks
               (fold_left
                  (fun msr album =>
                     ListVariant.set_msr_Albums msr
                       (append (ListVariant.msr_Albums msr)
                          (fold_left
                             (fun ma artist =>
                                ListVariant.set_ma_Artists ma
                                  (append (ListVariant.ma_Artists ma)
                                     {| martist_Name := artist_Name artist;
                                        martist_IntegrationID :=
                                          artist_IntegrationID artist |}))
                             (elems (sa_Artists album))
                             {| ListVariant.ma_Name := sa_Name album;
                                ListVariant.ma_AlbumArt := sa_Images album;
                                ListVariant.ma_ReleaseDate := sa_ReleaseDate album;
                                ListVariant.ma_Artists := nil_slice;
                                ListVariant.ma_Tracks := nil_slice;
                                ListVariant.ma_IntegrationID := sa_IntegrationID album |})))
                  l msr)
             = ListVariant.msr_Tracks msr).
  { induction l as [|album l IH]; intros msr; [reflexivity|].
    cbn [fold_left]. now rewrite IH. }
  assert (Htrk : forall track,
             fold_left
               (fun mt artist =>
                  ListVariant.set_mt_Artists mt
                    (append (ListVariant.mt_Artists mt)
                       {| martist_Name := artist_Name artist;
                          martist_IntegrationID := artist_IntegrationID artist |}))
               (elems (sa_Artists (st_Album track)))
               {| ListVariant.mt_Name := st_Name track;
                  ListVariant.mt_PreviewURL := st_PreviewURL track;
                  ListVariant.mt_AlbumName := sa_Name (st_Album track);
                  ListVariant.mt_AlbumArt := sa_Images (st_Album track);
                  ListVariant.mt_AlbumReleaseDate := sa_ReleaseDate (st_Album track);
                  ListVariant.mt_IntegrationID := st_IntegrationID track;
                  ListVariant.mt_Source := "spotify";
                  ListVariant.mt_ExternalURL := eu_Spotify (st_ExternalURL track);
                  ListVariant.mt_Artists := nil_slice |}
             = searchTrack track).
  { intros track.
    rewrite (fold_field_append ListVariant.mt_Artists ListVariant.set_mt_Artists
               ltac:(reflexivity) ltac:(reflexivity) toMusicArtist).
    unfold searchTrack. destruct (elems (sa_Artists (st_Album track))); reflexivity. }
  match goal with
  | |- ListVariant.msr_Tracks (match ?l with [] => ?r | _ :: _ => _ end) = _ =>
      transitivity (ListVariant.msr_Tracks r); [destruct l; reflexivity|]
  end.
  rewrite Halb.
  rewrite (fold_left_ext _
             (fun msr track =>
                ListVariant.set_msr_Tracks msr
                  (append (ListVariant.msr_Tracks msr) (searchTrack track))))
    by (intros msr track; now rewrite Htrk).
  rewrite (fold_field_append ListVariant.msr_Tracks ListVariant.set_msr_Tracks
             ltac:(reflexivity) ltac:(reflexivity) searchTrack).
  destruct (elems (tr_Items (sr_ResultCollection spotifyResult))); reflexivity.
Qed.

Lemma nth_error_collected {A B} (f : A -> B) (l : list A) (i : nat) :
  nth_error (elems (collected f l)) i
  = option_map f (nth_error l i).
Proof.
  destruct l as [|x l].
  - now destruct i.
  - cbn [elems]. apply nth_error_map.
Qed.

Lemma len_collected {A B} (f : A -> B) (l : list A) :
  len (collected f l) = length l.
Proof.
  destruct l as [|x l]; [reflexivity|].
  unfold len. cbn [elems]. apply length_map.
Qed.

Lemma elems_collected {A B} (f : A -> B) (l : list A) :
  elems (collected f l) = map f l.
Proof. now destruct l. Qed.

Lemma collected_map {A B C} (f : A -> B) (g : B -> C) (l : list A) :
  collected g (map f l) = collected (fun x => g (f x)) l.
Proof. destruct l as [|x l]; [reflexivity|]. cbn. now rewrite map_map. Qed.

(** ** The claims about the translators *)

(** C1. A playlist with N track wrappers translates to a playlist with
    exactly N tracks, and the i-th output track is the translation of the
    inner track of the i-th wrapper; in both revisions. *)
Theorem ConvertToMusicPlaylist_tracks_in_order (sp : SpotifyPlaylist) :
  let items := elems (pts_Items (sp_TracksCollection sp)) in
  (len (StringVariant.mp_Tracks (StringVariant.ConvertToMusicPlaylist sp)) = length items
   /\ forall i,
       nth_error
         (elems (StringVariant.mp_Tracks (StringVariant.ConvertToMusicPlaylist sp))) i
       = option_map (fun w => StringVariant.ConvertToMusicTrack (pt_Track w))
           (nth_error items i))
  /\
  (len (ListVariant.mp_Tracks (ListVariant.ConvertToMusicPlaylist sp)) = length items
   /\ forall i,
       nth_error
         (elems (ListVariant.mp_Tracks (ListVariant.ConvertToMusicPlaylist sp))) i
       = option_map (fun w => ListVariant.ConvertToMusicTrack (pt_Track w))
           (nth_error items i)).
Proof.
  cbn zeta.
  rewrite SV_ConvertToMusicPlaylist_tracks, LV_ConvertToMusicPlaylist_tracks.
  repeat split; intros; first [apply len_collected | apply nth_error_collected].
Qed.

(** C2, as the scenario is written: read as a value, the listed output
    gives the track no provider id, while the translation copies ["t1"]
    into it; so the translation of the scenario's playlist is not the
    listed value. *)
Lemma roadTrip_not_as_written :
  StringVariant.ConvertToMusicPlaylist roadTrip <> roadTrip_as_written
  /\ map StringVariant.mt_IntegrationID
       (elems (StringVariant.mp_Tracks (StringVariant.ConvertToMusicPlaylist roadTrip)))
     = ["t1"]
  /\ map StringVariant.mt_IntegrationID
       (elems (StringVariant.mp_Tracks roadTrip_as_written))
     = [""].
Proof.
  split; [|split; reflexivity].
  intros Heq.
  apply (f_equal (fun mp =>
           map StringVariant.mt_IntegrationID (elems (StringVariant.mp_Tracks mp)))) in Heq.
  vm_compute in Heq. discriminate Heq.
Qed.

(** C2, amended. The scenario's playlist translates to the listed
    playlist with, in addition, the track's provider id ["t1"] and the
    input's two empty image lists; every field the scenario lists has the
    listed value, the artists being the one string ["Artist X"]. *)
Theorem roadTrip_translation :
  StringVariant.ConvertToMusicPlaylist roadTrip = roadTrip_output
  /\ StringVariant.mp_Name roadTrip_output = StringVariant.mp_Name roadTrip_as_written
  /\ StringVariant.mp_IntegrationID roadTrip_output
     = StringVariant.mp_IntegrationID roadTrip_as_written
  /\ Forall2
       (fun got want =>
          StringVariant.mt_Name got = StringVariant.mt_Name want
          /\ StringVariant.mt_AlbumName got = StringVariant.mt_AlbumName want
          /\ StringVariant.mt_AlbumReleaseDate got = StringVariant.mt_AlbumReleaseDate want
          /\ StringVariant.mt_ExternalURL got = StringVariant.mt_ExternalURL want
          /\ StringVariant.mt_Source got = StringVariant.mt_Source want
          /\ StringVariant.mt_Artists got = StringVariant.mt_Artists want
          /\ StringVariant.mt_Artists got = "Artist X"
          /\ StringVariant.mt_IntegrationID got = "t1")
       (elems (StringVariant.mp_Tracks roadTrip_output))
       (elems (StringVariant.mp_Tracks roadTrip_as_written)).
Proof.
  split; [reflexivity|].
  split; [reflexivity|].
  split; [reflexivity|].
  repeat constructor.
Qed.

(** C3. The artists of a translated track are the source artists' names,
    each once and in source order: joined with [", "] into one string in
    the string revision, one [MusicArtist] per source artist in the list
    revision. *)
Theorem ConvertToMusicTrack_artists_in_order (st : SpotifyTrack) :
  let names := map artist_Name (elems (st_Artists st)) in
  StringVariant.mt_Artists (StringVariant.ConvertToMusicTrack st)
  = String.concat ", " names
  /\ map martist_Name
       (elems (ListVariant.mt_Artists (ListVariant.ConvertToMusicTrack st)))
     = names
  /\ len (ListVariant.mt_Artists (ListVariant.ConvertToMusicTrack st))
     = len (st_Artists st).
Proof.
  cbn zeta. rewrite SV_ConvertToMusicTrack_eq, LV_ConvertToMusicTrack_eq.
  cbn [StringVariant.mt_Artists ListVariant.mt_Artists elems].
  split; [reflexivity|]. split.
  - rewrite map_map. reflexivity.
  - unfold len. cbn [elems]. apply length_map.
Qed.

(** C6. A playlist with no track wrapper (nil or empty collection)
    translates to a playlist whose Tracks field is the nil slice, which
    the JSON encoding omits; in both revisions. *)
Theorem ConvertToMusicPlaylist_no_tracks (sp : SpotifyPlaylist) :
  len (pts_Items (sp_TracksCollection sp)) = 0 ->
  (StringVariant.mp_Tracks (StringVariant.ConvertToMusicPlaylist sp) = nil_slice
   /\ ~ In "Tracks" (StringVariant.json_members (StringVariant.ConvertToMusicPlaylist sp)))
  /\
  (ListVariant.mp_Tracks (ListVariant.ConvertToMusicPlaylist sp) = nil_slice
   /\ ~ In "Tracks" (ListVariant.json_members (ListVariant.ConvertToMusicPlaylist sp))).
Proof.
  intros Hlen.
  unfold StringVariant.json_members, ListVariant.json_members.
  rewrite SV_ConvertToMusicPlaylist_tracks, LV_ConvertToMusicPlaylist_tracks.
  unfold len in Hlen.
  destruct (elems (pts_Items (sp_TracksCollection sp))); [|discriminate Hlen].
  cbn. repeat split; try reflexivity; intros [H|[H|[H|[]]]]; discriminate H.
Qed.

Lemma ConvertToMusicPlaylist_no_tracks_witness :
  len (pts_Items (sp_TracksCollection emptyPlaylist)) = 0
  /\ StringVariant.mp_Tracks (StringVariant.ConvertToMusicPlaylist emptyPlaylist) = nil_slice
  /\ ListVariant.mp_Tracks (ListVariant.ConvertToMusicPlaylist emptyPlaylist) = nil_slice.
Proof.
  split; [reflexivity|].
  split; apply (ConvertToMusicPlaylist_no_tracks emptyPlaylist); reflexivity.
Defined.

(** C7. The tracks of a translated album are the translations of the
    album's nested tracks with the album itself put in their Album field:
    there are as many as nested tracks, and each one's AlbumName,
    AlbumArt and AlbumReleaseDate are the parent album's name, images and
    release date, whatever album the nested track embedded. *)
Theorem ConvertToMusicAlbum_tracks_carry_album (sa : SpotifyAlbum) :
  let out := ListVariant.ConvertToMusicAlbum sa in
  len (ListVariant.ma_Tracks out) = len (tr_Items (sa_TracksCollection sa))
  /\ elems (ListVariant.ma_Tracks out)
     = map (fun track => ListVariant.ConvertToMusicTrack (with_Album track sa))
         (elems (tr_Items (sa_TracksCollection sa)))
  /\ Forall
       (fun mt =>
          ListVariant.mt_AlbumName mt = sa_Name sa
          /\ ListVariant.mt_AlbumArt mt = sa_Images sa
          /\ ListVariant.mt_AlbumReleaseDate mt = sa_ReleaseDate sa)
       (elems (ListVariant.ma_Tracks out)).
Proof.
  cbn zeta. rewrite LV_ConvertToMusicAlbum_eq. cbn [ListVariant.ma_Tracks].
  rewrite len_collected, elems_collected.
  split; [reflexivity|]. split; [reflexivity|].
  apply List.Forall_forall. intros mt Hin.
  apply in_map_iff in Hin as [track [<- _]].
  rewrite LV_ConvertToMusicTrack_eq. repeat split.
Qed.

(** C9. Every track of a translated search result takes its artists from
    the artist list of the track's embedded album, not from the track's
    own artist list; and for a track whose own artists differ from its
    album's, this translation and [ConvertToMusicTrack] give different
    artists. *)
Theorem search_result_artists_from_album (spotifyResult : SpotifyTrackSearchResult) :
  Forall2
    (fun track mt =>
       elems (ListVariant.mt_Artists mt)
       = map toMusicArtist (elems (sa_Artists (st_Album track))))
    (elems (tr_Items (sr_ResultCollection spotifyResult)))
    (elems (ListVariant.msr_Tracks
              (ListVariant.NewMusicSearchResultFromSpotify spotifyResult)))
  /\ exists track mt,
       ListVariant.msr_Tracks
         (ListVariant.NewMusicSearchResultFromSpotify
            {| sr_ResultCollection := {| tr_Items := make_slice [track] |};
               sr_AlbumCollection := {| ar_Items := nil_slice |};
               sr_PlaylistCollection := {| pr_Items := nil_slice |} |})
       = make_slice [mt]
       /\ elems (st_Artists track) <> elems (sa_Artists (st_Album track))
       /\ elems (ListVariant.mt_Artists mt)
          <> elems (ListVariant.mt_Artists (ListVariant.ConvertToMusicTrack track)).
Proof.
  split.
  - rewrite LV_search_tracks, elems_collected.
    induction (elems (tr_Items (sr_ResultCollection spotifyResult))) as [|track l IH];
      constructor; [|exact IH].
    unfold searchTrack. cbn [ListVariant.mt_Artists].
    now destruct (elems (sa_Artists (st_Album track))).
  - exists compilationTrack, (searchTrack compilationTrack).
    split; [reflexivity|]. split; intros H; vm_compute in H; discriminate H.
Qed.

(** C10. In the list revision the Artists field of a translated track
    and of a translated album is never nil, and is the empty list when
    the source has no artist; the Tracks field of a translated playlist
    is nil when the source collection is empty. *)
Theorem list_variant_artists_never_nil
    (st : SpotifyTrack) (sa : SpotifyAlbum) (sp : SpotifyPlaylist) :
  is_nil (ListVariant.mt_Artists (ListVariant.ConvertToMusicTrack st)) = false
  /\ is_nil (ListVariant.ma_Artists (ListVariant.ConvertToMusicAlbum sa)) = false
  /\ (len (st_Artists st) = 0 ->
      ListVariant.mt_Artists (ListVariant.ConvertToMusicTrack st) = make_slice [])
  /\ (len (sa_Artists sa) = 0 ->
      ListVariant.ma_Artists (ListVariant.ConvertToMusicAlbum sa) = make_slice [])
  /\ (len (pts_Items (sp_TracksCollection sp)) = 0 ->
      ListVariant.mp_Tracks (ListVariant.ConvertToMusicPlaylist sp) = nil_slice
      /\ is_nil (ListVariant.mp_Tracks (ListVariant.ConvertToMusicPlaylist sp)) = true).
Proof.
  rewrite LV_ConvertToMusicTrack_eq, LV_ConvertToMusicAlbum_eq,
    LV_ConvertToMusicPlaylist_tracks.
  cbn [ListVariant.mt_Artists ListVariant.ma_Artists is_nil]. unfold len.
  split; [reflexivity|]. split; [reflexivity|].
  split; [|split]; intros Hlen.
  - now destruct (elems (st_Artists st)).
  - now destruct (elems (sa_Artists sa)).
  - now destruct (elems (pts_Items (sp_TracksCollection sp))).
Qed.

Lemma list_variant_artists_never_nil_witness :
  len (st_Artists zero_SpotifyTrack) = 0
  /\ len (sa_Artists zero_SpotifyAlbum) = 0
  /\ len (pts_Items (sp_TracksCollection emptyPlaylist)) = 0
  /\ ListVariant.mt_Artists (ListVariant.ConvertToMusicTrack zero_SpotifyTrack)
     = make_slice []
  /\ ListVariant.ma_Artists (ListVariant.ConvertToMusicAlbum zero_SpotifyAlbum)
     = make_slice []
  /\ ListVariant.mp_Tracks (ListVariant.ConvertToMusicPlaylist emptyPlaylist) = nil_slice.
Proof.
  destruct (list_variant_artists_never_nil zero_SpotifyTrack zero_SpotifyAlbum emptyPlaylist)
    as (_ & _ & Ht & Ha & Hp).
  split; [reflexivity|]. split; [reflexivity|]. split; [reflexivity|].
  split; [apply Ht; reflexivity|].
  split; [apply Ha; reflexivity|].
  apply Hp; reflexivity.
Defined.

(** * Further properties of the translators *)

Lemma fromMusicArtist_toMusicArtist (a : SpotifyArtist) :
  fromMusicArtist (toMusicArtist a) = a.
Proof. now destruct a. Qed.

(** X1. The list revision loses no artist: from the Artists of a
    translated track, and of a translated album, the source artists are
    read back, names and ids, in order. *)
Theorem list_revision_keeps_artists (st : SpotifyTrack) (sa : SpotifyAlbum) :
  map fromMusicArtist
    (elems (ListVariant.mt_Artists (ListVariant.ConvertToMusicTrack st)))
  = elems (st_Artists st)
  /\ map fromMusicArtist
       (elems (ListVariant.ma_Artists (ListVariant.ConvertToMusicAlbum sa)))
     = elems (sa_Artists sa).
Proof.
  rewrite LV_ConvertToMusicTrack_eq, LV_ConvertToMusicAlbum_eq.
  cbn [ListVariant.mt_Artists ListVariant.ma_Artists elems].
  rewrite !map_map.
  split; (erewrite map_ext; [apply map_id|]); intros a;
    apply fromMusicArtist_toMusicArtist.
Qed.

Lemma map_slice_collected {A B C} (f : A -> B) (g : B -> C) (l : list A) :
  map_slice g (collected f l) = collected (fun x => g (f x)) l.
Proof. destruct l as [|x l]; [reflexivity|]. cbn. now rewrite map_map. Qed.

Lemma SV_track_is_joined_LV_track (st : SpotifyTrack) :
  StringVariant.ConvertToMusicTrack st = joinArtists (ListVariant.ConvertToMusicTrack st).
Proof.
  rewrite SV_ConvertToMusicTrack_eq, LV_ConvertToMusicTrack_eq.
  unfold joinArtists.
  cbn [ListVariant.mt_Name ListVariant.mt_PreviewURL ListVariant.mt_AlbumName
       ListVariant.mt_AlbumArt ListVariant.mt_AlbumReleaseDate
       ListVariant.mt_IntegrationID ListVariant.mt_Source ListVariant.mt_ExternalURL
       ListVariant.mt_Artists map_slice].
  f_equal. rewrite strings_Join_concat. cbn [elems]. now rewrite map_map.
Qed.

(** X2. The string revision is the list revision with the artist
    records of each track replaced by their names joined with [", "]:
    for tracks, and track by track for playlists. *)
Theorem string_revision_is_joined_list_revision
    (st : SpotifyTrack) (sp : SpotifyPlaylist) :
  StringVariant.ConvertToMusicTrack st = joinArtists (ListVariant.ConvertToMusicTrack st)
  /\ StringVariant.ConvertToMusicPlaylist sp
     = joinArtists_playlist (ListVariant.ConvertToMusicPlaylist sp).
Proof.
  split; [apply SV_track_is_joined_LV_track|].
  rewrite SV_ConvertToMusicPlaylist_eq, LV_ConvertToMusicPlaylist_eq.
  unfold joinArtists_playlist.
  cbn [ListVariant.mp_Name ListVariant.mp_PlaylistArt ListVariant.mp_Tracks
       ListVariant.mp_IntegrationID].
  f_equal. rewrite map_slice_collected.
  destruct (elems (pts_Items (sp_TracksCollection sp))) as [|w ws]; [reflexivity|].
  unfold collected. f_equal. apply map_ext. intros x.
  apply SV_track_is_joined_LV_track.
Qed.

Lemma concat_cons_cons (sep x y : string) (l : list string) :
  String.concat sep (x :: y :: l) = x +:+ sep +:+ String.concat sep (y :: l).
Proof. reflexivity. Qed.

Lemma concat_merge (sep a b : string) (pre post : list string) :
  String.concat sep (pre ++ a :: b :: post)
  = String.concat sep (pre ++ (a +:+ sep +:+ b) :: post).
Proof.
  induction pre as [|p pre IH].
  - cbn [app]. now rewrite concat_cons_cons, !concat_head_app.
  - destruct pre as [|q pre].
    + cbn [app] in *. now rewrite !(concat_cons_cons sep p), IH.
    + cbn [app] in *. now rewrite !(concat_cons_cons sep p), IH.
Qed.

(** X3. The string revision does not tell two artists from one whose
    name holds the separator: replacing two neighbouring artists by one
    named after both, with [", "] between, leaves the translation
    unchanged. *)
Theorem string_revision_merges_neighbours
    (st : SpotifyTrack) (pre post : list SpotifyArtist) (a b : SpotifyArtist)
    (id : string) :
  StringVariant.ConvertToMusicTrack
    (with_Artists st (make_slice (pre ++ a :: b :: post)))
  = StringVariant.ConvertToMusicTrack
      (with_Artists st
         (make_slice
            (pre ++ {| artist_Name := artist_Name a +:+ ", " +:+ artist_Name b;
                       artist_IntegrationID := id |} :: post))).
Proof.
  rewrite !SV_ConvertToMusicTrack_eq.
  cbn [with_Artists st_Name st_PreviewURL st_Album st_IntegrationID st_ExternalURL
       st_Artists elems].
  f_equal. rewrite !map_app. cbn [map artist_Name]. apply concat_merge.
Qed.

(** X4. A translated track depends on the track's name, preview URL, id
    and external URL, on the name, images and release date of its album
    and on its artists (in the string revision on their names only):
    two tracks that agree there translate alike, whatever their URI,
    duration, album artists or album tracks. *)
Theorem ConvertToMusicTrack_reads_only (st st' : SpotifyTrack) :
  st_Name st = st_Name st' ->
  st_PreviewURL st = st_PreviewURL st' ->
  st_IntegrationID st = st_IntegrationID st' ->
  eu_Spotify (st_ExternalURL st) = eu_Spotify (st_ExternalURL st') ->
  sa_Name (st_Album st) = sa_Name (st_Album st') ->
  sa_Images (st_Album st) = sa_Images (st_Album st') ->
  sa_ReleaseDate (st_Album st) = sa_ReleaseDate (st_Album st') ->
  map artist_Name (elems (st_Artists st)) = map artist_Name (elems (st_Artists st')) ->
  StringVariant.ConvertToMusicTrack st = StringVariant.ConvertToMusicTrack st'
  /\ (elems (st_Artists st) = elems (st_Artists st') ->
      ListVariant.ConvertToMusicTrack st = ListVariant.ConvertToMusicTrack st').
Proof.
  intros Hn Hp Hi He Han Hai Had Hnames.
  rewrite !SV_ConvertToMusicTrack_eq, !LV_ConvertToMusicTrack_eq.
  rewrite Hn, Hp, Hi, He, Han, Hai, Had, Hnames.
  split; [reflexivity|]. now intros ->.
Qed.

Lemma string_length_app (a b : string) :
  String.length (a +:+ b) = String.length a + String.length b.
Proof.
  induction a as [|c a IH]; [reflexivity|].
  change (S (String.length (a +:+ b)) = S (String.length a + String.length b)).
  now rewrite IH.
Qed.

Lemma concat_length (sep : string) (l : list string) :
  String.length (String.concat sep l)
  = list_sum (map String.length l) + String.length sep * (length l - 1).
Proof.
  induction l as [|x l IH]; [cbn; lia|].
  destruct l as [|y l].
  - cbn. lia.
  - rewrite concat_cons_cons, !string_length_app, IH.
    cbn [map length]. unfold list_sum. cbn [fold_right].
    replace (S (S (length l)) - 1) with (S (S (length l) - 1)) by lia.
    rewrite Nat.mul_succ_r. lia.
Qed.

(** X5. [CombineArtists] is as long as the artist names together plus
    two bytes between each two of them; for a track without artists it
    is the empty string. *)
Theorem CombineArtists_length (o : SpotifyTrack) :
  String.length (CombineArtists o)
  = list_sum (map (fun a => String.length (artist_Name a)) (elems (st_Artists o)))
    + 2 * (len (st_Artists o) - 1)
  /\ (len (st_Artists o) = 0 -> CombineArtists o = "").
Proof.
  rewrite CombineArtists_eq, SV_ConvertToMusicTrack_eq.
  cbn [StringVariant.mt_Artists]. unfold len. split.
  - rewrite concat_length, map_map, length_map. reflexivity.
  - now destruct (elems (st_Artists o)).
Qed.

(** ** [ImageURLs] *)

Lemma list_ascii_of_string_app (a b : string) :
  list_ascii_of_string (a +:+ b) = list_ascii_of_string a ++ list_ascii_of_string b.
Proof.
  induction a as [|c a IH]; [reflexivity|].
  change (c :: list_ascii_of_string (a +:+ b)
          = c :: (list_ascii_of_string a ++ list_ascii_of_string b)).
  now rewrite IH.
Qed.

Lemma edge_graphic_inv (s : string) :
  edge_graphic s = true ->
  exists a b,
    head (list_ascii_of_string s) = Some a /\ last (list_ascii_of_string s) = Some b
    /\ graphic a = true /\ graphic b = true.
Proof.
  unfold edge_graphic.
  destruct (head (list_ascii_of_string s)) as [a|]; [|discriminate].
  destruct (last (list_ascii_of_string s)) as [b|]; [|discriminate].
  intros H. apply andb_prop in H as [Ha Hb]. now exists a, b.
Qed.

Lemma edge_graphic_intro (s : string) (a b : Ascii.ascii) :
  head (list_ascii_of_string s) = Some a -> last (list_ascii_of_string s) = Some b ->
  graphic a = true -> graphic b = true -> edge_graphic s = true.
Proof. intros Ha Hb Hga Hgb. unfold edge_graphic. now rewrite Ha, Hb, Hga, Hgb. Qed.

Lemma concat_edge_graphic (u : string) (urls : list string) :
  List.Forall (fun u => edge_graphic u = true) (u :: urls) ->
  edge_graphic (String.concat " " (u :: urls)) = true.
Proof.
  revert u; induction urls as [|v urls IH]; intros u Hall.
  - now inversion Hall.
  - inversion Hall as [|? ? Hu Hrest]; subst.
    specialize (IH v Hrest).
    apply edge_graphic_inv in Hu as (a & b & Ha & _ & Hga & _).
    apply edge_graphic_inv in IH as (a' & b' & Ha' & Hb' & _ & Hgb').
    rewrite concat_cons_cons.
    apply (edge_graphic_intro _ a b'); try assumption.
    + rewrite list_ascii_of_string_app, head_app. now rewrite Ha.
    + rewrite !list_ascii_of_string_app, !last_app. now rewrite Hb'.
Qed.

Lemma urls_loop (l : list SpotifyAlbumImage) (image : SpotifyAlbumImage) (acc : string) :
  fold_left (fun urls image => urls +:+ (ai_URL image +:+ " ")) (image :: l) acc
  = acc +:+ (String.concat " " (map ai_URL (image :: l)) +:+ " ").
Proof.
  revert image acc; induction l as [|y l IH]; intros image acc; [reflexivity|].
  cbn [fold_left] in *. rewrite IH.
  cbn [map]. rewrite (concat_cons_cons " " (ai_URL image)).
  now rewrite !string_app_assoc.
Qed.

Lemma graphic_inv (c : Ascii.ascii) :
  graphic c = true ->
  (RuneSelf <=? Ascii.nat_of_ascii c)%nat = false /\ asciiSpace c = false.
Proof.
  unfold graphic. intros H. apply andb_prop in H as [Hlt Hsp].
  apply Nat.ltb_lt in Hlt. apply negb_true_iff in Hsp.
  split; [now apply Nat.leb_gt|exact Hsp].
Qed.

Section TrimSpaceFacts.
Variables TrimFunc_IsSpace TrimRightFunc_IsSpace : string -> string.

(** Trimming gives back a string that begins and ends with ASCII
    bytes that are not white space, when one space follows it. *)
Lemma TrimSpace_edge_graphic (body : string) :
  edge_graphic body = true ->
  strings_TrimSpace TrimFunc_IsSpace TrimRightFunc_IsSpace (body +:+ " ") = body.
Proof.
  intros Hedge.
  apply edge_graphic_inv in Hedge as (a & b & Ha & Hb & Hga & Hgb).
  destruct body as [|c rest]; [discriminate Ha|].
  cbn in Ha. injection Ha as ->.
  apply graphic_inv in Hga as [Hga1 Hga2].
  change (String a rest +:+ " ") with (String a (rest +:+ " ")).
  cbn [strings_TrimSpace]. rewrite Hga1, Hga2.
  change (String a (rest +:+ " ")) with (String a rest +:+ " ").
  rewrite list_ascii_of_string_app.
  change (list_ascii_of_string " ") with [Ascii.ascii_of_nat 32].
  rewrite rev_unit. cbn [TrimSpace_stop].
  change (RuneSelf <=? Ascii.nat_of_ascii (Ascii.ascii_of_nat 32))%nat with false.
  change (asciiSpace (Ascii.ascii_of_nat 32)) with true. cbn iota.
  apply last_Some in Hb as [l' Hl']. rewrite Hl', rev_unit.
  cbn [TrimSpace_stop].
  apply graphic_inv in Hgb as [-> ->].
  change (b :: rev l') with (rev [b] ++ rev l'). rewrite <- rev_app_distr, rev_involutive.
  rewrite <- Hl'. apply string_of_list_ascii_of_string.
Qed.

(** X6. For images whose URLs each begin and end with an ASCII byte
    that is not white space, [ImageURLs] is the URLs in order with one
    space between each two and none around; it is the empty string
    for no image.  The track's method gives what the album's method
    gives for the track's album. *)
Theorem ImageURLs_space_separated (o : SpotifyTrack) :
  List.Forall (fun image => edge_graphic (ai_URL image) = true)
    (elems (sa_Images (st_Album o))) ->
  SpotifyTrack_ImageURLs TrimFunc_IsSpace TrimRightFunc_IsSpace o
  = String.concat " " (map ai_URL (elems (sa_Images (st_Album o))))
  /\ SpotifyAlbum_ImageURLs TrimFunc_IsSpace TrimRightFunc_IsSpace (st_Album o)
     = SpotifyTrack_ImageURLs TrimFunc_IsSpace TrimRightFunc_IsSpace o.
Proof.
  intros Hall. split; [|reflexivity].
  unfold SpotifyTrack_ImageURLs, for_range.
  destruct (elems (sa_Images (st_Album o))) as [|image images]; [reflexivity|].
  rewrite urls_loop.
  change ("" +:+ ?s) with s.
  apply TrimSpace_edge_graphic.
  change (map ai_URL (image :: images)) with (ai_URL image :: map ai_URL images).
  apply concat_edge_graphic.
  change (ai_URL image :: map ai_URL images) with (map ai_URL (image :: images)).
  now apply List.Forall_map.
Qed.
End TrimSpaceFacts.

(** ** The search-result translation *)

Lemma LV_search_eq (spotifyResult : SpotifyTrackSearchResult) :
  ListVariant.NewMusicSearchResultFromSpotify spotifyResult =
  {| ListVariant.msr_Tracks :=
       collected searchTrack (elems (tr_Items (sr_ResultCollection spotifyResult)));
     ListVariant.msr_Albums :=
       collected searchAlbum (elems (ar_Items (sr_AlbumCollection spotifyResult)));
     ListVariant.msr_Playlists :=
       collected searchPlaylist
         (elems (pr_Items (sr_PlaylistCollection spotifyResult))) |}.
Proof.
  unfold ListVariant.NewMusicSearchResultFromSpotify, for_range.
  rewrite (fold_field_append ListVariant.msr_Playlists ListVariant.set_msr_Playlists
             ltac:(reflexivity) ltac:(reflexivity) searchPlaylist).
  rewrite (fold_left_ext _
             (fun msr album =>
                ListVariant.set_msr_Albums msr
                  (append (ListVariant.msr_Albums msr) (searchAlbum album)))).
  2:{ intros msr album. do 2 f_equal.
      rewrite (fold_field_append ListVariant.ma_Artists ListVariant.set_ma_Artists
                 ltac:(reflexivity) ltac:(reflexivity) toMusicArtist).
      unfold searchAlbum. now destruct (elems (sa_Artists album)). }
  rewrite (fold_field_append ListVariant.msr_Albums ListVariant.set_msr_Albums
             ltac:(reflexivity) ltac:(reflexivity) searchAlbum).
  rewrite (fold_left_ext _
             (fun msr track =>
                ListVariant.set_msr_Tracks msr
                  (append (ListVariant.msr_Tracks msr) (searchTrack track)))).
  2:{ intros msr track. do 2 f_equal.
      rewrite (fold_field_append ListVariant.mt_Artists ListVariant.set_mt_Artists
                 ltac:(reflexivity) ltac:(reflexivity) toMusicArtist).
      unfold searchTrack. now destruct (elems (sa_Artists (st_Album track))). }
  rewrite (fold_field_append ListVariant.msr_Tracks ListVariant.set_msr_Tracks
             ltac:(reflexivity) ltac:(reflexivity) searchTrack).
  destruct (elems (tr_Items (sr_ResultCollection spotifyResult))),
    (elems (ar_Items (sr_AlbumCollection spotifyResult))),
    (elems (pr_Items (sr_PlaylistCollection spotifyResult))); reflexivity.
Qed.

Lemma Forall2_map_r_same {A B} (P : A -> B -> Prop) (f : A -> B) (l : list A) :
  (forall x, P x (f x)) -> List.Forall2 P l (map f l).
Proof. intros H. induction l; constructor; auto. Qed.

Lemma toMusicArtist_map_inj (l l' : list SpotifyArtist) :
  map toMusicArtist l = map toMusicArtist l' -> l = l'.
Proof.
  intros H. apply (f_equal (map fromMusicArtist)) in H.
  rewrite !map_map in H.
  rewrite (map_ext _ id), (map_ext _ id (fun x => fromMusicArtist_toMusicArtist x) l') in H
    by apply fromMusicArtist_toMusicArtist.
  now rewrite !map_id in H.
Qed.

(** X7. In a translated search result each track is the
    [ConvertToMusicTrack] translation except for its artists; it is
    that translation altogether exactly when the embedded album lists
    the same artists as the track and at least one. *)
Theorem search_tracks_against_ConvertToMusicTrack
    (spotifyResult : SpotifyTrackSearchResult) :
  List.Forall2
    (fun track mt =>
       ListVariant.set_mt_Artists mt nil_slice
       = ListVariant.set_mt_Artists (ListVariant.ConvertToMusicTrack track) nil_slice
       /\ (mt = ListVariant.ConvertToMusicTrack track
           <-> elems (sa_Artists (st_Album track)) = elems (st_Artists track)
               /\ elems (st_Artists track) <> []))
    (elems (tr_Items (sr_ResultCollection spotifyResult)))
    (elems (ListVariant.msr_Tracks
              (ListVariant.NewMusicSearchResultFromSpotify spotifyResult))).
Proof.
  rewrite LV_search_eq. cbn [ListVariant.msr_Tracks]. rewrite elems_collected.
  apply Forall2_map_r_same. intros track.
  rewrite LV_ConvertToMusicTrack_eq. unfold searchTrack.
  split; [reflexivity|]. split.
  - intros Heq.
    apply (f_equal ListVariant.mt_Artists) in Heq. cbn [ListVariant.mt_Artists] in Heq.
    pose proof (f_equal elems Heq) as Hel. cbn [elems] in Hel.
    rewrite elems_collected in Hel. apply toMusicArtist_map_inj in Hel.
    split; [exact Hel|]. rewrite <- Hel.
    destruct (elems (sa_Artists (st_Album track))); [discriminate Heq|discriminate].
  - intros [Heq Hne]. rewrite Heq.
    destruct (elems (st_Artists track)); [contradiction|reflexivity].
Qed.

(** X8. In a translated search result there is one album entry per
    album, in order, with the album's name, images, release date and id
    and its artists in order, and never with tracks; the entry is the
    [ConvertToMusicAlbum] translation exactly when the album lists an
    artist and carries no track. *)
Theorem search_albums_carry_no_tracks (spotifyResult : SpotifyTrackSearchResult) :
  List.Forall2
    (fun album ma =>
       ListVariant.ma_Name ma = sa_Name album
       /\ ListVariant.ma_AlbumArt ma = sa_Images album
       /\ ListVariant.ma_ReleaseDate ma = sa_ReleaseDate album
       /\ ListVariant.ma_IntegrationID ma = sa_IntegrationID album
       /\ elems (ListVariant.ma_Artists ma) = map toMusicArtist (elems (sa_Artists album))
       /\ ListVariant.ma_Tracks ma = nil_slice
       /\ (ma = ListVariant.ConvertToMusicAlbum album
           <-> elems (sa_Artists album) <> []
               /\ elems (tr_Items (sa_TracksCollection album)) = []))
    (elems (ar_Items (sr_AlbumCollection spotifyResult)))
    (elems (ListVariant.msr_Albums
              (ListVariant.NewMusicSearchResultFromSpotify spotifyResult))).
Proof.
  rewrite LV_search_eq. cbn [ListVariant.msr_Albums]. rewrite elems_collected.
  apply Forall2_map_r_same. intros album.
  rewrite LV_ConvertToMusicAlbum_eq. unfold searchAlbum.
  cbn [ListVariant.ma_Name ListVariant.ma_AlbumArt ListVariant.ma_ReleaseDate
       ListVariant.ma_IntegrationID ListVariant.ma_Artists ListVariant.ma_Tracks].
  rewrite elems_collected. repeat (split; [reflexivity|]). split.
  - intros Heq.
    pose proof (f_equal ListVariant.ma_Artists Heq) as Ha.
    pose proof (f_equal ListVariant.ma_Tracks Heq) as Ht.
    cbn [ListVariant.ma_Artists ListVariant.ma_Tracks] in Ha, Ht.
    split.
    + destruct (elems (sa_Artists album)); [discriminate Ha|discriminate].
    + destruct (elems (tr_Items (sa_TracksCollection album))); [reflexivity|discriminate Ht].
  - intros [Hne ->].
    destruct (elems (sa_Artists album)); [contradiction|reflexivity].
Qed.

(** X9. In a translated search result there is one playlist entry per
    playlist, in order: the [ConvertToMusicPlaylist] translation without
    its tracks.  It is that translation exactly when the playlist has no
    track. *)
Theorem search_playlists_carry_no_tracks (spotifyResult : SpotifyTrackSearchResult) :
  List.Forall2
    (fun playlist mp =>
       mp = ListVariant.set_mp_Tracks (ListVariant.ConvertToMusicPlaylist playlist)
              nil_slice
       /\ (mp = ListVariant.ConvertToMusicPlaylist playlist
           <-> len (pts_Items (sp_TracksCollection playlist)) = 0))
    (elems (pr_Items (sr_PlaylistCollection spotifyResult)))
    (elems (ListVariant.msr_Playlists
              (ListVariant.NewMusicSearchResultFromSpotify spotifyResult))).
Proof.
  rewrite LV_search_eq. cbn [ListVariant.msr_Playlists]. rewrite elems_collected.
  apply Forall2_map_r_same. intros playlist.
  rewrite LV_ConvertToMusicPlaylist_eq. unfold searchPlaylist, len.
  split; [reflexivity|]. split.
  - intros Heq. apply (f_equal ListVariant.mp_Tracks) in Heq.
    cbn [ListVariant.mp_Tracks] in Heq.
    now destruct (elems (pts_Items (sp_TracksCollection playlist))).
  - intros Hlen.
    now destruct (elems (pts_Items (sp_TracksCollection playlist))).
Qed.

Lemma ConvertToMusicTrack_reads_only_witness :
  StringVariant.ConvertToMusicTrack songWithCovers
  = StringVariant.ConvertToMusicTrack songWithCovers_again
  /\ (elems (st_Artists songWithCovers) = elems (st_Artists songWithCovers_again) ->
      ListVariant.ConvertToMusicTrack songWithCovers
      = ListVariant.ConvertToMusicTrack songWithCovers_again).
Proof.
  apply (ConvertToMusicTrack_reads_only songWithCovers songWithCovers_again);
    reflexivity.
Defined.

Lemma ImageURLs_space_separated_witness :
  SpotifyTrack_ImageURLs (fun s => s) (fun s => s) songWithCovers
  = "https://i.scdn.co/image/large https://i.scdn.co/image/small"
  /\ SpotifyAlbum_ImageURLs (fun s => s) (fun s => s) (st_Album songWithCovers)
     = SpotifyTrack_ImageURLs (fun s => s) (fun s => s) songWithCovers.
Proof.
  apply (ImageURLs_space_separated (fun s => s) (fun s => s) songWithCovers).
  repeat constructor.
Defined.

(** ** The token client and [main] on sample worlds *)

Example main_prints_the_playlist :
  main world_ok [] =
  (Returned tt,
   [ Logged "clientID: ";
     Sent None (tokenRequest "id0" "secret0");
     Sent (Some 15%Z)
       {| req_Method := "GET";
          req_URL := "https://api.spotify.com/v1/playlists/3rpdjX0UZGjjmk3A86FrU3";
          req_Body := "";
          req_BasicAuth := None;
          req_Header := [("Authorization", "Bearer BQD1")] |};
     Printed roadTrip_output ]).
Proof. reflexivity. Qed.

Example main_unauthorized :
  main world_unauthorized [] =
  (Panicked "spotify token error",
   [ Logged "clientID: ";
     Sent None (tokenRequest "id0" "secret0");
     Logged "Error hitting spotify to refresh token";
     Logged "Unable to get token for API access." ]).
Proof. reflexivity. Qed.

Example main_empty_token :
  main world_empty_token [] =
  (Panicked "Problems getting spotify access token from JSON",
   [ Logged "clientID: ";
     Sent None (tokenRequest "id0" "secret0");
     Logged "Problems getting spotify access token from JSON";
     Logged "Unable to get token for API access." ])
  /\ fst (main world_no_member []) = fst (main world_empty_token [])
  /\ fst (main world_unreachable []) = Panicked "spotify token error".
Proof. repeat split. Qed.

Example NewSpotify_keeps_the_token :
  fst (NewSpotify world_ok "id0" "secret0" [])
  = Returned (Some {| Token := "BQD1"; ClientID := "id0"; ClientSecret := "secret0" |},
              None).
Proof. reflexivity. Qed.

(** * Properties of the token client *)

Ltac run_prog :=
  cbv [mbind mret Prog_bind Prog_ret log_Println emit panic client_Do] in *.

(** [refreshSpotifyToken], case by case. *)
Lemma refreshSpotifyToken_eq (W : World) (o : Spotify) (tr : list event) :
  refreshSpotifyToken W o tr =
  match http_NewRequest_err W "POST" "https://accounts.spotify.com/api/token" with
  | Some err => (Returned (("", Some err), o), tr ++ [Logged "net/http error"])
  | None =>
      let tr1 := tr ++ [Sent None (tokenRequest (ClientID o) (ClientSecret o))] in
      let failed :=
        (Returned (("", Some (errors_New "spotify token error")), o),
         tr1 ++ [Logged "Error hitting spotify to refresh token"]) in
      match http_Do W (tokenRequest (ClientID o) (ClientSecret o)) with
      | inr _ => failed
      | inl resp =>
          if (StatusCode resp =? 200)%Z then
            let token := AccessToken (json_Unmarshal_token W (Body resp)) in
            if String.eqb token "" then
              (Returned
                 (("", Some (errors_New "Problems getting spotify access token from JSON")),
                  o),
               tr1 ++ [Logged "Problems getting spotify access token from JSON"])
            else (Returned ((token, None), set_Token o token), tr1)
          else failed
      end
  end.
Proof.
  unfold refreshSpotifyToken, http_NewRequest.
  destruct (http_NewRequest_err W _ _) as [err|]; [reflexivity|].
  run_prog. unfold SetBasicAuth, Header_Add, tokenRequest. cbn.
  destruct (http_Do W _) as [resp|err]; [|reflexivity].
  destruct (StatusCode resp =? 200)%Z; [|reflexivity].
  cbn. destruct (String.eqb _ ""); reflexivity.
Qed.

(** A failed refresh returns the empty token and leaves the client as
    it was; it sends nothing but the token request. *)
Lemma refreshSpotifyToken_failure (W : World) (o : Spotify) (tr : list event) r o' tr' :
  refreshSpotifyToken W o tr = (Returned (r, o'), tr') ->
  snd r <> None ->
  fst r = "" /\ o' = o /\ fetches tr' = fetches tr.
Proof.
  rewrite refreshSpotifyToken_eq. unfold fetches.
  destruct (http_NewRequest_err W _ _) as [err|].
  { intros [= <- <- <-] _. rewrite filter_app. cbn. now rewrite app_nil_r. }
  cbn zeta.
  destruct (http_Do W _) as [resp|err].
  - destruct (StatusCode resp =? 200)%Z.
    + destruct (String.eqb _ "").
      * intros [= <- <- <-] _. rewrite !filter_app. cbn. now rewrite !app_nil_r.
      * intros [= <- <- <-] Hne. now contradiction Hne.
    + intros [= <- <- <-] _. rewrite !filter_app. cbn. now rewrite !app_nil_r.
  - intros [= <- <- <-] _. rewrite !filter_app. cbn. now rewrite !app_nil_r.
Qed.

(** [NewSpotify] starts from an empty token, so it always refreshes. *)
Lemma NewSpotify_eq (W : World) (clientID clientSecret : string) (tr : list event) :
  NewSpotify W clientID clientSecret tr =
  let sp := {| Token := ""; ClientID := clientID; ClientSecret := clientSecret |} in
  match refreshSpotifyToken W sp tr with
  | (Returned ((token, Some err), _), tr') =>
      (Returned (None, Some err), tr' ++ [Logged "Unable to get token for API access."])
  | (Returned ((token, None), sp'), tr') =>
      (Returned (Some (set_Token sp' token), None), tr')
  | (Panicked v, tr') => (Panicked v, tr')
  end.
Proof.
  unfold NewSpotify, getToken. cbn [Token String.length Nat.ltb Nat.leb].
  run_prog.
  destruct (refreshSpotifyToken W _ tr) as [[[[token [err|]] sp']|v] tr']; reflexivity.
Qed.

Lemma token_endpoint_fails_refresh (W : World) (o : Spotify) (tr : list event) :
  token_endpoint_fails W (ClientID o) (ClientSecret o) ->
  exists e tr',
    refreshSpotifyToken W o tr = (Returned (("", Some e), o), tr')
    /\ fetches tr' = fetches tr.
Proof.
  unfold token_endpoint_fails. intros Hfail.
  destruct (refreshSpotifyToken W o tr) as [[[[token err] o']|v] tr'] eqn:Hrun.
  - assert (Herr : err <> None).
    { rewrite refreshSpotifyToken_eq in Hrun.
      destruct (http_NewRequest_err W _ _); [now inversion Hrun|].
      cbn zeta in Hrun.
      destruct (http_Do W _) as [resp|]; [|now inversion Hrun].
      destruct (StatusCode resp =? 200)%Z eqn:Hcode; [|now inversion Hrun].
      apply Z.eqb_eq in Hcode. contradiction. }
    destruct (refreshSpotifyToken_failure W o tr (token, err) o' tr' Hrun Herr)
      as (Htok & Ho & Hfetch).
    cbn in Htok. subst token o'.
    destruct err as [e|]; [|contradiction].
    now exists e, tr'.
  - exfalso. rewrite refreshSpotifyToken_eq in Hrun.
    destruct (http_NewRequest_err W _ _); [discriminate Hrun|].
    cbn zeta in Hrun.
    destruct (http_Do W _) as [resp|]; [|discriminate Hrun].
    destruct (StatusCode resp =? 200)%Z; [|discriminate Hrun].
    destruct (String.eqb _ ""); discriminate Hrun.
Qed.

Lemma empty_token_refresh (W : World) (o : Spotify) (tr : list event) (resp : Response) :
  http_Do W (tokenRequest (ClientID o) (ClientSecret o)) = inl resp ->
  StatusCode resp = 200%Z ->
  AccessToken (json_Unmarshal_token W (Body resp)) = "" ->
  exists e tr',
    refreshSpotifyToken W o tr = (Returned (("", Some e), o), tr')
    /\ fetches tr' = fetches tr.
Proof.
  intros Hdo Hcode Htok.
  destruct (refreshSpotifyToken W o tr) as [[[[token err] o']|v] tr'] eqn:Hrun.
  - assert (Herr : err <> None).
    { rewrite refreshSpotifyToken_eq, Hdo, Hcode, Htok in Hrun.
      destruct (http_NewRequest_err W _ _); now inversion Hrun. }
    destruct (refreshSpotifyToken_failure W o tr (token, err) o' tr' Hrun Herr)
      as (Htok' & Ho & Hfetch).
    cbn in Htok'. subst token o'.
    destruct err as [e|]; [|contradiction].
    now exists e, tr'.
  - exfalso. rewrite refreshSpotifyToken_eq, Hdo, Hcode, Htok in Hrun.
    destruct (http_NewRequest_err W _ _); discriminate Hrun.
Qed.

Lemma failed_refresh_NewSpotify (W : World) (clientID clientSecret : string)
    (tr tr' : list event) (e : error) o :
  refreshSpotifyToken W
    {| Token := ""; ClientID := clientID; ClientSecret := clientSecret |} tr
  = (Returned (("", Some e), o), tr') ->
  NewSpotify W clientID clientSecret tr
  = (Returned (None, Some e), tr' ++ [Logged "Unable to get token for API access."]).
Proof. intros Hrun. rewrite NewSpotify_eq. cbn zeta. now rewrite Hrun. Qed.

Lemma fetches_app_log (tr : list event) (msg : string) :
  fetches (tr ++ [Logged msg]) = fetches tr.
Proof. unfold fetches. rewrite filter_app. cbn. apply app_nil_r. Qed.

(** C4. A 200 reply whose decoded access token is empty (absent or empty
    member) makes [refreshSpotifyToken] return the empty string with an
    error and leave the client untouched, just as a reply with another
    status does; [NewSpotify] then returns no client in either case. *)
Theorem refreshSpotifyToken_empty_token_as_non_200
    (W W' : World) (o : Spotify) (tr : list event) (resp resp' : Response) :
  http_Do W (tokenRequest (ClientID o) (ClientSecret o)) = inl resp ->
  StatusCode resp = 200%Z ->
  AccessToken (json_Unmarshal_token W (Body resp)) = "" ->
  http_Do W' (tokenRequest (ClientID o) (ClientSecret o)) = inl resp' ->
  StatusCode resp' <> 200%Z ->
  (exists e, fst (refreshSpotifyToken W o tr) = Returned (("", Some e), o))
  /\ (exists e', fst (refreshSpotifyToken W' o tr) = Returned (("", Some e'), o))
  /\ (exists e, fst (NewSpotify W (ClientID o) (ClientSecret o) tr)
                = Returned (None, Some e))
  /\ (exists e', fst (NewSpotify W' (ClientID o) (ClientSecret o) tr)
                 = Returned (None, Some e')).
Proof.
  intros Hdo Hcode Htok Hdo' Hcode'.
  assert (Hfail' : forall o1, ClientID o1 = ClientID o -> ClientSecret o1 = ClientSecret o ->
                     token_endpoint_fails W' (ClientID o1) (ClientSecret o1)).
  { intros o1 -> ->. unfold token_endpoint_fails. now rewrite Hdo'. }
  split; [|split; [|split]].
  - destruct (empty_token_refresh W o tr resp Hdo Hcode Htok) as (e & tr' & Hrun & _).
    exists e. now rewrite Hrun.
  - destruct (token_endpoint_fails_refresh W' o tr (Hfail' o eq_refl eq_refl))
      as (e & tr' & Hrun & _).
    exists e. now rewrite Hrun.
  - destruct (empty_token_refresh W
                {| Token := ""; ClientID := ClientID o; ClientSecret := ClientSecret o |}
                tr resp Hdo Hcode Htok) as (e & tr' & Hrun & _).
    exists e. now rewrite (failed_refresh_NewSpotify _ _ _ _ _ _ _ Hrun).
  - destruct (token_endpoint_fails_refresh W'
                {| Token := ""; ClientID := ClientID o; ClientSecret := ClientSecret o |}
                tr (Hfail' _ eq_refl eq_refl)) as (e & tr' & Hrun & _).
    exists e. now rewrite (failed_refresh_NewSpotify _ _ _ _ _ _ _ Hrun).
Qed.

Lemma refreshSpotifyToken_empty_token_as_non_200_witness :
  let o := {| Token := ""; ClientID := "id0"; ClientSecret := "secret0" |} in
  AccessToken (json_Unmarshal_token world_empty_token body_empty_token) = ""
  /\ AccessToken (json_Unmarshal_token world_no_member "{}") = ""
  /\ (exists e, fst (refreshSpotifyToken world_empty_token o [])
                = Returned (("", Some e), o))
  /\ (exists e, fst (refreshSpotifyToken world_no_member o [])
                = Returned (("", Some e), o))
  /\ (exists e', fst (refreshSpotifyToken world_unauthorized o [])
                 = Returned (("", Some e'), o)).
Proof.
  cbn zeta. split; [reflexivity|]. split; [reflexivity|].
  pose proof (refreshSpotifyToken_empty_token_as_non_200
                world_empty_token world_unauthorized
                {| Token := ""; ClientID := "id0"; ClientSecret := "secret0" |} []
                {| StatusCode := 200; Body := body_empty_token |}
                {| StatusCode := 401; Body := "" |}
                eq_refl eq_refl eq_refl eq_refl ltac:(discriminate)) as (H1 & H2 & _).
  pose proof (refreshSpotifyToken_empty_token_as_non_200
                world_no_member world_unauthorized
                {| Token := ""; ClientID := "id0"; ClientSecret := "secret0" |} []
                {| StatusCode := 200; Body := "{}" |}
                {| StatusCode := 401; Body := "" |}
                eq_refl eq_refl eq_refl eq_refl ltac:(discriminate)) as (H3 & _).
  repeat split; assumption.
Defined.

(** C5. When the token endpoint answers with a transport error or a
    status other than 200, [NewSpotify] returns the nil client with an
    error and sends no resource request; [main], given such an endpoint,
    panics with that error before any resource request. *)
Theorem NewSpotify_no_client_without_token
    (W : World) (clientID clientSecret : string) (tr : list event) :
  token_endpoint_fails W clientID clientSecret ->
  (exists e tr',
      NewSpotify W clientID clientSecret tr = (Returned (None, Some e), tr')
      /\ fetches tr' = fetches tr)
  /\ (forall data config,
         ioutil_ReadFile W "config.toml" = (data, None) ->
         toml_Load W data = (config, None) ->
         config "spotify.client_id" = Some clientID ->
         config "spotify.client_secret" = Some clientSecret ->
         exists e tr',
           main W [] = (Panicked (Error e), tr') /\ fetches tr' = []).
Proof.
  intros Hfail.
  assert (Hnew : forall tr0, exists e tr',
             NewSpotify W clientID clientSecret tr0 = (Returned (None, Some e), tr')
             /\ fetches tr' = fetches tr0).
  { intros tr0.
    destruct (token_endpoint_fails_refresh W
                {| Token := ""; ClientID := clientID; ClientSecret := clientSecret |}
                tr0 Hfail) as (e & tr' & Hrun & Hfetch).
    exists e, (tr' ++ [Logged "Unable to get token for API access."]).
    split; [now apply failed_refresh_NewSpotify in Hrun|].
    now rewrite fetches_app_log. }
  split; [apply Hnew|].
  intros data config Hread Hload Hid Hsecret.
  destruct (Hnew ([] ++ [Logged "clientID: "])) as (e & tr' & Hrun & Hfetch).
  exists e, tr'. split; [|exact Hfetch].
  unfold main, Get_string. rewrite Hread, Hload, Hid, Hsecret.
  run_prog. now rewrite Hrun.
Qed.

Lemma NewSpotify_no_client_without_token_witness :
  token_endpoint_fails world_unauthorized "id0" "secret0"
  /\ (exists e tr',
         NewSpotify world_unauthorized "id0" "secret0" []
         = (Returned (None, Some e), tr')
         /\ fetches tr' = fetches [])
  /\ (exists e tr',
         main world_unauthorized [] = (Panicked (Error e), tr') /\ fetches tr' = []).
Proof.
  assert (Hfail : token_endpoint_fails world_unauthorized "id0" "secret0")
    by (cbn; discriminate).
  destruct (NewSpotify_no_client_without_token world_unauthorized "id0" "secret0" [] Hfail)
    as (Hnew & Hmain).
  split; [exact Hfail|]. split; [exact Hnew|].
  apply (Hmain "[spotify]"
           (fun key =>
              if String.eqb key "spotify.client_id" then Some "id0"
              else if String.eqb key "spotify.client_secret" then Some "secret0"
              else None)); reflexivity.
Defined.

(** * Further properties of the client *)

Ltac fetch_eq :=
  unfold fetch_result, http_NewRequest;
  destruct (http_NewRequest_err _ _ _) as [?|]; [reflexivity|];
  run_prog;
  match goal with
  | |- context [getToken ?W ?o ?tr] =>
      destruct (getToken W o tr) as [[[[? [?|]] ?]|?] ?]; try reflexivity
  end;
  unfold Header_Add, getRequest; cbn [req_Method req_URL req_Body req_BasicAuth
                                       req_Header app];
  match goal with
  | |- context [http_Do ?W ?r] => destruct (http_Do W r) as [?|?]; [|reflexivity]
  end;
  match goal with
  | |- context [(StatusCode ?r =? 200)%Z] =>
      destruct (StatusCode r =? 200)%Z; [|reflexivity]
  end;
  cbn [negb];
  match goal with
  | |- context [let '(_, _) := ?d in _] => destruct d as [? [?|]]; reflexivity
  end.

Lemma PlaylistFromID_eq (W : World) (o : Spotify) (ID : string) (tr : list event) :
  PlaylistFromID W o ID tr
  = fetch_result W ("https://api.spotify.com/v1/playlists/" +:+ ID)
      "error making call to spotify to get playlist information"
      zero_SpotifyPlaylist (json_Unmarshal_playlist W) o tr.
Proof. unfold PlaylistFromID. fetch_eq. Qed.

Lemma ListRevision_PlaylistFromID_eq
    (W : World) (o : Spotify) (ID : string) (tr : list event) :
  ListRevisionClient.PlaylistFromID W o ID tr
  = fetch_result W ("https://api.spotify.com/v1/playlists/" +:+ ID)
      "error making call to spotify to get album information"
      zero_SpotifyPlaylist (json_Unmarshal_playlist W) o tr.
Proof. unfold ListRevisionClient.PlaylistFromID. fetch_eq. Qed.

Lemma TrackFromID_eq (W : World) (decode : string -> SpotifyTrack * option error)
    (o : Spotify) (ID : string) (tr : list event) :
  TrackFromID W decode o ID tr
  = fetch_result W ("https://api.spotify.com/v1/tracks/" +:+ ID)
      ("error making call to spotify to get track information : " +:+ ID)
      zero_SpotifyTrack decode o tr.
Proof. unfold TrackFromID. fetch_eq. Qed.

Lemma AlbumFromID_eq (W : World) (decode : string -> SpotifyAlbum * option error)
    (o : Spotify) (ID : string) (tr : list event) :
  AlbumFromID W decode o ID tr
  = fetch_result W ("https://api.spotify.com/v1/albums/" +:+ ID)
      "error making call to spotify to get album information"
      zero_SpotifyAlbum decode o tr.
Proof. unfold AlbumFromID. fetch_eq. Qed.

Lemma fetcher_eq (W : World) (o : Spotify) (ID : string) (A : Type)
    (url failmsg : string) (zero : A) (decode : string -> A * option error)
    (F : Prog ((A * option error) * Spotify)) (tr : list event) :
  fetcher W o ID A url failmsg zero decode F ->
  F tr = fetch_result W url failmsg zero decode o tr.
Proof.
  intros [decode'|decode'| |].
  - apply TrackFromID_eq.
  - apply AlbumFromID_eq.
  - apply PlaylistFromID_eq.
  - apply ListRevision_PlaylistFromID_eq.
Qed.

Lemma nonempty_ltb (s : string) : (0 <? String.length s)%nat = true <-> s <> "".
Proof. destruct s; cbn; split; congruence. Qed.

Lemma getToken_cached (W : World) (o : Spotify) (tr : list event) :
  Token o <> "" -> getToken W o tr = (Returned ((Token o, None), o), tr).
Proof.
  intros Hne. unfold getToken. apply nonempty_ltb in Hne. now rewrite Hne.
Qed.

Lemma getToken_empty (W : World) (o : Spotify) (tr : list event) :
  Token o = "" -> getToken W o tr = refreshSpotifyToken W o tr.
Proof. intros He. unfold getToken. now rewrite He. Qed.

Lemma printed_app (tr1 tr2 : list event) :
  printed (tr1 ++ tr2) = printed tr1 ++ printed tr2.
Proof. unfold printed. apply omap_app. Qed.

Lemma sent_app (tr1 tr2 : list event) : sent (tr1 ++ tr2) = sent tr1 ++ sent tr2.
Proof. unfold sent. apply omap_app. Qed.

Lemma fetches_app (tr1 tr2 : list event) :
  fetches (tr1 ++ tr2) = fetches tr1 ++ fetches tr2.
Proof. unfold fetches. apply filter_app. Qed.

(** The three ways [getToken] ends: with the token the client holds,
    with a new token stored in the client, or with an error. *)
Lemma getToken_cases (W : World) (o : Spotify) (tr : list event) :
  (Token o <> "" /\ getToken W o tr = (Returned ((Token o, None), o), tr))
  \/ (Token o = ""
      /\ exists resp,
          let token := AccessToken (json_Unmarshal_token W (Body resp)) in
          http_NewRequest_err W "POST" "https://accounts.spotify.com/api/token" = None
          /\ http_Do W (tokenRequest (ClientID o) (ClientSecret o)) = inl resp
          /\ StatusCode resp = 200%Z
          /\ token <> ""
          /\ getToken W o tr
             = (Returned ((token, None), set_Token o token),
                tr ++ [Sent None (tokenRequest (ClientID o) (ClientSecret o))]))
  \/ (Token o = ""
      /\ exists e tr2,
          getToken W o tr = (Returned (("", Some e), o), tr ++ tr2)
          /\ printed tr2 = [] /\ fetches tr2 = []
          /\ sublist (sent tr2) [(None, tokenRequest (ClientID o) (ClientSecret o))]).
Proof.
  destruct (string_dec (Token o) "") as [He|Hne].
  2: { left. split; [exact Hne|]. now apply getToken_cached. }
  right. rewrite (getToken_empty W o tr He), refreshSpotifyToken_eq.
  destruct (http_NewRequest_err W _ _) as [err|].
  { right. split; [exact He|]. eexists _, _. split; [reflexivity|].
    repeat split. apply sublist_nil_l. }
  cbn zeta.
  destruct (http_Do W _) as [resp|err] eqn:Hdo.
  - destruct (StatusCode resp =? 200)%Z eqn:Hcode.
    + destruct (String.eqb _ "") eqn:Htok.
      * right. split; [exact He|]. eexists _, _.
        rewrite <- app_assoc. split; [reflexivity|].
        repeat split. cbn. reflexivity.
      * left. split; [exact He|]. exists resp. cbn zeta.
        apply Z.eqb_eq in Hcode. apply String.eqb_neq in Htok.
        repeat split; auto.
    + right. split; [exact He|]. eexists _, _.
      rewrite <- app_assoc. split; [reflexivity|].
      repeat split. cbn. reflexivity.
  - right. split; [exact He|]. eexists _, _.
    rewrite <- app_assoc. split; [reflexivity|].
    repeat split. cbn. reflexivity.
Qed.

(** The case split behind the statements on fetchers: the request is
    not built; the token is held, is fetched, or is not to be had; the
    reply is a transport error, a status other than 200, or a body that
    decodes with or without an error. *)
Ltac fetch_reply :=
  cbn zeta;
  match goal with
  | |- context [http_Do ?W (getRequest ?url ?token)] =>
      let Hget := fresh "Hget" in
      destruct (http_Do W (getRequest url token)) as [?reply|?] eqn:Hget
  end;
  [ match goal with
    | |- context [(StatusCode ?r =? 200)%Z] =>
        let Hstatus := fresh "Hstatus" in
        destruct (StatusCode r =? 200)%Z eqn:Hstatus;
        [ apply Z.eqb_eq in Hstatus;
          match goal with
          | |- context [match ?d with pair _ _ => _ end] =>
              let Hdec := fresh "Hdec" in
              destruct d as [?a [?derr|]] eqn:Hdec
          end
        | apply Z.eqb_neq in Hstatus ]
    end
  | ].

Ltac fetch_cases W o tr :=
  unfold fetch_result;
  let Hnew := fresh "Hnew" in
  destruct (http_NewRequest_err W "GET" _) as [?nerr|] eqn:Hnew;
  [ | let Hne := fresh "Hne" in
      let He := fresh "He" in
      let Hrun := fresh "Hrun" in
      destruct (getToken_cases W o tr)
        as [[Hne Hrun]
           |[[He (?resp & ?Hpost & ?Hdo & ?Hcode & ?Htok & Hrun)]
            |[He (?e & ?tr2 & Hrun & ?Hpr & ?Hfe & ?Hse)]]];
      cbn zeta in Hrun; rewrite Hrun; [fetch_reply | fetch_reply | ] ].

(** ** The token *)

(** X10. [refreshSpotifyToken] returns without an error exactly when the
    token request is built, the token endpoint answers it with status 200
    and the decoded access token is not empty; the token is then the
    decoded one, it is stored in the client, and the token request is
    the one event added to the trace. *)
Theorem refreshSpotifyToken_succeeds_iff
    (W : World) (o o' : Spotify) (tr tr' : list event) (token : string) :
  refreshSpotifyToken W o tr = (Returned ((token, None), o'), tr')
  <-> (http_NewRequest_err W "POST" "https://accounts.spotify.com/api/token" = None
       /\ (exists resp,
              http_Do W (tokenRequest (ClientID o) (ClientSecret o)) = inl resp
              /\ StatusCode resp = 200%Z
              /\ AccessToken (json_Unmarshal_token W (Body resp)) = token)
       /\ token <> ""
       /\ o' = set_Token o token
       /\ tr' = tr ++ [Sent None (tokenRequest (ClientID o) (ClientSecret o))]).
Proof.
  rewrite refreshSpotifyToken_eq. split.
  - destruct (http_NewRequest_err W _ _) as [err|]; [discriminate|].
    cbn zeta.
    destruct (http_Do W _) as [resp|err]; [|discriminate].
    destruct (StatusCode resp =? 200)%Z eqn:Hcode; [|discriminate].
    destruct (String.eqb _ "") eqn:Htok; [discriminate|].
    intros [= <- <- <-].
    apply Z.eqb_eq in Hcode. apply String.eqb_neq in Htok.
    repeat split; eauto.
  - intros (-> & (resp & -> & Hcode & Htok) & Hne & -> & ->).
    cbn zeta. rewrite Hcode, Htok. cbn.
    apply String.eqb_neq in Hne. now rewrite Hne.
Qed.

Lemma refreshSpotifyToken_succeeds_iff_witness :
  refreshSpotifyToken world_ok clientWithoutToken []
  = (Returned (("BQD1", None), clientWithToken),
     [Sent None (tokenRequest "id0" "secret0")]).
Proof.
  apply (proj2 (refreshSpotifyToken_succeeds_iff
                  world_ok clientWithoutToken clientWithToken
                  [] [Sent None (tokenRequest "id0" "secret0")] "BQD1")).
  repeat split; [|discriminate].
  exists {| StatusCode := 200; Body := body_token |}. repeat split.
Defined.

(** The two ways [NewSpotify] ends. *)
Lemma NewSpotify_cases (W : World) (clientID clientSecret : string) (tr : list event) :
  (exists resp,
      let token := AccessToken (json_Unmarshal_token W (Body resp)) in
      http_NewRequest_err W "POST" "https://accounts.spotify.com/api/token" = None
      /\ http_Do W (tokenRequest clientID clientSecret) = inl resp
      /\ StatusCode resp = 200%Z
      /\ token <> ""
      /\ NewSpotify W clientID clientSecret tr
         = (Returned
              (Some {| Token := token; ClientID := clientID; ClientSecret := clientSecret |},
               None),
            tr ++ [Sent None (tokenRequest clientID clientSecret)]))
  \/ (exists e tr2,
        NewSpotify W clientID clientSecret tr
        = (Returned (None, Some e),
           tr ++ tr2 ++ [Logged "Unable to get token for API access."])
        /\ printed tr2 = [] /\ fetches tr2 = []).
Proof.
  rewrite NewSpotify_eq. cbn zeta.
  set (sp := {| Token := ""; ClientID := clientID; ClientSecret := clientSecret |}).
  rewrite <- (getToken_empty W sp tr eq_refl).
  destruct (getToken_cases W sp tr)
    as [[Hne _]|[[_ (resp & Hpost & Hdo & Hcode & Htok & ->)]
                |[_ (e & tr2 & -> & Hpr & Hfe & _)]]].
  - now contradiction Hne.
  - left. exists resp. cbn zeta. now repeat split.
  - right. exists e, tr2. rewrite <- app_assoc. now repeat split.
Qed.

(** X11. [NewSpotify] never panics and returns either a client or an
    error, never both and never neither.  A returned client holds the
    given credentials and a token that is not empty, and the token
    request is all that was added to the trace; with an error, no
    resource was fetched and the last log line says that no token was
    to be had. *)
Theorem NewSpotify_client_or_error
    (W : World) (clientID clientSecret : string) (tr : list event) :
  exists tr2,
    (exists sp,
        NewSpotify W clientID clientSecret tr = (Returned (Some sp, None), tr ++ tr2)
        /\ Token sp <> "" /\ ClientID sp = clientID /\ ClientSecret sp = clientSecret
        /\ tr2 = [Sent None (tokenRequest clientID clientSecret)])
    \/ (exists e,
          NewSpotify W clientID clientSecret tr = (Returned (None, Some e), tr ++ tr2)
          /\ fetches tr2 = [] /\ printed tr2 = []
          /\ last tr2 = Some (Logged "Unable to get token for API access.")).
Proof.
  destruct (NewSpotify_cases W clientID clientSecret tr)
    as [(resp & _ & _ & _ & Htok & ->)|(e & tr2 & -> & Hpr & Hfe)].
  - eexists. left. eexists. split; [reflexivity|]. now repeat split.
  - exists (tr2 ++ [Logged "Unable to get token for API access."]).
    right. exists e. split; [reflexivity|].
    rewrite fetches_app, printed_app, Hpr, Hfe, last_snoc. now repeat split.
Qed.

(** ** The fetchers *)

(** X12. A fetcher never panics and only extends the trace; it prints
    nothing; it leaves the client as it was or stores a token where
    there was none; and it sends at most the token request, without a
    timeout, and after it at most one GET request for its URL, with the
    client's token as bearer and a timeout of 15 seconds. *)
Theorem fetchers_keep_the_client
    (W : World) (o : Spotify) (ID : string) (A : Type) (url failmsg : string)
    (zero : A) (decode : string -> A * option error)
    (F : Prog ((A * option error) * Spotify)) (tr : list event) :
  fetcher W o ID A url failmsg zero decode F ->
  exists v err o' tr2,
    F tr = (Returned ((v, err), o'), tr ++ tr2)
    /\ client_step o o'
    /\ printed tr2 = []
    /\ sublist (sent tr2)
         [ (None, tokenRequest (ClientID o) (ClientSecret o));
           (Some 15%Z, getRequest url (Token o')) ].
Proof.
  intros HF. rewrite (fetcher_eq _ _ _ _ _ _ _ _ _ tr HF).
  fetch_cases W o tr.
  all: rewrite <- ?app_assoc; eexists _, _, _, _; split; [reflexivity|].
  all: split; [first [now left | right; now repeat split]|].
  all: rewrite ?printed_app, ?sent_app, ?Hpr; cbn; split; [reflexivity|].
  all: try (repeat constructor; fail).
  rewrite app_nil_r.
  change [?a; ?b] with ([a] ++ [b]). now apply sublist_inserts_r.
Qed.

Lemma fetchers_keep_the_client_witness :
  exists v err o' tr2,
    PlaylistFromID world_ok clientWithoutToken "abc123" []
    = (Returned ((v, err), o'), [] ++ tr2)
    /\ client_step clientWithoutToken o'
    /\ printed tr2 = []
    /\ sublist (sent tr2)
         [ (None, tokenRequest "id0" "secret0");
           (Some 15%Z,
            getRequest ("https://api.spotify.com/v1/playlists/" +:+ "abc123") (Token o')) ].
Proof.
  exact (fetchers_keep_the_client world_ok clientWithoutToken "abc123" _ _ _ _ _ _ []
           (fetcher_PlaylistFromID world_ok clientWithoutToken "abc123")).
Defined.

(** X13. A client that holds a token is not changed by a fetcher and
    the token is not requested again: the one request is the GET with
    the held token, and not even that is sent when the request cannot
    be built. *)
Theorem fetchers_reuse_the_token
    (W : World) (o : Spotify) (ID : string) (A : Type) (url failmsg : string)
    (zero : A) (decode : string -> A * option error)
    (F : Prog ((A * option error) * Spotify)) (tr : list event) :
  fetcher W o ID A url failmsg zero decode F ->
  Token o <> "" ->
  getToken W o tr = (Returned ((Token o, None), o), tr)
  /\ exists r tr2,
      F tr = (Returned (r, o), tr ++ tr2)
      /\ sent tr2
         = match http_NewRequest_err W "GET" url with
           | None => [(Some 15%Z, getRequest url (Token o))]
           | Some _ => []
           end.
Proof.
  intros HF Hheld. split; [now apply getToken_cached|].
  rewrite (fetcher_eq _ _ _ _ _ _ _ _ _ tr HF).
  fetch_cases W o tr; try contradiction.
  all: rewrite <- ?app_assoc; eexists _, _; split; reflexivity.
Qed.

Lemma fetchers_reuse_the_token_witness :
  getToken world_ok clientWithToken []
  = (Returned ((Token clientWithToken, None), clientWithToken), [])
  /\ exists r tr2,
      AlbumFromID world_ok (fun _ => (albumWithCovers, None)) clientWithToken "al1" []
      = (Returned (r, clientWithToken), [] ++ tr2)
      /\ sent tr2
         = match http_NewRequest_err world_ok "GET"
                   ("https://api.spotify.com/v1/albums/" +:+ "al1") with
           | None =>
               [(Some 15%Z,
                 getRequest ("https://api.spotify.com/v1/albums/" +:+ "al1")
                   (Token clientWithToken))]
           | Some _ => []
           end.
Proof.
  apply (fetchers_reuse_the_token world_ok clientWithToken "al1" _ _ _ _ _ _ []
           (fetcher_AlbumFromID world_ok clientWithToken "al1"
              (fun _ => (albumWithCovers, None)))).
  discriminate.
Defined.

(** X14. What a fetcher returns without an error, and whatever it
    returns other than the zero value, was decoded from the body of a
    reply with status 200 to its GET request, sent with the token the
    client holds afterwards; the error returned with it is the
    decoder's. *)
Theorem fetchers_sound
    (W : World) (o o' : Spotify) (ID : string) (A : Type) (url failmsg : string)
    (zero : A) (decode : string -> A * option error)
    (F : Prog ((A * option error) * Spotify)) (tr tr' : list event)
    (v : A) (err : option error) :
  fetcher W o ID A url failmsg zero decode F ->
  F tr = (Returned ((v, err), o'), tr') ->
  err = None \/ v <> zero ->
  exists resp,
    Token o' <> ""
    /\ http_Do W (getRequest url (Token o')) = inl resp
    /\ StatusCode resp = 200%Z
    /\ decode (Body resp) = (v, err)
    /\ In (Sent (Some 15%Z) (getRequest url (Token o'))) tr'.
Proof.
  intros HF. rewrite (fetcher_eq _ _ _ _ _ _ _ _ _ tr HF).
  fetch_cases W o tr.
  all: intros [= <- <- <- <-] [Hok|Hv]; try discriminate Hok;
    try (now contradiction Hv).
  all: exists reply; cbn [Token set_Token]; repeat split; try assumption.
  all: rewrite ?in_app_iff; cbn; tauto.
Qed.

Lemma fetchers_sound_witness :
  exists resp,
    Token clientWithToken <> ""
    /\ http_Do world_ok
         (getRequest ("https://api.spotify.com/v1/playlists/" +:+ "abc123")
            (Token clientWithToken)) = inl resp
    /\ StatusCode resp = 200%Z
    /\ json_Unmarshal_playlist world_ok (Body resp) = (roadTrip, None)
    /\ In (Sent (Some 15%Z)
             (getRequest ("https://api.spotify.com/v1/playlists/" +:+ "abc123")
                (Token clientWithToken)))
          [Sent None (tokenRequest "id0" "secret0");
           Sent (Some 15%Z)
             (getRequest ("https://api.spotify.com/v1/playlists/" +:+ "abc123") "BQD1")].
Proof.
  apply (fetchers_sound world_ok clientWithoutToken clientWithToken "abc123"
           _ _ _ _ _ _ [] _ roadTrip None
           (fetcher_PlaylistFromID world_ok clientWithoutToken "abc123")).
  - reflexivity.
  - now left.
Defined.

(** X15. A fetcher whose client cannot get a token returns the zero
    value and an error, leaves the client as it was and fetches no
    resource; when its own request was built, the error is the one
    [getToken] gave. *)
Theorem fetchers_need_a_token
    (W : World) (o o1 : Spotify) (ID : string) (A : Type) (url failmsg : string)
    (zero : A) (decode : string -> A * option error)
    (F : Prog ((A * option error) * Spotify)) (tr tr1 : list event)
    (token : string) (e : error) :
  fetcher W o ID A url failmsg zero decode F ->
  getToken W o tr = (Returned ((token, Some e), o1), tr1) ->
  exists e' tr2,
    F tr = (Returned ((zero, Some e'), o), tr ++ tr2)
    /\ fetches tr2 = []
    /\ (http_NewRequest_err W "GET" url = None -> e' = e).
Proof.
  intros HF Htoken. rewrite (fetcher_eq _ _ _ _ _ _ _ _ _ tr HF).
  fetch_cases W o tr.
  - eexists _, _. split; [reflexivity|]. split; [reflexivity|discriminate].
  - rewrite Htoken in Hrun. discriminate Hrun.
  - rewrite Htoken in Hrun. discriminate Hrun.
  - rewrite Htoken in Hrun. discriminate Hrun.
  - rewrite Htoken in Hrun. discriminate Hrun.
  - rewrite Htoken in Hrun. discriminate Hrun.
  - rewrite Htoken in Hrun. discriminate Hrun.
  - rewrite Htoken in Hrun. discriminate Hrun.
  - rewrite Htoken in Hrun. discriminate Hrun.
  - rewrite Htoken in Hrun. injection Hrun as -> -> -> ->.
    rewrite <- app_assoc. eexists _, _. split; [reflexivity|].
    rewrite fetches_app, Hfe. now split.
Qed.

Lemma fetchers_need_a_token_witness :
  exists e' tr2,
    TrackFromID world_unauthorized (fun _ => (songA, None)) clientWithoutToken "t1" []
    = (Returned ((zero_SpotifyTrack, Some e'), clientWithoutToken), [] ++ tr2)
    /\ fetches tr2 = []
    /\ (http_NewRequest_err world_unauthorized "GET"
          ("https://api.spotify.com/v1/tracks/" +:+ "t1") = None ->
        e' = errors_New "spotify token error").
Proof.
  apply (fetchers_need_a_token world_unauthorized clientWithoutToken clientWithoutToken
           "t1" _ _ _ _ _ _ []
           [Sent None (tokenRequest "id0" "secret0");
            Logged "Error hitting spotify to refresh token"]
           "" (errors_New "spotify token error")
           (fetcher_TrackFromID world_unauthorized clientWithoutToken "t1"
              (fun _ => (songA, None)))).
  reflexivity.
Defined.

(** X16. With a token held and the request built, a transport error or
    a status other than 200 makes the fetcher return the zero value and
    an error with the fetcher's own message, which for [TrackFromID]
    ends in the track's id and for [PlaylistFromID] of the revision with
    the artist list is that of [AlbumFromID]; the body of the reply is
    not decoded. *)
Theorem fetchers_report_http_failure
    (W : World) (o : Spotify) (ID : string) (A : Type) (url failmsg : string)
    (zero : A) (decode : string -> A * option error)
    (F : Prog ((A * option error) * Spotify)) (tr : list event) :
  fetcher W o ID A url failmsg zero decode F ->
  Token o <> "" ->
  http_NewRequest_err W "GET" url = None ->
  resource_endpoint_fails W url (Token o) ->
  exists line,
    F tr = (Returned ((zero, Some (errors_New failmsg)), o),
            tr ++ [Sent (Some 15%Z) (getRequest url (Token o)); Logged line]).
Proof.
  intros HF Hheld Hbuilt Hfails. rewrite (fetcher_eq _ _ _ _ _ _ _ _ _ tr HF).
  unfold resource_endpoint_fails in Hfails.
  fetch_cases W o tr; try contradiction; try discriminate Hbuilt.
  all: rewrite <- ?app_assoc; eexists; reflexivity.
Qed.

Lemma fetchers_report_http_failure_witness :
  exists line,
    ListRevisionClient.PlaylistFromID world_not_found clientWithToken "abc123" []
    = (Returned
         ((zero_SpotifyPlaylist,
           Some (errors_New "error making call to spotify to get album information")),
          clientWithToken),
       [] ++ [Sent (Some 15%Z)
                (getRequest ("https://api.spotify.com/v1/playlists/" +:+ "abc123")
                   (Token clientWithToken));
              Logged line]).
Proof.
  apply (fetchers_report_http_failure world_not_found clientWithToken "abc123"
           _ _ _ _ _ _ []
           (fetcher_ListRevision_PlaylistFromID world_not_found clientWithToken "abc123")).
  - discriminate.
  - reflexivity.
  - cbn. discriminate.
Defined.

(** X17. With a token held and the request built, a reply with status
    200 makes the fetcher return what the decoder gives for its body,
    value and error alike: a decoding error comes with the value as far
    as it was decoded, not with the zero value. *)
Theorem fetchers_return_the_decoded
    (W : World) (o : Spotify) (ID : string) (A : Type) (url failmsg : string)
    (zero : A) (decode : string -> A * option error)
    (F : Prog ((A * option error) * Spotify)) (tr : list event) (resp : Response) :
  fetcher W o ID A url failmsg zero decode F ->
  Token o <> "" ->
  http_NewRequest_err W "GET" url = None ->
  http_Do W (getRequest url (Token o)) = inl resp ->
  StatusCode resp = 200%Z ->
  fst (F tr) = Returned (decode (Body resp), o).
Proof.
  intros HF Hheld Hbuilt Hreply Hok. rewrite (fetcher_eq _ _ _ _ _ _ _ _ _ tr HF).
  fetch_cases W o tr; try contradiction; try discriminate Hbuilt.
  all: try discriminate Hreply.
  all: injection Hreply as <-; try contradiction.
  all: now rewrite Hdec.
Qed.

Lemma fetchers_return_the_decoded_witness :
  fst (PlaylistFromID world_bad_json clientWithToken "abc123" [])
  = Returned (json_Unmarshal_playlist world_bad_json body_token, clientWithToken).
Proof.
  apply (fetchers_return_the_decoded world_bad_json clientWithToken "abc123"
           _ _ _ _ _ _ [] {| StatusCode := 200; Body := body_token |}
           (fetcher_PlaylistFromID world_bad_json clientWithToken "abc123")).
  - discriminate.
  - reflexivity.
  - reflexivity.
  - reflexivity.
Defined.

(** X18. The two revisions of [PlaylistFromID] send the same requests,
    log the same leading messages, leave the same client and return the
    same playlist; they return the same error too, except for an HTTP
    failure, which the revision with the artist list reports as a
    failure to get album information. *)
Theorem PlaylistFromID_revisions_differ_in_message
    (W : World) (o : Spotify) (ID : string) (tr : list event) :
  exists playlist err err' o' tr',
    PlaylistFromID W o ID tr = (Returned ((playlist, err), o'), tr')
    /\ ListRevisionClient.PlaylistFromID W o ID tr
       = (Returned ((playlist, err'), o'), tr')
    /\ (err' = err
        \/ (playlist = zero_SpotifyPlaylist
            /\ err = Some (errors_New
                             "error making call to spotify to get playlist information")
            /\ err' = Some (errors_New
                              "error making call to spotify to get album information"))).
Proof.
  rewrite PlaylistFromID_eq, ListRevision_PlaylistFromID_eq.
  fetch_cases W o tr.
  all: eexists _, _, _, _, _; split; [reflexivity|].
  all: unfold fetch_result; rewrite ?Hnew, ?Hrun; cbn zeta;
    rewrite ?Hget, ?Hdec; rewrite ?Hstatus, ?Z.eqb_refl;
    try (apply Z.eqb_neq in Hstatus; rewrite Hstatus).
  all: split; [reflexivity|]; first [now left | now right].
Qed.

(** ** The entry point *)

Lemma main_no_credentials (W : World) (tr : list event) :
  credentials W = None -> exists v, main W tr = (Panicked v, tr).
Proof.
  unfold credentials, main.
  destruct (ioutil_ReadFile W "config.toml") as [tomlData [err|]].
  { intros _. now eexists. }
  destruct (toml_Load W tomlData) as [config [err|]].
  { intros _. now eexists. }
  unfold Get_string. run_prog.
  destruct (config "spotify.client_id") as [clientID|].
  2: { intros _. now eexists. }
  destruct (config "spotify.client_secret") as [clientSecret|].
  { discriminate. }
  intros _. now eexists.
Qed.

Lemma main_eq (W : World) (tr : list event) (clientID clientSecret : string) :
  credentials W = Some (clientID, clientSecret) ->
  main W tr =
  match NewSpotify W clientID clientSecret (tr ++ [Logged "clientID: "]) with
  | (Returned (_, Some e), tr1) => (Panicked (Error e), tr1)
  | (Returned (None, None), tr1) =>
      (Panicked "invalid memory address or nil pointer dereference", tr1)
  | (Returned (Some sp, None), tr1) =>
      match PlaylistFromID W sp (flag_playlist W) tr1 with
      | (Returned ((playlist, Some e), _), tr2) => (Panicked (Error e), tr2)
      | (Returned ((playlist, None), _), tr2) =>
          (Returned tt, tr2 ++ [Printed (StringVariant.ConvertToMusicPlaylist playlist)])
      | (Panicked v, tr2) => (Panicked v, tr2)
      end
  | (Panicked v, tr1) => (Panicked v, tr1)
  end.
Proof.
  unfold credentials, main.
  destruct (ioutil_ReadFile W "config.toml") as [tomlData [err|]]; [discriminate|].
  destruct (toml_Load W tomlData) as [config [err|]]; [discriminate|].
  unfold Get_string. run_prog.
  destruct (config "spotify.client_id") as [id|]; [|discriminate].
  destruct (config "spotify.client_secret") as [secret|]; [|discriminate].
  intros [= -> ->].
  destruct (NewSpotify W clientID clientSecret _) as [[[[sp|] [e|]]|v] tr1];
    try reflexivity.
  destruct (PlaylistFromID W sp _ tr1) as [[[[playlist [e|]] sp']|v] tr2]; reflexivity.
Qed.







(** X21. When [main] panics it has printed nothing.  Either it had no
    credentials and the trace is as it was, or the panic carries the
    message of the error that [NewSpotify] or, for the client that
    [NewSpotify] returned, [PlaylistFromID] gave: the nil client is
    never dereferenced, and a playlist that comes with a decoding error
    is not printed. *)
Theorem main_panics_without_output (W : World) (tr tr' : list event) (v : string) :
  main W tr = (Panicked v, tr') ->
  printed tr' = printed tr
  /\ ((credentials W = None /\ tr' = tr)
      \/ exists clientID clientSecret e,
           credentials W = Some (clientID, clientSecret)
           /\ v = Error e
           /\ (NewSpotify W clientID clientSecret (tr ++ [Logged "clientID: "])
               = (Returned (None, Some e), tr')
               \/ exists sp tr1 playlist,
                    NewSpotify W clientID clientSecret (tr ++ [Logged "clientID: "])
                    = (Returned (Some sp, None), tr1)
                    /\ PlaylistFromID W sp (flag_playlist W) tr1
                       = (Returned ((playlist, Some e), sp), tr'))).
Proof.
  destruct (credentials W) as [[clientID clientSecret]|] eqn:Hcred.
  2: { destruct (main_no_credentials W tr Hcred) as (v' & ->).
       intros [= <- <-]. split; [reflexivity|]. now left. }
  rewrite (main_eq W tr clientID clientSecret Hcred).
  destruct (NewSpotify_cases W clientID clientSecret (tr ++ [Logged "clientID: "]))
    as [(resp1 & Hpost & Hdo & Hcode & Htok & Hnew)|(e & tr2 & Hnew & Hpr & _)];
    rewrite Hnew.
  2: { intros [= <- <-]. split.
       - rewrite !printed_app, Hpr. cbn. now rewrite !app_nil_r.
       - right. exists clientID, clientSecret, e. repeat split. now left. }
  destruct (PlaylistFromID W _ (flag_playlist W) _)
    as [[[[playlist [e|]] sp']|v'] tr2] eqn:Hfetch; [|discriminate|].
  - intros [= <- <-].
    rewrite PlaylistFromID_eq in Hfetch. revert Hfetch.
    match goal with
    | |- context [fetch_result W _ _ _ _ ?sp ?tr1] => fetch_cases W sp tr1
    end; try (now contradiction Htok); intros [= <- <- <- <-].
    all: split;
      [ rewrite !printed_app; cbn; now rewrite !app_nil_r
      | right; exists clientID, clientSecret; eexists;
        split; [reflexivity|]; split; [reflexivity|]; right;
        eexists _, _, _; split; [first [exact Hnew | reflexivity]|];
        rewrite PlaylistFromID_eq; unfold fetch_result;
        rewrite Hnew0; try rewrite getToken_cached by assumption ].
    all: cbn zeta; cbn [Token] in *; rewrite ?Hget, ?Hdec; try reflexivity.
    all: rewrite ?Hstatus, ?Z.eqb_refl; try reflexivity.
    all: apply Z.eqb_neq in Hstatus; now rewrite Hstatus.
  - exfalso. rewrite PlaylistFromID_eq in Hfetch. revert Hfetch.
    match goal with
    | |- context [fetch_result W _ _ _ _ ?sp ?tr1] => fetch_cases W sp tr1
    end; discriminate.
Qed.

Lemma main_panics_without_output_witness :
  printed [ Logged "clientID: ";
            Sent None (tokenRequest "id0" "secret0");
            Sent (Some 15%Z) (playlistRequest world_bad_json "BQD1");
            Logged "Invalid JSON response from Spotify" ]
  = printed []
  /\ ((credentials world_bad_json = None
       /\ [ Logged "clientID: ";
            Sent None (tokenRequest "id0" "secret0");
            Sent (Some 15%Z) (playlistRequest world_bad_json "BQD1");
            Logged "Invalid JSON response from Spotify" ] = [])
      \/ exists clientID clientSecret e,
           credentials world_bad_json = Some (clientID, clientSecret)
           /\ "json: cannot unmarshal string into Go struct field" = Error e
           /\ (NewSpotify world_bad_json clientID clientSecret ([] ++ [Logged "clientID: "])
               = (Returned (None, Some e),
                  [ Logged "clientID: ";
                    Sent None (tokenRequest "id0" "secret0");
                    Sent (Some 15%Z) (playlistRequest world_bad_json "BQD1");
                    Logged "Invalid JSON response from Spotify" ])
               \/ exists sp tr1 playlist,
                    NewSpotify world_bad_json clientID clientSecret
                      ([] ++ [Logged "clientID: "])
                    = (Returned (Some sp, None), tr1)
                    /\ PlaylistFromID world_bad_json sp (flag_playlist world_bad_json) tr1
                       = (Returned ((playlist, Some e), sp),
                          [ Logged "clientID: ";
                            Sent None (tokenRequest "id0" "secret0");
                            Sent (Some 15%Z) (playlistRequest world_bad_json "BQD1");
                            Logged "Invalid JSON response from Spotify" ]))).
Proof.
  apply (main_panics_without_output world_bad_json [] _
           "json: cannot unmarshal string into Go struct field").
  reflexivity.
Defined.

(** * Properties of the translators, over headers and arrays *)

Import Mem.

Lemma with_store_same (t : ty) v (h : heap) : with_store t v h t = v.
Proof. unfold with_store. destruct t; reflexivity. Qed.

Lemma with_store_other (t t' : ty) v (h : heap) :
  t' <> t -> with_store t v h t' = h t'.
Proof.
  intros Hne. unfold with_store.
  destruct (ty_eq_dec t t') as [e|]; [|reflexivity].
  now contradiction Hne.
Qed.

Lemma index_store_eq (t : ty) (h h' : heap) (s : hslice) (i : nat) :
  h' t = h t -> index t h' s i = index t h s i.
Proof. intros Heq. unfold index. now rewrite Heq. Qed.

Lemma read_store_eq (t : ty) (h h' : heap) (s : hslice) :
  h' t = h t -> read t h' s = read t h s.
Proof.
  intros Heq. unfold read. apply list_omap_ext, Forall2_same_length_lookup.
  split; [reflexivity|]. intros i x y Hx Hy.
  assert (x = y) by congruence. subst y. now apply index_store_eq.
Qed.

Lemma read_prefix (t : ty) (h h' : heap) (s : hslice) :
  h t `prefix_of` h' t -> valid t h s -> read t h' s = read t h s.
Proof.
  intros Hpre Hvalid. unfold read. apply list_omap_ext, Forall2_same_length_lookup.
  split; [reflexivity|]. intros i x y Hx Hy.
  assert (x = y) by congruence. subst y. unfold index.
  destruct (s_base s) as [l|] eqn:Hbase; [|reflexivity].
  specialize (Hvalid l Hbase).
  destruct (lookup_lt_is_Some_2 (h t) l Hvalid) as [arr Harr].
  now rewrite Harr, (prefix_lookup_Some _ _ _ _ Harr Hpre).
Qed.

Lemma read_nil_base (t : ty) (h : heap) (s : hslice) :
  s_base s = None -> read t h s = [].
Proof.
  intros Hbase. unfold read.
  induction (seq 0 (s_len s)) as [|i idx IH]; [reflexivity|].
  cbn. unfold index at 1. now rewrite Hbase.
Qed.

Lemma elems_view_slice {B} (t : ty) (f : El t -> B) (h : heap) (s : hslice) :
  elems (view_slice t f h s) = map f (read t h s).
Proof.
  unfold view_slice. destruct (s_base s) eqn:Hbase; [reflexivity|].
  now rewrite read_nil_base.
Qed.

Lemma view_slice_store_eq {B} (t : ty) (f : El t -> B) (h h' : heap) (s : hslice) :
  h' t = h t -> view_slice t f h' s = view_slice t f h s.
Proof. intros Heq. unfold view_slice. now rewrite (read_store_eq t h h'). Qed.

Lemma valid_prefix (t : ty) (h h' : heap) (s : hslice) :
  h t `prefix_of` h' t -> valid t h s -> valid t h' s.
Proof.
  intros Hpre Hvalid l Hl. specialize (Hvalid l Hl).
  apply prefix_length in Hpre. lia.
Qed.

(** The elements a list holds at positions 0 .. n-1. *)
Lemma omap_lookup_seq {A} (l : list A) (off n : nat) :
  omap (fun i => l !! (off + i)) (seq 0 n) = take n (drop off l).
Proof.
  induction n as [|n IH]; [reflexivity|].
  rewrite seq_S, omap_app, IH. change (0 + n) with n. cbn [omap list_omap].
  destruct (l !! (off + n)) as [x|] eqn:Hx.
  - cbn. symmetry. apply take_S_r. now rewrite lookup_drop.
  - cbn. rewrite app_nil_r.
    apply lookup_ge_None_1 in Hx.
    rewrite !take_ge; [reflexivity| |]; rewrite length_drop; lia.
Qed.

(** *** Loops *)

(** A loop over a slice whose store the body leaves alone visits the
    elements the slice had at the start; an invariant that each turn
    keeps holds at the end for all of them. *)
Lemma for_range_inv {S} (t : ty) (s : hslice) (body : S -> El t -> M S)
    (I : list (El t) -> S -> heap -> Prop) (h0 : heap) (init : S) :
  (forall done x acc h,
      I done acc h -> h t = h0 t ->
      I (done ++ [x]) (fst (body acc x h)) (snd (body acc x h))
      /\ snd (body acc x h) t = h0 t) ->
  I [] init h0 ->
  I (read t h0 s) (fst (for_range t s init body h0)) (snd (for_range t s init body h0))
  /\ snd (for_range t s init body h0) t = h0 t.
Proof.
  intros Hstep Hinit. unfold for_range, read.
  assert (Hgen : forall idx done acc h,
             I done acc h -> h t = h0 t ->
             I (done ++ omap (index t h0 s) idx)
               (fst (iterate t s body idx acc h)) (snd (iterate t s body idx acc h))
             /\ snd (iterate t s body idx acc h) t = h0 t).
  { induction idx as [|i idx IH]; intros done acc h HI Hh.
    - cbn. now rewrite app_nil_r.
    - cbn [iterate omap list_omap]. rewrite (index_store_eq t h0 h s i Hh).
      destruct (index t h0 s i) as [x|].
      + destruct (Hstep done x acc h HI Hh) as [HI' Hh'].
        destruct (body acc x h) as [acc' h'].
        cbn [fst snd] in *.
        replace (done ++ x :: omap (index t h0 s) idx)
          with ((done ++ [x]) ++ omap (index t h0 s) idx)
          by now rewrite <- app_assoc.
        now apply IH.
      + now apply IH. }
  apply (Hgen _ [] init h0 Hinit eq_refl).
Qed.

(** *** Allocation and [append] *)

Lemma read_in_array (t : ty) (h : heap) (s : hslice) (l : nat) (arr : list (El t)) :
  s_base s = Some l -> h t !! l = Some arr ->
  read t h s = take (s_len s) (drop (s_off s) arr).
Proof.
  intros Hbase Harr. rewrite <- omap_lookup_seq. unfold read.
  apply list_omap_ext, Forall2_same_length_lookup.
  split; [reflexivity|]. intros i x y Hx Hy.
  assert (x = y) by congruence. subst y.
  unfold index. now rewrite Hbase, Harr.
Qed.

Lemma prefix_insert_beyond {A} (k m : list A) (l : nat) (a : A) :
  k `prefix_of` m -> length k <= l -> k `prefix_of` <[l := a]> m.
Proof.
  intros [r ->] Hl. rewrite insert_app_r_alt by exact Hl.
  now apply prefix_app_r.
Qed.

Lemma empty_literal_owned (t : ty) (h : heap) :
  owned t h (snd (empty_literal t h)) (fst (empty_literal t h)) []
  /\ (forall t', t' <> t -> snd (empty_literal t h) t' = h t')
  /\ s_base (fst (empty_literal t h)) <> None.
Proof.
  unfold empty_literal. cbn [fst snd]. split; [|split].
  - unfold owned. cbn [s_base s_len s_off s_cap]. rewrite with_store_same.
    split; [reflexivity|]. split; [reflexivity|].
    split; [now apply prefix_app_r|]. split; [reflexivity|].
    exists []. split; [now apply list_lookup_middle | cbn; lia].
  - intros t' Hne. now apply with_store_other.
  - discriminate.
Qed.

Section Append.
Variable growcap : nat -> nat -> nat.

(** Appending to a slice built since [h0] gives such a slice again,
    with the new element last, and writes to no array of [h0] and to
    no store but the slice's own. *)
Lemma append_owned (t : ty) (h0 h : heap) (s : hslice) (xs : list (El t)) (x : El t) :
  owned t h0 h s xs ->
  owned t h0 (snd (append growcap t s x h)) (fst (append growcap t s x h)) (xs ++ [x])
  /\ (forall t', t' <> t -> snd (append growcap t s x h) t' = h t')
  /\ s_base (fst (append growcap t s x h)) <> None.
Proof.
  intros (Hread & Hlen & Hpre & Hbase). unfold append.
  set (c := growcap (s_cap s) (S (s_len s))).
  set (newarr := read t h s ++ x :: replicate (c - S (s_len s)) (zero t)).
  set (grown := ({| s_base := Some (length (h t)); s_off := 0;
                    s_len := S (s_len s); s_cap := c |},
                 with_store t (h t ++ [newarr]) h)).
  assert (Hgrown : owned t h0 (snd grown) (fst grown) (xs ++ [x])
                   /\ (forall t', t' <> t -> snd grown t' = h t')
                   /\ s_base (fst grown) <> None).
  { subst grown. cbn [fst snd]. split; [|split].
    - unfold owned. cbn [s_base s_len s_off s_cap]. rewrite with_store_same.
      assert (Hnew : (h t ++ [newarr]) !! length (h t) = Some newarr)
        by now apply list_lookup_middle.
      split; [|split; [|split; [|split]]].
      + rewrite (read_in_array t _ _ (length (h t)) newarr);
          [|reflexivity|now rewrite with_store_same].
        cbn [s_len s_off]. rewrite drop_0. subst newarr. rewrite Hread.
        rewrite (cons_middle x), app_assoc.
        apply take_app_length'. rewrite length_app. cbn. lia.
      + rewrite length_app. cbn. lia.
      + now apply prefix_app_r.
      + apply prefix_length in Hpre. lia.
      + exists newarr. split; [exact Hnew|].
        subst newarr. rewrite length_app. cbn [length].
        rewrite length_replicate, Hread. lia.
    - intros t' Hne. now apply with_store_other.
    - discriminate. }
  destruct (s_len s <? s_cap s)%nat eqn:Hroom; [|exact Hgrown].
  destruct (s_base s) as [l|] eqn:Hl; [|exact Hgrown].
  destruct (h t !! l) as [arr|] eqn:Harr; [|exact Hgrown].
  apply Nat.ltb_lt in Hroom.
  destruct Hbase as (Hfresh & arr0 & Harr0 & Hcap).
  assert (arr0 = arr) by congruence. subst arr0.
  pose proof (lookup_lt_Some _ _ _ Harr) as Hlt.
  cbn [fst snd]. split; [|split].
  - unfold owned. cbn [s_base s_len s_off s_cap]. rewrite with_store_same.
    assert (Hnew : <[l := <[s_off s + s_len s := x]> arr]> (h t) !! l
                   = Some (<[s_off s + s_len s := x]> arr))
      by now apply list_lookup_insert_eq.
    split; [|split; [|split; [|split]]].
    + rewrite (read_in_array t _ _ l (<[s_off s + s_len s := x]> arr));
        [|reflexivity|now rewrite with_store_same].
      cbn [s_len s_off].
      rewrite (read_in_array t h s l arr Hl Harr) in Hread. subst xs.
      erewrite take_S_r.
      2:{ rewrite lookup_drop. apply list_lookup_insert_eq. lia. }
      f_equal. rewrite drop_insert_ge by lia.
      apply take_insert_ge. lia.
    + rewrite length_app. cbn. lia.
    + now apply prefix_insert_beyond.
    + exact Hfresh.
    + exists (<[s_off s + s_len s := x]> arr). split; [exact Hnew|].
      now rewrite length_insert.
  - intros t' Hne. now apply with_store_other.
  - discriminate.
Qed.

End Append.

Lemma owned_store_eq (t : ty) (h0 h h' : heap) (s : hslice) (xs : list (El t)) :
  h' t = h t -> owned t h0 h s xs -> owned t h0 h' s xs.
Proof.
  intros Heq (Hread & Hlen & Hpre & Hbase). unfold owned.
  rewrite (read_store_eq t h h' s Heq), Heq. repeat split; assumption.
Qed.

Lemma owned_valid (t : ty) (h0 h : heap) (s : hslice) (xs : list (El t)) :
  owned t h0 h s xs -> valid t h s.
Proof.
  intros (_ & _ & _ & Hbase) l Hl. rewrite Hl in Hbase.
  destruct Hbase as (_ & arr & Harr & _). now apply lookup_lt_Some in Harr.
Qed.

(** *** The artist loop of [ConvertToMusicTrack] and [ConvertToMusicAlbum] *)

Section ArtistLoop.
Variable growcap : nat -> nat -> nat.
Context {R : Type} (get : R -> hslice) (set : R -> hslice -> R).
Hypothesis get_set : forall r v, get (set r v) = v.
Hypothesis set_set : forall r v w, set (set r v) w = set r w.
Hypothesis set_get : forall r, set r (get r) = r.

Lemma artists_loop (src : hslice) (r : R) (h0 h : heap) (xs : list MusicArtist)
    (res : R * heap) :
  owned TMusicArtist h0 h (get r) xs ->
  res =
    for_range TArtist src r
      (fun r artist =>
         bind
           (append growcap TMusicArtist (get r)
              {| martist_Name := artist_Name artist;
                 martist_IntegrationID := artist_IntegrationID artist |})
           (fun artists => ret (set r artists))) h ->
  exists s',
    fst res = set r s'
    /\ owned TMusicArtist h0 (snd res) s' (xs ++ map toMusicArtist (read TArtist h src))
    /\ (forall t, t <> TMusicArtist -> snd res t = h t)
    /\ (s_base (get r) <> None -> s_base s' <> None).
Proof.
  intros Howned ->.
  match goal with
  | |- context [for_range TArtist src r ?b h] => set (body := b)
  end.
  pose (I := fun (done : list (El TArtist)) (acc : R) (hh : heap) =>
               exists s',
                 acc = set r s'
                 /\ owned TMusicArtist h0 hh s' (xs ++ map toMusicArtist done)
                 /\ (forall t, t <> TMusicArtist -> hh t = h t)
                 /\ (s_base (get r) <> None -> s_base s' <> None)).
  destruct (for_range_inv TArtist src body I h r) as [HI _].
  - intros done x acc hh (s' & -> & Hown & Hframe & Hnn) _.
    subst body. unfold bind, ret. rewrite get_set.
    destruct (append_owned growcap TMusicArtist h0 hh s' _
                {| martist_Name := artist_Name x;
                   martist_IntegrationID := artist_IntegrationID x |} Hown)
      as (Hown' & Hframe' & Hnn').
    destruct (append growcap TMusicArtist s' _ hh) as [s'' hh'].
    cbn [fst snd] in *. split.
    + exists s''. split; [now rewrite set_set|]. split.
      * rewrite map_app, app_assoc. exact Hown'.
      * split; [|now intros _].
        intros t Ht. now rewrite Hframe', Hframe.
    + rewrite Hframe' by discriminate. now apply Hframe.
  - exists (get r). split; [now rewrite set_get|].
    split; [now rewrite app_nil_r|]. split; [reflexivity|tauto].
  - exact HI.
Qed.
End ArtistLoop.

(** *** Reading back is stable *)

Lemma view_slice_ext {B} (t : ty) (f g : El t -> B) (h h' : heap) (s : hslice) :
  h' t = h t -> (forall x, f x = g x) -> view_slice t f h' s = view_slice t g h s.
Proof.
  intros Heq Hfg. unfold view_slice. rewrite (read_store_eq t h h' s Heq).
  destruct (s_base s); [|reflexivity]. f_equal. now apply map_ext.
Qed.

Lemma view_album_same_provider (n : nat) (h h' : heap) (sa : hSpotifyAlbum) :
  same_provider_data h h' -> view_album n h' sa = view_album n h sa.
Proof.
  intros Hsame. revert sa; induction n as [|n IH]; intros sa; cbn [view_album].
  - now rewrite (view_slice_store_eq TAlbumImage id h h'),
      (view_slice_store_eq TArtist id h h') by now apply Hsame.
  - rewrite (view_slice_store_eq TAlbumImage id h h'),
      (view_slice_store_eq TArtist id h h') by now apply Hsame.
    do 2 f_equal. apply view_slice_ext; [now apply Hsame|].
    intros st. rewrite IH.
    now rewrite (view_slice_store_eq TArtist id h h') by now apply Hsame.
Qed.

Lemma view_track_same_provider (n : nat) (h h' : heap) (st : hSpotifyTrack) :
  same_provider_data h h' -> view_track n h' st = view_track n h st.
Proof.
  intros Hsame. unfold view_track.
  rewrite (view_album_same_provider n h h') by exact Hsame.
  now rewrite (view_slice_store_eq TArtist id h h') by now apply Hsame.
Qed.

Lemma sa_Images_view (n : nat) (h : heap) (sa : hSpotifyAlbum) :
  sa_Images (view_album n h sa) = view_slice TAlbumImage id h (hsa_Images sa).
Proof. now destruct n. Qed.

Lemma sa_Name_view (n : nat) (h : heap) (sa : hSpotifyAlbum) :
  sa_Name (view_album n h sa) = hsa_Name sa.
Proof. now destruct n. Qed.

Lemma sa_ReleaseDate_view (n : nat) (h : heap) (sa : hSpotifyAlbum) :
  sa_ReleaseDate (view_album n h sa) = hsa_ReleaseDate sa.
Proof. now destruct n. Qed.

Lemma extends_from_frame (ta tb : ty) (h h' : heap) :
  provider_ty ta = false -> provider_ty tb = false ->
  h ta `prefix_of` h' ta ->
  h tb `prefix_of` h' tb ->
  (forall t, t <> ta -> t <> tb -> h' t = h t) ->
  extends h h' /\ same_provider_data h h'.
Proof.
  intros Hta Htb Ha Hb Hframe. split.
  - intros t.
    destruct (ty_eq_dec t ta) as [->|Hne1]; [exact Ha|].
    destruct (ty_eq_dec t tb) as [->|Hne2]; [exact Hb|].
    now rewrite Hframe.
  - intros t Ht. apply Hframe; intros ->; congruence.
Qed.

(** *** The list revision *)

Module ListRevisionFacts.
Import Mem.ListRevision.

Section ListTranslators.
Variable growcap : nat -> nat -> nat.

(** What [ConvertToMusicTrack] returns and what it writes: the fields
  of the literal, an Artists slice of its own holding one record per
  source artist, and no store touched but that of [MusicArtist]
  arrays, which only grows. *)
Lemma ConvertToMusicTrack_mem (st : hSpotifyTrack) (h : heap) :
let res := ConvertToMusicTrack growcap st h in
(forall t, t <> TMusicArtist -> snd res t = h t)
/\ exists s',
     fst res =
     {| hmt_Name := hst_Name st;
        hmt_PreviewURL := hst_PreviewURL st;
        hmt_AlbumName := hsa_Name (hst_Album st);
        hmt_AlbumArt := hsa_Images (hst_Album st);
        hmt_AlbumReleaseDate := hsa_ReleaseDate (hst_Album st);
        hmt_IntegrationID := hst_IntegrationID st;
        hmt_Source := "spotify";
        hmt_ExternalURL := eu_Spotify (hst_ExternalURL st);
        hmt_Artists := s' |}
     /\ owned TMusicArtist h (snd res) s'
          (map toMusicArtist (read TArtist h (hst_Artists st)))
     /\ s_base s' <> None.
Proof.
intros res. subst res. unfold ConvertToMusicTrack, bind.
destruct (empty_literal_owned TMusicArtist h) as (Hown & Hframe & Hnn).
destruct (empty_literal TMusicArtist h) as [s0 h1]. cbn [fst snd] in *.
match goal with
| |- context [for_range TArtist ?s ?r ?b h1] =>
    set (r0 := r); set (run := for_range TArtist s r0 b h1)
end.
destruct (artists_loop growcap (@hmt_Artists hslice) set_hmt_Artists
            ltac:(reflexivity) ltac:(reflexivity) ltac:(now intros [])
            (hst_Artists st) r0 h h1 [] run Hown eq_refl)
  as (s' & Hres & Hown' & Hframe' & Hnn').
split.
- intros t Ht. now rewrite Hframe', Hframe.
- exists s'. split; [exact Hres|]. split; [|now apply Hnn'].
  cbn [app] in Hown'.
  now rewrite (read_store_eq TArtist h h1) in Hown' by now apply Hframe.
Qed.

(** Read back, the result of [ConvertToMusicTrack] is the value-level
  translation of the track read back. *)
Lemma ConvertToMusicTrack_view (n : nat) (st : hSpotifyTrack) (h : heap) :
view_MusicTrack (snd (ConvertToMusicTrack growcap st h))
  (fst (ConvertToMusicTrack growcap st h))
= ListVariant.ConvertToMusicTrack (view_track n h st).
Proof.
destruct (ConvertToMusicTrack_mem st h) as (Hframe & s' & Hres & Hown & Hnn).
cbn zeta in *. rewrite Hres, LV_ConvertToMusicTrack_eq.
unfold view_MusicTrack, view_track.
cbn [hmt_Name hmt_PreviewURL hmt_AlbumName hmt_AlbumArt hmt_AlbumReleaseDate
     hmt_IntegrationID hmt_Source hmt_ExternalURL hmt_Artists
     st_Name st_PreviewURL st_Album st_IntegrationID st_ExternalURL st_Artists].
rewrite sa_Images_view, sa_Name_view, sa_ReleaseDate_view.
rewrite (view_slice_store_eq TAlbumImage id h) by now apply Hframe.
f_equal. rewrite elems_view_slice.
unfold view_slice. destruct (s_base s'); [|contradiction].
destruct Hown as (-> & _). now rewrite !map_id.
Qed.

End ListTranslators.

Lemma view_MusicTrack_stable (h h' : heap) (mt : hMusicTrack hslice) :
h' TAlbumImage = h TAlbumImage ->
h TMusicArtist `prefix_of` h' TMusicArtist ->
valid TMusicArtist h (hmt_Artists mt) ->
view_MusicTrack h' mt = view_MusicTrack h mt.
Proof.
intros Himg Hpre Hvalid. unfold view_MusicTrack.
rewrite (view_slice_store_eq TAlbumImage id h h') by exact Himg.
f_equal. unfold view_slice. now rewrite (read_prefix TMusicArtist h h').
Qed.

(** *** The track loop of [ConvertToMusicPlaylist] and [ConvertToMusicAlbum] *)

Section TrackLoop.
Variable growcap : nat -> nat -> nat.
Context {R : Type} (get : R -> hslice) (set : R -> hslice -> R).
Hypothesis get_set : forall r v, get (set r v) = v.
Hypothesis set_set : forall r v w, set (set r v) w = set r w.
Hypothesis set_get : forall r, set r (get r) = r.
Variable tin : ty.
Hypothesis tin_provider : provider_ty tin = true.
Variable pick : El tin -> hSpotifyTrack.

Lemma tracks_loop (n : nat) (src : hslice) (r : R) (h : heap) (res : R * heap) :
get r = hnil ->
res =
  for_range tin src r
    (fun r x =>
       bind (ConvertToMusicTrack growcap (pick x))
         (fun mt =>
            bind (append growcap TMusicTrack (get r) mt)
              (fun tracks => ret (set r tracks)))) h ->
exists s' mts,
  fst res = set r s'
  /\ (read tin h src = [] -> s' = hnil)
  /\ (read tin h src <> [] -> s_base s' <> None)
  /\ owned TMusicTrack h (snd res) s' mts
  /\ map (view_MusicTrack (snd res)) mts
     = map (fun x => ListVariant.ConvertToMusicTrack (view_track n h (pick x)))
         (read tin h src)
  /\ h TMusicArtist `prefix_of` snd res TMusicArtist
  /\ (forall t, t <> TMusicArtist -> t <> TMusicTrack -> snd res t = h t).
Proof.
intros Hnil ->.
match goal with
| |- context [for_range tin src r ?b h] => set (body := b)
end.
set (F := fun x => ListVariant.ConvertToMusicTrack (view_track n h (pick x))).
pose (I := fun (done : list (El tin)) (acc : R) (hh : heap) =>
             exists s' mts,
               acc = set r s'
               /\ (done = [] -> s' = hnil)
               /\ (done <> [] -> s_base s' <> None)
               /\ owned TMusicTrack h hh s' mts
               /\ map (view_MusicTrack hh) mts = map F done
               /\ List.Forall (fun mt => valid TMusicArtist hh (hmt_Artists mt)) mts
               /\ h TMusicArtist `prefix_of` hh TMusicArtist
               /\ (forall t, t <> TMusicArtist -> t <> TMusicTrack -> hh t = h t)).
assert (Htin : tin <> TMusicArtist /\ tin <> TMusicTrack)
  by (split; intros ->; discriminate tin_provider).
destruct (for_range_inv tin src body I h r) as [HI _].
- intros done x acc hh (s' & mts & -> & _ & _ & Hown & Hview & Hvalid
                        & Hpre & Hframe) Hin.
  subst body. unfold bind, ret. rewrite get_set.
  assert (Hsame : same_provider_data h hh).
  { intros t Ht. apply Hframe; intros ->; discriminate Ht. }
  pose proof (ConvertToMusicTrack_view growcap n (pick x) hh) as Hmt.
  rewrite (view_track_same_provider n h hh _ Hsame) in Hmt.
  destruct (ConvertToMusicTrack_mem growcap (pick x) hh)
    as (Hframe2 & sA & Hres & HownA & _).
  cbn zeta in Hframe2, Hres, HownA.
  assert (HvalidA : valid TMusicArtist (snd (ConvertToMusicTrack growcap (pick x) hh))
                      (hmt_Artists (fst (ConvertToMusicTrack growcap (pick x) hh))))
    by (rewrite Hres; cbn [hmt_Artists]; eapply owned_valid, HownA).
  assert (Hpre2 : hh TMusicArtist
                    `prefix_of` snd (ConvertToMusicTrack growcap (pick x) hh) TMusicArtist)
    by apply HownA.
  clear Hres HownA sA.
  destruct (ConvertToMusicTrack growcap (pick x) hh) as [mt h2].
  cbn [fst snd] in *.
  assert (Hown2 : owned TMusicTrack h h2 s' mts).
  { eapply owned_store_eq; [|exact Hown]. now apply Hframe2. }
  destruct (append_owned growcap TMusicTrack h h2 s' mts mt Hown2)
    as (Hown3 & Hframe3 & Hnn3).
  destruct (append growcap TMusicTrack s' mt h2) as [s'' h3].
  cbn [fst snd] in *.
  assert (Hart3 : h3 TMusicArtist = h2 TMusicArtist) by now apply Hframe3.
  assert (Himg2 : h2 TAlbumImage = hh TAlbumImage) by now apply Hframe2.
  assert (Himg3 : h3 TAlbumImage = h2 TAlbumImage) by now apply Hframe3.
  assert (Hpre3 : hh TMusicArtist `prefix_of` h3 TMusicArtist)
    by now rewrite Hart3.
  split.
  + exists s'', (mts ++ [mt]).
    split; [now rewrite set_set|].
    split; [intros Hd; now apply app_eq_nil in Hd as [_ Hd]|].
    split; [now intros _|].
    split; [exact Hown3|].
    split; [|split; [|split]].
    * rewrite !map_app. cbn [map]. f_equal.
      -- rewrite <- Hview. apply map_ext_Forall.
         eapply List.Forall_impl; [|exact Hvalid].
         intros m Hm. apply view_MusicTrack_stable; [congruence|exact Hpre3|exact Hm].
      -- f_equal. unfold F. rewrite <- Hmt.
         apply view_MusicTrack_stable; [exact Himg3|now rewrite Hart3|exact HvalidA].
    * apply List.Forall_app. split.
      -- eapply List.Forall_impl; [|exact Hvalid].
         intros m Hm. now apply (valid_prefix TMusicArtist hh h3).
      -- constructor; [|constructor].
         apply (valid_prefix TMusicArtist h2 h3); [now rewrite Hart3|exact HvalidA].
    * now transitivity (hh TMusicArtist).
    * intros t Ht1 Ht2. now rewrite Hframe3, Hframe2, Hframe.
  + destruct Htin as [Ht1 Ht2]. now rewrite Hframe3, Hframe2.
- exists hnil, []. split; [now rewrite <- Hnil, set_get|].
  split; [reflexivity|]. split; [now intros []|].
  split.
  { unfold owned. cbn. now repeat split. }
  now repeat split.
- destruct HI as (s' & mts & Hacc & He & Hne & Hown & Hview & _ & Hpre & Hframe).
  now exists s', mts.
Qed.
End TrackLoop.

Section ListTranslatorsRefine.
Variable growcap : nat -> nat -> nat.

Lemma ConvertToMusicTrack_refines (n : nat) (st : hSpotifyTrack) (h : heap) :
let res := ConvertToMusicTrack growcap st h in
view_MusicTrack (snd res) (fst res)
= ListVariant.ConvertToMusicTrack (view_track n h st)
/\ extends h (snd res)
/\ same_provider_data h (snd res).
Proof.
cbn zeta. split; [apply ConvertToMusicTrack_view|].
destruct (ConvertToMusicTrack_mem growcap st h) as (Hframe & s' & _ & Hown & _).
cbn zeta in *. apply (extends_from_frame TMusicArtist TMusicTrack); try reflexivity.
- apply Hown.
- now rewrite Hframe.
- intros t Ht _. now apply Hframe.
Qed.

Lemma ConvertToMusicPlaylist_refines (n : nat) (sp : hSpotifyPlaylist) (h : heap) :
let res := ConvertToMusicPlaylist growcap sp h in
view_MusicPlaylist (snd res) (fst res)
= ListVariant.ConvertToMusicPlaylist (view_playlist n h sp)
/\ extends h (snd res)
/\ same_provider_data h (snd res).
Proof.
cbn zeta. unfold ConvertToMusicPlaylist.
rewrite LV_ConvertToMusicPlaylist_eq.
unfold view_playlist at 1 2 3 4.
cbn [sp_Name sp_Images sp_IntegrationID sp_TracksCollection pts_Items].
rewrite elems_view_slice.
set (items := hpts_Items (hsp_TracksCollection sp)).
destruct (0 <? s_len items)%nat eqn:Hlen.
- match goal with
  | |- context [for_range TPlaylistTrack items ?r0 ?b h] =>
      set (r := r0); set (run := for_range TPlaylistTrack items r b h)
  end.
  destruct (tracks_loop growcap hmp_Tracks set_hmp_Tracks
              ltac:(reflexivity) ltac:(reflexivity) ltac:(now intros [])
              TPlaylistTrack eq_refl hpt_Track n items r h run eq_refl eq_refl)
    as (s' & mts & Hres & He & Hne & Hown & Hview & Hpre & Hframe).
  split.
  + rewrite Hres. unfold view_MusicPlaylist, r.
    cbn [set_hmp_Tracks hmp_Name hmp_PlaylistArt hmp_Tracks hmp_IntegrationID].
    rewrite (view_slice_store_eq TPlaylistImage id h) by now apply Hframe.
    f_equal.
    rewrite collected_map. cbn [pt_Track].
    destruct (read TPlaylistTrack h items) as [|w ws] eqn:Hread.
    * now rewrite (He eq_refl).
    * unfold view_slice. destruct (s_base s') eqn:Hb;
        [|now contradiction (Hne ltac:(discriminate))].
      destruct Hown as (Hmts & _). cbn [El] in Hmts, Hview |- *.
      now rewrite Hmts, Hview.
  + apply (extends_from_frame TMusicArtist TMusicTrack);
      [reflexivity|reflexivity|exact Hpre|apply Hown|exact Hframe].
- unfold ret. cbn [fst snd]. split.
  + unfold view_MusicPlaylist.
    cbn [hmp_Name hmp_PlaylistArt hmp_Tracks hmp_IntegrationID].
    apply Nat.ltb_ge in Hlen.
    assert (Hz : s_len items = 0) by lia.
    unfold read. now rewrite Hz.
  + now apply (extends_from_frame TMusicArtist TMusicTrack).
Qed.

Lemma ConvertToMusicAlbum_refines (n : nat) (sa : hSpotifyAlbum) (h : heap) :
let res := ConvertToMusicAlbum growcap sa h in
view_MusicAlbum (snd res) (fst res)
= ListVariant.ConvertToMusicAlbum (view_album (S n) h sa)
/\ extends h (snd res)
/\ same_provider_data h (snd res).
Proof.
cbn zeta. unfold ConvertToMusicAlbum, bind.
rewrite LV_ConvertToMusicAlbum_eq.
cbn [view_album sa_Name sa_Images sa_IntegrationID sa_ReleaseDate sa_Artists
     sa_TracksCollection tr_Items].
rewrite !elems_view_slice, map_id.
destruct (empty_literal_owned TMusicArtist h) as (Hown0 & Hframe0 & Hnn0).
destruct (empty_literal TMusicArtist h) as [s0 h1]. cbn [fst snd] in *.
match goal with
| |- context [for_range TArtist ?s ?r ?b h1] =>
    set (r0 := r); set (run1 := for_range TArtist s r0 b h1)
end.
destruct (artists_loop growcap hma_Artists set_hma_Artists
            ltac:(reflexivity) ltac:(reflexivity) ltac:(now intros [])
            (hsa_Artists sa) r0 h h1 [] run1 Hown0 eq_refl)
  as (sA & HresA & HownA & HframeA & HnnA).
cbn [app] in HownA.
rewrite (read_store_eq TArtist h h1) in HownA by now apply Hframe0.
clearbody run1. destruct run1 as [ma1 h2].
cbn [fst snd] in *. subst ma1.
assert (Hframe2 : forall t, t <> TMusicArtist -> h2 t = h t).
{ intros t Ht. now rewrite HframeA, Hframe0. }
set (items := htr_Items (hsa_TracksCollection sa)).
assert (HvalidA : valid TMusicArtist h2 sA) by (eapply owned_valid, HownA).
assert (HbaseA : s_base sA <> None) by now apply HnnA.
destruct (0 <? s_len items)%nat eqn:Hlen.
- match goal with
  | |- context [for_range TTrack items ?r ?b h2] =>
      set (run2 := for_range TTrack items r b h2)
  end.
  destruct (tracks_loop growcap hma_Tracks set_hma_Tracks
              ltac:(reflexivity) ltac:(reflexivity) ltac:(now intros [])
              TTrack eq_refl (fun track => hwith_Album track sa) (S n) items
              (set_hma_Artists r0 sA) h2 run2 eq_refl eq_refl)
    as (s' & mts & Hres & He & Hne & Hown & Hview & Hpre & Hframe).
  assert (Hsame2 : same_provider_data h h2).
  { intros t Ht. apply Hframe2. intros ->. discriminate Ht. }
  rewrite (read_store_eq TTrack h h2) in He, Hne, Hview by now apply Hframe2.
  split.
  + rewrite Hres. unfold view_MusicAlbum, r0.
    cbn [set_hma_Tracks set_hma_Artists hma_Name hma_AlbumArt hma_ReleaseDate
         hma_Artists hma_Tracks hma_IntegrationID].
    rewrite (view_slice_store_eq TAlbumImage id h)
      by (rewrite Hframe, Hframe2; [reflexivity|discriminate..]).
    f_equal.
    * unfold view_slice. destruct (s_base sA); [|contradiction].
      rewrite (read_prefix TMusicArtist h2) by assumption.
      destruct HownA as (-> & _). now rewrite map_id.
    * rewrite collected_map.
      destruct (read TTrack h items) as [|w ws] eqn:Hread.
      -- now rewrite (He eq_refl).
      -- unfold view_slice. destruct (s_base s') eqn:Hb;
           [|now contradiction (Hne ltac:(discriminate))].
         destruct Hown as (Hmts & _). cbn [El] in Hmts, Hview |- *.
         rewrite Hmts, Hview. unfold collected. f_equal.
         apply map_ext. intros track.
         now rewrite (view_track_same_provider (S n) h h2 _ Hsame2).
  + apply (extends_from_frame TMusicArtist TMusicTrack); try reflexivity.
    * transitivity (h2 TMusicArtist); [apply HownA|exact Hpre].
    * destruct Hown as (_ & _ & Hp & _).
      now rewrite Hframe2 in Hp by discriminate.
    * intros t Ht1 Ht2. now rewrite Hframe, Hframe2.
- unfold ret. cbn [fst snd]. split.
  + unfold view_MusicAlbum, r0.
    cbn [set_hma_Artists hma_Name hma_AlbumArt hma_ReleaseDate
         hma_Artists hma_Tracks hma_IntegrationID].
    rewrite (view_slice_store_eq TAlbumImage id h) by now apply Hframe2.
    apply Nat.ltb_ge in Hlen.
    assert (Hz : s_len items = 0) by lia.
    f_equal.
    * unfold view_slice. destruct (s_base sA); [|contradiction].
      destruct HownA as (-> & _). now rewrite map_id.
    * unfold read. now rewrite Hz.
  + apply (extends_from_frame TMusicArtist TMusicTrack); try reflexivity.
    * apply HownA.
    * now rewrite Hframe2.
    * intros t Ht _. now apply Hframe2.
Qed.

End ListTranslatorsRefine.

End ListRevisionFacts.

(** *** The string revision *)

Module StringRevisionFacts.
Import Mem.StringRevision.

Section StringTranslators.
Variable growcap : nat -> nat -> nat.

(** The loop that collects the artist names into a local slice. *)
Lemma names_loop (src : hslice) (h : heap) (res : hslice * heap) :
  res =
    for_range TArtist src hnil
      (fun artistNames artist =>
         append growcap TString artistNames (artist_Name artist)) h ->
  owned TString h (snd res) (fst res) (map artist_Name (read TArtist h src))
  /\ (forall t, t <> TString -> snd res t = h t)
  /\ (read TArtist h src = [] -> fst res = hnil)
  /\ (read TArtist h src <> [] -> s_base (fst res) <> None).
Proof.
  intros ->.
  match goal with
  | |- context [for_range TArtist src hnil ?b h] => set (body := b)
  end.
  pose (I := fun (done : list (El TArtist)) (acc : hslice) (hh : heap) =>
               owned TString h hh acc (map artist_Name done)
               /\ (forall t, t <> TString -> hh t = h t)
               /\ (done = [] -> acc = hnil)
               /\ (done <> [] -> s_base acc <> None)).
  destruct (for_range_inv TArtist src body I h hnil) as [HI _].
  - intros done x acc hh (Hown & Hframe & _ & _) _. subst body.
    destruct (append_owned growcap TString h hh acc _ (artist_Name x) Hown)
      as (Hown' & Hframe' & Hnn').
    destruct (append growcap TString acc (artist_Name x) hh) as [acc' hh'].
    cbn [fst snd] in *. split.
    + split; [now rewrite map_app|].
      split; [intros t Ht; now rewrite Hframe', Hframe|].
      split; [intros Hd; now apply app_eq_nil in Hd as [_ Hd]|now intros _].
    + rewrite Hframe' by discriminate. now apply Hframe.
  - split; [|now repeat split].
    unfold owned. cbn. now repeat split.
  - exact HI.
Qed.

Lemma ConvertToMusicTrack_joined_mem (st : hSpotifyTrack) (h : heap) :
  let res := ConvertToMusicTrack growcap st h in
  fst res =
    {| hmt_Name := hst_Name st;
       hmt_PreviewURL := hst_PreviewURL st;
       hmt_AlbumName := hsa_Name (hst_Album st);
       hmt_AlbumArt := hsa_Images (hst_Album st);
       hmt_AlbumReleaseDate := hsa_ReleaseDate (hst_Album st);
       hmt_IntegrationID := hst_IntegrationID st;
       hmt_Source := "spotify";
       hmt_ExternalURL := eu_Spotify (hst_ExternalURL st);
       hmt_Artists :=
         String.concat ", " (map artist_Name (read TArtist h (hst_Artists st))) |}
  /\ (forall t, t <> TString -> snd res t = h t)
  /\ h TString `prefix_of` snd res TString.
Proof.
  cbn zeta. unfold ConvertToMusicTrack, bind, Join, ret.
  match goal with
  | |- context [for_range TArtist ?s hnil ?b h] =>
      set (run := for_range TArtist s hnil b h)
  end.
  destruct (names_loop (hst_Artists st) h run eq_refl)
    as (Hown & Hframe & _ & _).
  clearbody run. destruct run as [names h1]. cbn [fst snd] in *.
  split; [|split; [exact Hframe|apply Hown]].
  unfold set_hmt_Artists.
  cbn [hmt_Name hmt_PreviewURL hmt_AlbumName hmt_AlbumArt hmt_AlbumReleaseDate
       hmt_IntegrationID hmt_Source hmt_ExternalURL].
  f_equal. rewrite strings_Join_concat, elems_view_slice, map_id.
  now destruct Hown as (-> & _).
Qed.

Lemma ConvertToMusicTrack_joined_view (n : nat) (st : hSpotifyTrack) (h : heap) :
  view_MusicTrack (snd (ConvertToMusicTrack growcap st h))
    (fst (ConvertToMusicTrack growcap st h))
  = StringVariant.ConvertToMusicTrack (view_track n h st).
Proof.
  destruct (ConvertToMusicTrack_joined_mem st h) as (Hres & Hframe & _).
  cbn zeta in *. rewrite Hres, SV_ConvertToMusicTrack_eq.
  unfold view_MusicTrack, view_track.
  cbn [hmt_Name hmt_PreviewURL hmt_AlbumName hmt_AlbumArt hmt_AlbumReleaseDate
       hmt_IntegrationID hmt_Source hmt_ExternalURL hmt_Artists
       st_Name st_PreviewURL st_Album st_IntegrationID st_ExternalURL st_Artists].
  rewrite sa_Images_view, sa_Name_view, sa_ReleaseDate_view.
  rewrite (view_slice_store_eq TAlbumImage id h) by now apply Hframe.
  now rewrite elems_view_slice, map_id.
Qed.

Lemma view_MusicTrack_joined_stable (h h' : heap) (mt : hMusicTrack string) :
  h' TAlbumImage = h TAlbumImage -> view_MusicTrack h' mt = view_MusicTrack h mt.
Proof.
  intros Himg. unfold view_MusicTrack.
  now rewrite (view_slice_store_eq TAlbumImage id h h').
Qed.

Lemma tracks_loop_joined (n : nat) (src : hslice) (r : hMusicPlaylist) (h : heap)
    (res : hMusicPlaylist * heap) :
  hmp_Tracks r = hnil ->
  res =
    for_range TPlaylistTrack src r
      (fun playlist track =>
         bind (ConvertToMusicTrack growcap (hpt_Track track))
           (fun mt =>
              bind (append growcap TMusicTrackS (hmp_Tracks playlist) mt)
                (fun tracks => ret (set_hmp_Tracks playlist tracks)))) h ->
  exists s' mts,
    fst res = set_hmp_Tracks r s'
    /\ (read TPlaylistTrack h src = [] -> s' = hnil)
    /\ (read TPlaylistTrack h src <> [] -> s_base s' <> None)
    /\ owned TMusicTrackS h (snd res) s' mts
    /\ map (view_MusicTrack (snd res)) mts
       = map (fun x => StringVariant.ConvertToMusicTrack
                         (view_track n h (hpt_Track x)))
           (read TPlaylistTrack h src)
    /\ h TString `prefix_of` snd res TString
    /\ (forall t, t <> TString -> t <> TMusicTrackS -> snd res t = h t).
Proof.
  intros Hnil ->.
  match goal with
  | |- context [for_range TPlaylistTrack src r ?b h] => set (body := b)
  end.
  set (F := fun x : El TPlaylistTrack =>
              StringVariant.ConvertToMusicTrack (view_track n h (hpt_Track x))).
  pose (I := fun (done : list (El TPlaylistTrack)) (acc : hMusicPlaylist)
                 (hh : heap) =>
               exists s' mts,
                 acc = set_hmp_Tracks r s'
                 /\ (done = [] -> s' = hnil)
                 /\ (done <> [] -> s_base s' <> None)
                 /\ owned TMusicTrackS h hh s' mts
                 /\ map (view_MusicTrack hh) mts = map F done
                 /\ h TString `prefix_of` hh TString
                 /\ (forall t, t <> TString -> t <> TMusicTrackS -> hh t = h t)).
  destruct (for_range_inv TPlaylistTrack src body I h r) as [HI _].
  - intros done x acc hh (s' & mts & -> & _ & _ & Hown & Hview & Hpre & Hframe) Hin.
    subst body. unfold bind, ret. cbn [set_hmp_Tracks hmp_Tracks].
    assert (Hsame : same_provider_data h hh).
    { intros t Ht. apply Hframe; intros ->; discriminate Ht. }
    pose proof (ConvertToMusicTrack_joined_view n (hpt_Track x) hh) as Hmt.
    rewrite (view_track_same_provider n h hh _ Hsame) in Hmt.
    destruct (ConvertToMusicTrack_joined_mem (hpt_Track x) hh)
      as (_ & Hframe2 & Hpre2).
    cbn zeta in Hframe2, Hpre2.
    destruct (ConvertToMusicTrack growcap (hpt_Track x) hh) as [mt h2].
    cbn [fst snd] in *.
    assert (Hown2 : owned TMusicTrackS h h2 s' mts).
    { eapply owned_store_eq; [|exact Hown]. now apply Hframe2. }
    destruct (append_owned growcap TMusicTrackS h h2 s' mts mt Hown2)
      as (Hown3 & Hframe3 & Hnn3).
    destruct (append growcap TMusicTrackS s' mt h2) as [s'' h3].
    cbn [fst snd] in *.
    assert (Himg2 : h2 TAlbumImage = hh TAlbumImage) by now apply Hframe2.
    assert (Himg3 : h3 TAlbumImage = h2 TAlbumImage) by now apply Hframe3.
    split.
    + exists s'', (mts ++ [mt]).
      split; [reflexivity|].
      split; [intros Hd; now apply app_eq_nil in Hd as [_ Hd]|].
      split; [now intros _|].
      split; [exact Hown3|].
      split; [|split].
      * rewrite !map_app. cbn [map]. f_equal.
        -- rewrite <- Hview. apply map_ext. intros m.
           apply view_MusicTrack_joined_stable. congruence.
        -- f_equal. unfold F. rewrite <- Hmt.
           now apply view_MusicTrack_joined_stable.
      * rewrite Hframe3 by discriminate. now transitivity (hh TString).
      * intros t Ht1 Ht2. now rewrite Hframe3, Hframe2, Hframe.
    + rewrite Hframe3, Hframe2 by discriminate. exact Hin.
  - exists hnil, []. split; [now destruct r; cbn in *; subst|].
    split; [reflexivity|]. split; [now intros []|].
    split; [unfold owned; cbn; now repeat split|]. now repeat split.
  - destruct HI as (s' & mts & Hacc & He & Hne & Hown & Hview & Hpre & Hframe).
    now exists s', mts.
Qed.

Lemma ConvertToMusicTrack_joined_refines (n : nat) (st : hSpotifyTrack) (h : heap) :
  let res := ConvertToMusicTrack growcap st h in
  view_MusicTrack (snd res) (fst res)
  = StringVariant.ConvertToMusicTrack (view_track n h st)
  /\ extends h (snd res)
  /\ same_provider_data h (snd res).
Proof.
  cbn zeta. split; [apply ConvertToMusicTrack_joined_view|].
  destruct (ConvertToMusicTrack_joined_mem st h) as (_ & Hframe & Hpre).
  cbn zeta in *.
  apply (extends_from_frame TString TString);
    [reflexivity|reflexivity|exact Hpre|exact Hpre|].
  intros t Ht _. now apply Hframe.
Qed.

Lemma ConvertToMusicPlaylist_joined_refines
    (n : nat) (sp : hSpotifyPlaylist) (h : heap) :
  let res := ConvertToMusicPlaylist growcap sp h in
  view_MusicPlaylist (snd res) (fst res)
  = StringVariant.ConvertToMusicPlaylist (view_playlist n h sp)
  /\ extends h (snd res)
  /\ same_provider_data h (snd res).
Proof.
  cbn zeta. unfold ConvertToMusicPlaylist.
  rewrite SV_ConvertToMusicPlaylist_eq.
  unfold view_playlist at 1 2 3 4.
  cbn [sp_Name sp_Images sp_IntegrationID sp_TracksCollection pts_Items].
  rewrite elems_view_slice.
  set (items := hpts_Items (hsp_TracksCollection sp)).
  destruct (0 <? s_len items)%nat eqn:Hlen.
  - match goal with
    | |- context [for_range TPlaylistTrack items ?r0 ?b h] =>
        set (r := r0); set (run := for_range TPlaylistTrack items r b h)
    end.
    destruct (tracks_loop_joined n items r h run eq_refl eq_refl)
      as (s' & mts & Hres & He & Hne & Hown & Hview & Hpre & Hframe).
    split.
    + rewrite Hres. unfold view_MusicPlaylist, r.
      cbn [set_hmp_Tracks hmp_Name hmp_PlaylistArt hmp_Tracks hmp_IntegrationID].
      rewrite (view_slice_store_eq TPlaylistImage id h) by now apply Hframe.
      f_equal.
      rewrite collected_map. cbn [pt_Track].
      destruct (read TPlaylistTrack h items) as [|w ws] eqn:Hread.
      * now rewrite (He eq_refl).
      * unfold view_slice. destruct (s_base s') eqn:Hb;
          [|now contradiction (Hne ltac:(discriminate))].
        destruct Hown as (Hmts & _). cbn [El] in Hmts, Hview |- *.
        now rewrite Hmts, Hview.
    + apply (extends_from_frame TString TMusicTrackS);
        [reflexivity|reflexivity|exact Hpre|apply Hown|exact Hframe].
  - unfold ret. cbn [fst snd]. split.
    + unfold view_MusicPlaylist.
      cbn [hmp_Name hmp_PlaylistArt hmp_Tracks hmp_IntegrationID].
      apply Nat.ltb_ge in Hlen.
      assert (Hz : s_len items = 0) by lia.
      unfold read. now rewrite Hz.
    + now apply (extends_from_frame TString TMusicTrackS).
Qed.

End StringTranslators.
End StringRevisionFacts.

(** ** The header-level translators on a sample heap *)

(** Under doubling, the Tracks array is reallocated at lengths 1, 2 and
    3 (capacities 1, 2, 4), and the third artist of the first track is
    written in place into an array of capacity 4; the provider's arrays
    stay as they were. *)
Example playlistA_in_memory :
  let res := ListRevision.ConvertToMusicPlaylist grow_double playlistA heapA in
  hmp_Tracks (fst res) = hslice_at 2 0 3 4
  /\ map (@hmt_Artists hslice) (read TMusicTrack (snd res) (hmp_Tracks (fst res)))
     = [hslice_at 3 0 3 4; hslice_at 5 0 1 1; hslice_at 6 0 0 0]
  /\ map (@length MusicArtist) (snd res TMusicArtist) = [0; 1; 2; 4; 0; 1; 0]
  /\ snd res TArtist = heapA TArtist
  /\ snd res TPlaylistTrack = heapA TPlaylistTrack.
Proof. repeat split. Qed.

Example playlistA_read_back :
  let res := ListRevision.ConvertToMusicPlaylist grow_double playlistA heapA in
  ListRevision.view_MusicPlaylist (snd res) (fst res)
  = ListVariant.ConvertToMusicPlaylist (view_playlist 0 heapA playlistA)
  /\ map (fun mt => map martist_Name (elems (ListVariant.mt_Artists mt)))
       (elems (ListVariant.mp_Tracks
                 (ListRevision.view_MusicPlaylist (snd res) (fst res))))
     = [["Artist X"; "Artist Y"; "Artist Z"]; ["Artist Y"]; []].
Proof. split; reflexivity. Qed.

Example playlistA_joined_read_back :
  let res := StringRevision.ConvertToMusicPlaylist grow_exact playlistA heapA in
  map StringVariant.mt_Artists
    (elems (StringVariant.mp_Tracks
              (StringRevision.view_MusicPlaylist (snd res) (fst res))))
  = ["Artist X, Artist Y, Artist Z"; "Artist Y"; ""].
Proof. reflexivity. Qed.

(** A second call leaves the result of the first as it was and returns
    an equal one. *)
Example second_call_keeps_first_result :
  let res1 := ListRevision.ConvertToMusicPlaylist grow_double playlistA heapA in
  let res2 := ListRevision.ConvertToMusicPlaylist grow_double playlistA (snd res1) in
  ListRevision.view_MusicPlaylist (snd res2) (fst res1)
  = ListRevision.view_MusicPlaylist (snd res1) (fst res1)
  /\ ListRevision.view_MusicPlaylist (snd res2) (fst res2)
     = ListRevision.view_MusicPlaylist (snd res1) (fst res1)
  /\ hmp_Tracks (fst res2) <> hmp_Tracks (fst res1).
Proof. repeat split. discriminate. Qed.

(** What the layer is there to see: [append] to a slice with capacity
    left writes into the shared array, and a longer slice over the same
    array reads the new element. *)
Example append_in_place_is_shared :
  let h := with_store TArtist [[artistX; artistY]] emptyHeap in
  let short := hslice_at 0 0 1 2 in
  let long := hslice_at 0 0 2 2 in
  let res := append grow_double TArtist short artistZ h in
  read TArtist h long = [artistX; artistY]
  /\ fst res = hslice_at 0 0 2 2
  /\ read TArtist (snd res) long = [artistX; artistZ]
  /\ length (snd res TArtist) = 1.
Proof. repeat split. Qed.

(** Without capacity left, [append] moves to a new array and the old
    one keeps its contents. *)
Example append_grows_elsewhere :
  let h := with_store TArtist [[artistX; artistY]] emptyHeap in
  let full := hslice_at 0 0 2 2 in
  let res := append grow_double TArtist full artistZ h in
  fst res = hslice_at 1 0 3 4
  /\ read TArtist (snd res) (fst res) = [artistX; artistY; artistZ]
  /\ read TArtist (snd res) full = [artistX; artistY]
  /\ snd res TArtist
     = [[artistX; artistY]; [artistX; artistY; artistZ; zero TArtist]].
Proof. repeat split. Qed.

(** Agreement on equal inputs follows from computing the same function. *)
Lemma translates_agree {X Y VX VY : Type} (run run' : X -> M Y)
    (viewX : heap -> X -> VX) (viewY : heap -> Y -> VY) (f : VX -> VY) :
  translates run viewX viewY f -> translates run' viewX viewY f ->
  agree_on_equal_inputs run run' viewX viewY.
Proof.
  intros Hrun Hrun' x x' h h' Heq. now rewrite Hrun, Hrun', Heq.
Qed.

(** C8. Each translator is pure.  Over slice headers and backing
    arrays, for every growth policy of [append] and every heap: read
    back, the result is the value-level translation of the argument read
    back, so it depends on the argument alone; no array that existed
    before the call is written and the provider's payload is left as it
    was; and two calls on arguments that read back equal, in any two
    heaps, give results that read back equal.  This holds for
    [ConvertToMusicTrack], [ConvertToMusicPlaylist] and
    [ConvertToMusicAlbum] of the list revision and for
    [ConvertToMusicTrack] and [ConvertToMusicPlaylist] of the string
    revision. *)
Theorem translators_pure (growcap growcap' : nat -> nat -> nat) (n : nat) :
  (translates (ListRevision.ConvertToMusicTrack growcap)
     (view_track n) ListRevision.view_MusicTrack ListVariant.ConvertToMusicTrack
   /\ leaves_memory_intact (ListRevision.ConvertToMusicTrack growcap)
   /\ agree_on_equal_inputs (ListRevision.ConvertToMusicTrack growcap)
        (ListRevision.ConvertToMusicTrack growcap')
        (view_track n) ListRevision.view_MusicTrack)
  /\
  (translates (ListRevision.ConvertToMusicPlaylist growcap)
     (view_playlist n) ListRevision.view_MusicPlaylist ListVariant.ConvertToMusicPlaylist
   /\ leaves_memory_intact (ListRevision.ConvertToMusicPlaylist growcap)
   /\ agree_on_equal_inputs (ListRevision.ConvertToMusicPlaylist growcap)
        (ListRevision.ConvertToMusicPlaylist growcap')
        (view_playlist n) ListRevision.view_MusicPlaylist)
  /\
  (translates (ListRevision.ConvertToMusicAlbum growcap)
     (view_album (S n)) ListRevision.view_MusicAlbum ListVariant.ConvertToMusicAlbum
   /\ leaves_memory_intact (ListRevision.ConvertToMusicAlbum growcap)
   /\ agree_on_equal_inputs (ListRevision.ConvertToMusicAlbum growcap)
        (ListRevision.ConvertToMusicAlbum growcap')
        (view_album (S n)) ListRevision.view_MusicAlbum)
  /\
  (translates (StringRevision.ConvertToMusicTrack growcap)
     (view_track n) StringRevision.view_MusicTrack StringVariant.ConvertToMusicTrack
   /\ leaves_memory_intact (StringRevision.ConvertToMusicTrack growcap)
   /\ agree_on_equal_inputs (StringRevision.ConvertToMusicTrack growcap)
        (StringRevision.ConvertToMusicTrack growcap')
        (view_track n) StringRevision.view_MusicTrack)
  /\
  (translates (StringRevision.ConvertToMusicPlaylist growcap)
     (view_playlist n) StringRevision.view_MusicPlaylist
     StringVariant.ConvertToMusicPlaylist
   /\ leaves_memory_intact (StringRevision.ConvertToMusicPlaylist growcap)
   /\ agree_on_equal_inputs (StringRevision.ConvertToMusicPlaylist growcap)
        (StringRevision.ConvertToMusicPlaylist growcap')
        (view_playlist n) StringRevision.view_MusicPlaylist).
Proof.
  assert (Hsplit : forall {X Y VX VY : Type} (run run' : X -> M Y)
                     (viewX : heap -> X -> VX) (viewY : heap -> Y -> VY) (f : VX -> VY),
             (forall x h,
                 viewY (snd (run x h)) (fst (run x h)) = f (viewX h x)
                 /\ extends h (snd (run x h))
                 /\ same_provider_data h (snd (run x h))) ->
             (forall x h,
                 viewY (snd (run' x h)) (fst (run' x h)) = f (viewX h x)
                 /\ extends h (snd (run' x h))
                 /\ same_provider_data h (snd (run' x h))) ->
             translates run viewX viewY f
             /\ leaves_memory_intact run
             /\ agree_on_equal_inputs run run' viewX viewY).
  { intros X Y VX VY run run' viewX viewY f H H'.
    assert (Ht : translates run viewX viewY f) by (intros x h; apply H).
    assert (Ht' : translates run' viewX viewY f) by (intros x h; apply H').
    split; [exact Ht|]. split; [intros x h; apply H|].
    now apply (translates_agree run run' viewX viewY f). }
  split; [|split; [|split; [|split]]]; apply Hsplit; intros x h.
  - apply (ListRevisionFacts.ConvertToMusicTrack_refines growcap n x h).
  - apply (ListRevisionFacts.ConvertToMusicTrack_refines growcap' n x h).
  - apply (ListRevisionFacts.ConvertToMusicPlaylist_refines growcap n x h).
  - apply (ListRevisionFacts.ConvertToMusicPlaylist_refines growcap' n x h).
  - apply (ListRevisionFacts.ConvertToMusicAlbum_refines growcap n x h).
  - apply (ListRevisionFacts.ConvertToMusicAlbum_refines growcap' n x h).
  - apply (StringRevisionFacts.ConvertToMusicTrack_joined_refines growcap n x h).
  - apply (StringRevisionFacts.ConvertToMusicTrack_joined_refines growcap' n x h).
  - apply (StringRevisionFacts.ConvertToMusicPlaylist_joined_refines growcap n x h).
  - apply (StringRevisionFacts.ConvertToMusicPlaylist_joined_refines growcap' n x h).
Qed.

Lemma translators_pure_witness :
  view_playlist 1 heapA playlistA = view_playlist 1 heapB playlistB
  /\ (let resA := ListRevision.ConvertToMusicPlaylist grow_double playlistA heapA in
      let resB := ListRevision.ConvertToMusicPlaylist grow_exact playlistB heapB in
      ListRevision.view_MusicPlaylist (snd resA) (fst resA)
      = ListRevision.view_MusicPlaylist (snd resB) (fst resB)
      /\ snd resA TArtist = heapA TArtist
      /\ snd resA TPlaylistTrack = heapA TPlaylistTrack)
  /\ (let resA := StringRevision.ConvertToMusicPlaylist grow_double playlistA heapA in
      let resB := StringRevision.ConvertToMusicPlaylist grow_exact playlistB heapB in
      StringRevision.view_MusicPlaylist (snd resA) (fst resA)
      = StringRevision.view_MusicPlaylist (snd resB) (fst resB)).
Proof.
  assert (Hin : view_playlist 1 heapA playlistA = view_playlist 1 heapB playlistB)
    by reflexivity.
  destruct (translators_pure grow_double grow_exact 1)
    as (_ & (_ & HmemL & HagreeL) & _ & _ & (_ & _ & HagreeS)).
  split; [exact Hin|]. cbn zeta. split; [split; [|split]|].
  - apply (HagreeL playlistA playlistB heapA heapB Hin).
  - apply (HmemL playlistA heapA). reflexivity.
  - apply (HmemL playlistA heapA). reflexivity.
  - apply (HagreeS playlistA playlistB heapA heapB Hin).
Defined.

(** * Further properties of the translators in memory *)

(** X22. In the revision with the artist list, [ConvertToMusicTrack]
    returns the album art as the very slice of the source album, same
    array and same bounds, with no image copied, while the artists are
    in an array that did not exist before the call, one record per
    source artist. *)
Theorem ConvertToMusicTrack_shares_art_not_artists
    (growcap : nat -> nat -> nat) (st : hSpotifyTrack) (h : heap) :
  let res := ListRevision.ConvertToMusicTrack growcap st h in
  hmt_AlbumArt (fst res) = hsa_Images (hst_Album st)
  /\ snd res TAlbumImage = h TAlbumImage
  /\ (exists l,
         s_base (hmt_Artists (fst res)) = Some l
         /\ length (h TMusicArtist) <= l < length (snd res TMusicArtist))
  /\ s_len (hmt_Artists (fst res)) = length (read TArtist h (hst_Artists st)).
Proof.
  cbn zeta.
  destruct (ListRevisionFacts.ConvertToMusicTrack_mem growcap st h)
    as (Hframe & s' & Hres & Hown & Hnn).
  cbn zeta in *. rewrite Hres. cbn [hmt_AlbumArt hmt_Artists].
  destruct Hown as (Hread & Hlen & Hpre & Hbase).
  split; [reflexivity|]. split; [now apply Hframe|].
  rewrite length_map in Hlen.
  destruct (s_base s') as [l|] eqn:Hb; [|contradiction].
  destruct Hbase as (Hnew & arr & Harr & Hcap).
  split; [|exact Hlen].
  exists l. split; [reflexivity|]. split; [exact Hnew|].
  now apply lookup_lt_Some in Harr.
Qed.

(** X23. Two calls of [ConvertToMusicTrack], one after the other, put
    their artists into different arrays, and the second call leaves the
    result of the first as it was, whatever the growth policy of
    either. *)
Theorem ConvertToMusicTrack_calls_do_not_interfere
    (growcap growcap' : nat -> nat -> nat) (st st' : hSpotifyTrack) (h : heap) :
  let first := ListRevision.ConvertToMusicTrack growcap st h in
  let second := ListRevision.ConvertToMusicTrack growcap' st' (snd first) in
  s_base (hmt_Artists (fst first)) <> s_base (hmt_Artists (fst second))
  /\ ListRevision.view_MusicTrack (snd second) (fst first)
     = ListRevision.view_MusicTrack (snd first) (fst first).
Proof.
  cbn zeta.
  destruct (ListRevisionFacts.ConvertToMusicTrack_mem growcap st h)
    as (Hframe & s1 & Hres & Hown & Hnn).
  cbn zeta in *.
  set (h1 := snd (ListRevision.ConvertToMusicTrack growcap st h)) in *.
  destruct (ListRevisionFacts.ConvertToMusicTrack_mem growcap' st' h1)
    as (Hframe' & s2 & Hres' & Hown' & Hnn').
  cbn zeta in *.
  set (h2 := snd (ListRevision.ConvertToMusicTrack growcap' st' h1)) in *.
  rewrite Hres, Hres'. cbn [hmt_Artists].
  pose proof (owned_valid _ _ _ _ _ Hown) as Hvalid.
  split.
  - destruct Hown' as (_ & _ & _ & Hbase').
    destruct (s_base s2) as [l2|]; [|contradiction].
    destruct (s_base s1) as [l1|] eqn:Hb1; [|contradiction].
    destruct Hbase' as (Hnew & _).
    specialize (Hvalid l1 Hb1). intros [= ->]. lia.
  - apply ListRevisionFacts.view_MusicTrack_stable.
    + now apply Hframe'.
    + apply Hown'.
    + exact Hvalid.
Qed.
